(** * Stealth proxy layer: Proxy scoring, ProxyPool rotation, StealthSession retry

    Shallow embedding of [stealth_proxy.py].

    Conventions of the embedding:
    - Python [int] is [Z]; Python [float] (timestamps, scores, thresholds) is an
      exact rational [Q], compared with [Qle]/[Qlt]/[Qeq];
    - every [time.time()] read is an explicit argument [now] of the operation
      that performs it; the reads of one operation are taken at one instant;
    - [Proxy] objects are shared and mutated in place, so they live in a store
      indexed by references; the pool list and the sticky map hold references;
    - a Python exception is a value [Raise e] of the [result] type. *)

From Stdlib Require Import ZArith QArith Lqa Lia Bool List.
From stdpp Require Import base option list strings gmap functions.

Local Open Scope Z_scope.
Local Open Scope Q_scope.

(** ** Python builtins used by the module *)

Definition Qlt_bool (x y : Q) : bool := negb (Qle_bool y x).

(** [max(a, b)] keeps its first argument unless the second is greater. *)
Definition pymax (a b : Q) : Q := if Qlt_bool a b then b else a.

(** [min(a, b)] keeps its first argument unless the second is smaller. *)
Definition pymin (a b : Q) : Q := if Qlt_bool b a then b else a.

(** [min] on integers. *)
Definition pymin_int (a b : Z) : Z := if (b <? a)%Z then b else a.

(** Dynamically typed values found in provider records. [PyObj] stands for any
    other object (list, dict, ...): it has no [lower] method and [int] rejects
    it. *)
Inductive pyval :=
  | PyNone
  | PyBool (b : bool)
  | PyInt (z : Z)
  | PyFloat (q : Q)
  | PyStr (s : string)
  | PyObj.

Inductive exn := KeyError | TypeError | ValueError | AttributeError.

Inductive result (A : Type) :=
  | Ok (a : A)
  | Raise (e : exn).
Arguments Ok {A} a.
Arguments Raise {A} e.

(** ** Module constants *)

Definition SOFT_STATUS_CODES : list Z := [403; 429; 503]%Z.

Definition INITIAL_PROXY_SCORE : Q := 5 # 10.
Definition MAX_SCORE_DECAY : Q := 2 # 10.
Definition SCORE_DECAY_RATE : Q := 5 # 100.
Definition DECAY_HOURS_DIVISOR : Q := 3600.

Definition SOFT_FAIL_PENALTY_SECONDS : Z := 20.
Definition HARD_FAIL_PENALTY_SECONDS : Z := 90.
Definition MAX_PENALTY_MULTIPLIER : Z := 3.
Definition FAILURE_THRESHOLD : Z := 3.
Definition COOLDOWN_REDUCTION_SUCCESS : Z := 5.

(** ** Proxy model *)

Record Proxy := mkProxy {
  host : pyval;
  port : Z;
  proto : string;
  country : pyval;
  source : pyval;
  success : Z;
  fail : Z;
  last_used : Q;
  cooldown_until : Q;
  created_at : Q
}.

(** [Proxy.score], read at time [now]; [score_base] and [score_decay] are the
    locals [base] and [decay] of the property. *)
Definition score_base (self : Proxy) : Q :=
  let total := (success self + fail self)%Z in
  if (0 <? total)%Z then inject_Z (success self) / inject_Z total
  else INITIAL_PROXY_SCORE.

Definition score_decay (self : Proxy) (now : Q) : Q :=
  let age := pymax 1 (now - created_at self) in
  pymin MAX_SCORE_DECAY ((age / DECAY_HOURS_DIVISOR) * SCORE_DECAY_RATE).

Definition score (self : Proxy) (now : Q) : Q :=
  pymax 0 (pymin 1 (score_base self - score_decay self now)).

(** [Proxy.mark_success]; the two [time.time()] reads are taken at the same
    instant [now]. *)
Definition mark_success (self : Proxy) (now : Q) : Proxy :=
  {| host := host self; port := port self; proto := proto self;
     country := country self; source := source self;
     success := (success self + 1)%Z;
     fail := fail self;
     last_used := now;
     cooldown_until :=
       pymax (cooldown_until self - inject_Z COOLDOWN_REDUCTION_SUCCESS) now;
     created_at := created_at self |}.

(** [Proxy.mark_fail]. *)
Definition mark_fail (self : Proxy) (soft : bool) (now : Q) : Proxy :=
  let fail' := (fail self + 1)%Z in
  let base_penalty :=
    if soft then SOFT_FAIL_PENALTY_SECONDS else HARD_FAIL_PENALTY_SECONDS in
  let scaled :=
    (base_penalty * pymin_int MAX_PENALTY_MULTIPLIER (1 + fail' / FAILURE_THRESHOLD))%Z in
  {| host := host self; port := port self; proto := proto self;
     country := country self; source := source self;
     success := success self;
     fail := fail';
     last_used := now;
     cooldown_until := pymax (cooldown_until self) (now + inject_Z scaled);
     created_at := created_at self |}.

(** [Proxy.is_available]. *)
Definition is_available (self : Proxy) (now : Q) : bool :=
  Qle_bool (cooldown_until self) now.

(** Counters start at zero and are only ever incremented. *)
Definition counters_nonneg (p : Proxy) : Prop :=
  (0 <= success p)%Z /\ (0 <= fail p)%Z.

(** ** Proxy pool *)

(** A reference to a [Proxy] object, and the store holding the objects. *)
Definition ref := nat.
Definition store := ref -> Proxy.

Record ProxyPool := mkPool {
  _proxies : list ref;
  max_size : Z;
  min_score : Q;
  eviction_threshold : Q;
  _cursor : Z;
  _sticky_map : gmap string ref
}.

Definition ProxyPool_init (max_size : Z) (min_score eviction_threshold : Q) : ProxyPool :=
  {| _proxies := []; max_size := max_size; min_score := min_score;
     eviction_threshold := eviction_threshold; _cursor := 0;
     _sticky_map := ∅ |}.

Definition set_proxies (self : ProxyPool) (l : list ref) : ProxyPool :=
  {| _proxies := l; max_size := max_size self; min_score := min_score self;
     eviction_threshold := eviction_threshold self; _cursor := _cursor self;
     _sticky_map := _sticky_map self |}.

(** [ProxyPool.add_proxy]. *)
Definition add_proxy (self : ProxyPool) (proxy : ref) : ProxyPool :=
  if (Z.of_nat (length (_proxies self)) <? max_size self)%Z
  then set_proxies self (_proxies self ++ [proxy])
  else self.

(** [ProxyPool.bulk_add]: the loop stops at the first entry that finds the pool
    full. *)
Fixpoint bulk_add (self : ProxyPool) (proxies : list ref) : ProxyPool :=
  match proxies with
  | [] => self
  | p :: rest =>
      if (max_size self <=? Z.of_nat (length (_proxies self)))%Z then self
      else bulk_add (set_proxies self (_proxies self ++ [p])) rest
  end.

(** The condition under which [_evict_bad] keeps a proxy. *)
Definition keeps (self : ProxyPool) (p : Proxy) (now : Q) : bool :=
  Qle_bool (eviction_threshold self) (score p now)
  || (success p + fail p <? 5)%Z.

(** [ProxyPool._evict_bad]. *)
Definition _evict_bad (st : store) (self : ProxyPool) (now : Q) : ProxyPool :=
  set_proxies self (List.filter (fun p => keeps self (st p) now) (_proxies self)).

(** [enable_sticky and domain]: the domain to use as sticky key, if any. *)
Definition sticky_key (domain : option string) (enable_sticky : bool) : option string :=
  match domain with
  | Some d => if enable_sticky && negb (String.eqb d EmptyString) then Some d else None
  | None => None
  end.

Definition healthy (self : ProxyPool) (p : Proxy) (now : Q) : bool :=
  is_available p now && Qle_bool (min_score self) (score p now).

(** The local [candidates] of [ProxyPool.get_next]: the available proxies that
    meet the minimum score or, when there is none, every available proxy. *)
Definition candidates (st : store) (self : ProxyPool) (now : Q) : list ref :=
  match List.filter (fun p => healthy self (st p) now) (_proxies self) with
  | [] => List.filter (fun p => is_available (st p) now) (_proxies self)
  | c :: cs => c :: cs
  end.

(** The round-robin part of [ProxyPool.get_next], after eviction and after the
    sticky mapping was not used. *)
Definition rotate (st : store) (self : ProxyPool) (key : option string) (now : Q)
  : option ref * ProxyPool :=
  match candidates st self now with
  | [] => (None, self)
  | c :: cs =>
      let cursor := ((_cursor self + 1) mod Z.of_nat (length (c :: cs)))%Z in
      let chosen := nth (Z.to_nat cursor) (c :: cs) c in
      (Some chosen,
       {| _proxies := _proxies self; max_size := max_size self;
          min_score := min_score self;
          eviction_threshold := eviction_threshold self;
          _cursor := cursor;
          _sticky_map :=
            match key with
            | Some d => <[d := chosen]> (_sticky_map self)
            | None => _sticky_map self
            end |})
  end.

(** [ProxyPool.get_next]. *)
Definition get_next (st : store) (self : ProxyPool) (domain : option string)
    (enable_sticky : bool) (now : Q) : option ref * ProxyPool :=
  let self := _evict_bad st self now in
  let key := sticky_key domain enable_sticky in
  match key ≫= (fun d => _sticky_map self !! d) with
  | Some sticky =>
      if healthy self (st sticky) now then (Some sticky, self)
      else rotate st self key now
  | None => rotate st self key now
  end.

(** [ProxyPool.mark_result]: mutates the proxy object in place. *)
Definition mark_result (st : store) (proxy : option ref) (success : bool)
    (soft_fail : bool) (now : Q) : store :=
  match proxy with
  | None => st
  | Some r =>
      if success then <[r := mark_success (st r) now]> st
      else <[r := mark_fail (st r) soft_fail now]> st
  end.

(** ** Proxy construction and the provider adapter *)

(** [str.lower] on ASCII letters (bytes outside A-Z are left as they are). *)
Definition lower_ascii (c : Ascii.ascii) : Ascii.ascii :=
  let n := Ascii.nat_of_ascii c in
  if (65 <=? n)%nat && (n <=? 90)%nat then Ascii.ascii_of_nat (n + 32) else c.

Fixpoint lower (s : string) : string :=
  match s with
  | EmptyString => EmptyString
  | String c rest => String (lower_ascii c) (lower rest)
  end.

(** [Proxy.__init__], run at time [now]. The arguments arrive unchecked;
    [proto.lower()] is the only operation applied to them, and it exists on
    strings only. *)
Definition Proxy_init (host : pyval) (port : Z) (proto : pyval)
    (country : pyval) (source : pyval) (now : Q) : result Proxy :=
  match proto with
  | PyStr s =>
      Ok {| host := host; port := port; proto := lower s;
            country := country; source := source;
            success := 0; fail := 0;
            last_used := 0; cooldown_until := 0; created_at := now |}
  | _ => Raise AttributeError
  end.

(** [item[key]] on a provider record. *)
Definition getitem (item : gmap string pyval) (key : string) : result pyval :=
  match item !! key with
  | Some v => Ok v
  | None => Raise KeyError
  end.

(** [item.get(key, default)]; [item.get(key)] is [dict_get item key PyNone]. *)
Definition dict_get (item : gmap string pyval) (key : string) (default : pyval) : pyval :=
  match item !! key with
  | Some v => v
  | None => default
  end.

Section Adapter.

(** The builtin [int] applied to a string: [None] when it raises
    [ValueError]. *)
Variable int_of_str : string -> option Z.

(** The builtin [int]: a float is truncated toward zero. *)
Definition py_int (v : pyval) : result Z :=
  match v with
  | PyNone => Raise TypeError
  | PyBool b => Ok (Z.b2z b)
  | PyInt z => Ok z
  | PyFloat q => Ok (Z.quot (Qnum q) (Zpos (Qden q)))
  | PyStr s =>
      match int_of_str s with
      | Some z => Ok z
      | None => Raise ValueError
      end
  | PyObj => Raise TypeError
  end.

(** The body of the [try] block of [integrate_provider_proxies]: the Proxy
    built from one record, or the exception that interrupts it. *)
Definition proxy_of_item (item : gmap string pyval) (now : Q) : result Proxy :=
  match getitem item "ip" with
  | Raise e => Raise e
  | Ok host =>
      match getitem item "port" with
      | Raise e => Raise e
      | Ok port_val =>
          match py_int port_val with
          | Raise e => Raise e
          | Ok port =>
              Proxy_init host port
                (dict_get item "protocol" (PyStr "http"))
                (dict_get item "country" PyNone)
                (dict_get item "source" (PyStr "provider"))
                now
          end
      end
  end.

(** The records the [try] block gets through without raising: address and
    port are present, [int] accepts the port, and the protocol is absent or a
    string (the only values with a [lower] method). *)
Definition accepted (item : gmap string pyval) : bool :=
  match item !! "ip", item !! "port" with
  | Some _, Some port_val =>
      match py_int port_val with
      | Ok _ =>
          match item !! "protocol" with
          | None | Some (PyStr _) => true
          | Some _ => false
          end
      | Raise _ => false
      end
  | _, _ => false
  end.

(** [integrate_provider_proxies], run at time [now]:
    [except Exception: continue] drops the record and goes on with the next
    one. *)
Fixpoint integrate_provider_proxies (api_result : list (gmap string pyval))
    (now : Q) : list Proxy :=
  match api_result with
  | [] => []
  | item :: rest =>
      match proxy_of_item item now with
      | Ok p => p :: integrate_provider_proxies rest now
      | Raise _ => integrate_provider_proxies rest now
      end
  end.

End Adapter.

(** An optional string field of a record. *)
Definition optional_str (item : gmap string pyval) (key : string) : bool :=
  match item !! key with
  | None | Some (PyStr _) => true
  | Some _ => false
  end.

(** A record that follows the provider proxy record schema
    [{ address: string, port: integer, protocol?: "http"|"https",
       country?: string, source?: string }]; the adapter reads the address
    under the key ["ip"]. *)
Definition well_formed (item : gmap string pyval) : bool :=
  match item !! "ip", item !! "port" with
  | Some (PyStr _), Some (PyInt _) =>
      match item !! "protocol" with
      | None => true
      | Some (PyStr s) => String.eqb s "http" || String.eqb s "https"
      | Some _ => false
      end
      && optional_str item "country" && optional_str item "source"
  | _, _ => false
  end.

(** A record in which the address or the port is missing. *)
Definition missing_address_or_port (item : gmap string pyval) : bool :=
  match item !! "ip", item !! "port" with
  | Some _, Some _ => false
  | _, _ => true
  end.

(** The Proxy entity a record stands for: its address, port, protocol
    (["http"] when absent), country and source (["provider"] when absent), with
    no history and created at [now]. *)
Definition entity_of (item : gmap string pyval) (now : Q) (p : Proxy) : Prop :=
  item !! "ip" = Some (host p)
  /\ item !! "port" = Some (PyInt (port p))
  /\ PyStr (proto p) = dict_get item "protocol" (PyStr "http")
  /\ country p = dict_get item "country" PyNone
  /\ source p = dict_get item "source" (PyStr "provider")
  /\ success p = 0%Z /\ fail p = 0%Z
  /\ last_used p = 0 /\ cooldown_until p = 0 /\ created_at p = now.

(** ** Pool histories *)

(** The public operations of a pool, applied to the store of proxy objects and
    the pool. *)
Inductive pool_op :=
  | AddProxy (proxy : ref)
  | BulkAdd (proxies : list ref)
  | GetNext (domain : option string) (enable_sticky : bool) (now : Q)
  | MarkResult (proxy : option ref) (success soft_fail : bool) (now : Q).

Definition step (w : store * ProxyPool) (o : pool_op) : store * ProxyPool :=
  let '(st, pool) := w in
  match o with
  | AddProxy p => (st, add_proxy pool p)
  | BulkAdd ps => (st, bulk_add pool ps)
  | GetNext d sticky now => (st, snd (get_next st pool d sticky now))
  | MarkResult p ok soft now => (mark_result st p ok soft now, pool)
  end.

Definition run (w : store * ProxyPool) (ops : list pool_op) : store * ProxyPool :=
  fold_left step ops w.

(** An operation that may come between two sticky [get_next] calls for the
    domain [d] without touching the affinity of [d] to [r], the second call
    being made at time [deadline]: anything but a failure recorded on [r], an
    outcome recorded on [r] after [deadline], and a sticky [get_next] for [d]
    itself. *)
Definition spares (r : ref) (d : string) (deadline : Q) (o : pool_op) : bool :=
  match o with
  | AddProxy _ | BulkAdd _ => true
  | GetNext domain enable_sticky _ =>
      match sticky_key domain enable_sticky with
      | Some k => negb (String.eqb k d)
      | None => true
      end
  | MarkResult (Some p) ok _ t => negb (Nat.eqb p r) || (ok && Qle_bool t deadline)
  | MarkResult None _ _ _ => true
  end.

(** What the affinity of [d] to [r] rests on: the sticky entry of [d], the
    minimum score of the pool, and the score and availability of [r] as they
    were in [w] or better. *)
Definition affinity_kept (r : ref) (d : string) (deadline : Q)
    (w w' : store * ProxyPool) : Prop :=
  _sticky_map (snd w') !! d = _sticky_map (snd w) !! d
  /\ min_score (snd w') = min_score (snd w)
  /\ created_at (fst w' r) = created_at (fst w r)
  /\ fail (fst w' r) = fail (fst w r)
  /\ (success (fst w r) <= success (fst w' r))%Z
  /\ (cooldown_until (fst w r) <= deadline ->
      cooldown_until (fst w' r) <= deadline).

(** Every sticky entry refers to a proxy of the main list. *)
Definition sticky_in_list (pool : ProxyPool) : Prop :=
  forall d r, _sticky_map pool !! d = Some r -> In r (_proxies pool).

(** The pool has capacity [m] and holds at most [m] proxies. *)
Definition within_capacity (m : Z) (pool : ProxyPool) : Prop :=
  max_size pool = m /\ (Z.of_nat (length (_proxies pool)) <= m)%Z.

(** The pool knows no proxy other than [r]. *)
Definition only_proxy (r : ref) (pool : ProxyPool) : Prop :=
  (forall x, In x (_proxies pool) -> x = r)
  /\ (forall d x, _sticky_map pool !! d = Some x -> x = r).

(** ** Stealth session *)

Definition BLOCK_PATTERNS : list string :=
  ["captcha"; "recaptcha"; "access denied"; "verify you are human";
   "are you a robot"; "unusual traffic"; "blocked because"; "forbidden"]%string.

Record Response := mkResponse {
  status_code : Z;
  text : string
}.

(** [pat in s] on strings. *)
Fixpoint contains (pat s : string) : bool :=
  String.prefix pat s ||
  match s with
  | EmptyString => false
  | String _ rest => contains pat rest
  end.

(** What [requests.request] does in one attempt: it returns a response or
    raises [requests.Timeout], [requests.ConnectionError], or another
    [requests.RequestException]. *)
Inductive net_outcome :=
  | Responded (resp : Response)
  | RaisedTimeout
  | RaisedConnectionError
  | RaisedRequestException.

(** What the outside world contributes to one attempt: the clock reads of the
    pacing step, of [get_next] and of [mark_result], and the outcome of the
    network call through the proxy that was chosen. Sleeping only moves the
    clock, so [human_delay] and the pacing sleep show in these reads. *)
Record attempt_env := mkEnv {
  t_pace : Q;
  t_select : Q;
  net : ref -> net_outcome;
  t_mark : Q
}.

(** Messages sent to the logger. *)
Inductive log_event :=
  | LogNoProxies
  | LogSoftBlockDetected (proxy : ref)
  | LogSoftStatus (status : Z) (proxy : ref)
  | LogUnexpectedStatus (status : Z) (proxy : ref)
  | LogNetworkError (proxy : ref)
  | LogRequestError (proxy : ref)
  | LogSuccess (attempt : Z) (proxy : option ref)
  | LogAttemptFailed (attempt : Z)
  | LogAllFailed (max_retries : Z).

Record StealthSession := mkSession {
  proxy_pool : ProxyPool;
  timeout : Z;
  max_retries : Z;
  per_domain_delay : Q * Q;
  _domain_last_req : gmap string Q
}.

(** [StealthSession.__init__]: stores its arguments; no statement of it
    raises. *)
Definition StealthSession_init (proxy_pool : ProxyPool) (base_timeout : Z)
    (max_retries_per_request : Z) (per_domain_delay : Q * Q) : result StealthSession :=
  Ok {| proxy_pool := proxy_pool; timeout := base_timeout;
        max_retries := max_retries_per_request;
        per_domain_delay := per_domain_delay;
        _domain_last_req := ∅ |}.

(** The store of proxy objects, the session (with its pool) and the log. *)
Record state := mkState {
  heap : store;
  sess : StealthSession;
  logged : list log_event
}.

(** [StealthSession._respect_rate_limit]: after the sleep, records the time of
    the request for a non-empty domain. *)
Definition _respect_rate_limit (self : StealthSession) (domain : string) (now : Q)
  : StealthSession :=
  if String.eqb domain EmptyString then self
  else {| proxy_pool := proxy_pool self; timeout := timeout self;
          max_retries := max_retries self;
          per_domain_delay := per_domain_delay self;
          _domain_last_req := <[domain := now]> (_domain_last_req self) |}.

(** [StealthSession._looks_blocked]. *)
Definition _looks_blocked (resp : Response) : bool :=
  if existsb (Z.eqb (status_code resp)) SOFT_STATUS_CODES then true
  else
    let text := lower (String.substring 0 4096 (text resp)) in
    existsb (fun pat => contains pat text) BLOCK_PATTERNS.

Definition set_pool (self : StealthSession) (pool : ProxyPool) : StealthSession :=
  {| proxy_pool := pool; timeout := timeout self; max_retries := max_retries self;
     per_domain_delay := per_domain_delay self;
     _domain_last_req := _domain_last_req self |}.

(** [StealthSession._request_once] for a URL whose network location is
    [domain]. *)
Definition _request_once (s : state) (domain : string) (env : attempt_env)
  : (option Response * option ref) * state :=
  let self := _respect_rate_limit (sess s) domain (t_pace env) in
  let '(proxy, pool) :=
    get_next (heap s) (proxy_pool self) (Some domain) true (t_select env) in
  let self := set_pool self pool in
  match proxy with
  | None => ((None, None), mkState (heap s) self (logged s ++ [LogNoProxies]))
  | Some p =>
      let finish (resp : option Response) (ok soft : bool) (msgs : list log_event) :=
        ((resp, Some p),
         mkState (mark_result (heap s) (Some p) ok soft (t_mark env)) self
                 (logged s ++ msgs)) in
      match net env p with
      | Responded resp =>
          let code := status_code resp in
          if (200 <=? code)%Z && (code <? 300)%Z then
            if _looks_blocked resp
            then finish None false true [LogSoftBlockDetected p]
            else finish (Some resp) true false []
          else if existsb (Z.eqb code) SOFT_STATUS_CODES
          then finish None false true [LogSoftStatus code p]
          else if (300 <=? code)%Z && (code <? 400)%Z
          then finish (Some resp) true false []
          else finish None false true [LogUnexpectedStatus code p]
      | RaisedTimeout | RaisedConnectionError =>
          finish None false true [LogNetworkError p]
      | RaisedRequestException =>
          finish None false false [LogRequestError p]
      end
  end.

Definition add_log (s : state) (msgs : list log_event) : state :=
  mkState (heap s) (sess s) (logged s ++ msgs).

(** The [for attempt in range(...)] loop of [StealthSession.request], with
    [remaining] iterations left; [envs attempt] is the environment of the
    attempt with that number. *)
Fixpoint request_loop (remaining : nat) (attempt : Z) (s : state)
    (domain : string) (envs : Z -> attempt_env) : option Response * state :=
  match remaining with
  | O => (None, add_log s [LogAllFailed (max_retries (sess s))])
  | S k =>
      let '((resp, proxy), s') := _request_once s domain (envs attempt) in
      match resp with
      | Some r => (Some r, add_log s' [LogSuccess attempt proxy])
      | None =>
          request_loop k (attempt + 1) (add_log s' [LogAttemptFailed attempt])
            domain envs
      end
  end.

(** [StealthSession.request]: [range(1, max_retries + 1)] has
    [max(0, max_retries)] elements. *)
Definition request (s : state) (domain : string) (envs : Z -> attempt_env)
  : option Response * state :=
  request_loop (Z.to_nat (max_retries (sess s))) 1 s domain envs.

(** The attempt numbers the log reports as failed, and the number of attempts
    that found no proxy. *)
Definition failed_attempts (l : list log_event) : list Z :=
  flat_map (fun e => match e with LogAttemptFailed n => [n] | _ => [] end) l.

Definition no_proxy_count (l : list log_event) : Z :=
  Z.of_nat (length (List.filter
    (fun e => match e with LogNoProxies => true | _ => false end) l)).

(** ** Concrete objects used in the examples *)

(** A proxy as [Proxy("10.0.0.1", 8000)] builds it at time [now]. *)
Definition fresh (now : Q) : Proxy :=
  {| host := PyStr "10.0.0.1"; port := 8000; proto := "http";
     country := PyNone; source := PyStr "public";
     success := 0; fail := 0;
     last_used := 0; cooldown_until := 0; created_at := now |}.

(** A store in which every object was created at time 0. *)
Definition fresh_store : store := fun _ => fresh 0.

(** [ProxyPool()] with the default arguments. *)
Definition default_pool : ProxyPool := ProxyPool_init 200 (25 # 100) (5 # 100).

(** A proxy still cooling down until time 30. *)
Definition cooling : Proxy :=
  {| host := PyStr "10.0.0.1"; port := 8000; proto := "http";
     country := PyNone; source := PyStr "public";
     success := 0; fail := 1;
     last_used := 10; cooldown_until := 30; created_at := 0 |}.

(** A proxy with five failures and no success, long after its cooldown. *)
Definition worn_out : Proxy :=
  {| host := PyStr "10.0.0.2"; port := 8000; proto := "http";
     country := PyNone; source := PyStr "public";
     success := 0; fail := 5;
     last_used := 6; cooldown_until := 46; created_at := 0 |}.

(** A history in which a proxy becomes the sticky choice of a domain, fails
    five times and is evicted by the next [get_next]. *)
Definition evicting_history : list pool_op :=
  [AddProxy 0%nat;
   GetNext (Some "a.com"%string) true 1;
   MarkResult (Some 0%nat) false true 2;
   MarkResult (Some 0%nat) false true 3;
   MarkResult (Some 0%nat) false true 4;
   MarkResult (Some 0%nat) false true 5;
   MarkResult (Some 0%nat) false true 6;
   GetNext (Some "a.com"%string) true 1000].

(** A history that leaves two proxies with one failure each. *)
Definition two_failed_history : list pool_op :=
  [AddProxy 0%nat; AddProxy 1%nat;
   MarkResult (Some 0%nat) false true 1;
   MarkResult (Some 1%nat) false true 1].

(** What happens between two requests to "a.com" that both go through proxy
    1: the first request succeeds, a request to another domain goes through
    proxy 2 and fails, and a proxy is added. *)
Definition busy_history : list pool_op :=
  [MarkResult (Some 1%nat) true false 11;
   GetNext (Some "b.com"%string) true 12;
   MarkResult (Some 2%nat) false true 13;
   AddProxy 3%nat].

(** A default pool holding the objects 0, 1 and 2. *)
Definition three_proxy_pool : ProxyPool :=
  bulk_add default_pool [0%nat; 1%nat; 2%nat].

(** Provider records: two that follow the schema and one without a port. *)
Definition record_us : gmap string pyval :=
  list_to_map [("ip", PyStr "1.2.3.4"); ("port", PyInt 8000);
               ("protocol", PyStr "http"); ("country", PyStr "US");
               ("source", PyStr "test_provider")]%string.

Definition record_uk : gmap string pyval :=
  list_to_map [("ip", PyStr "5.6.7.8"); ("port", PyInt 8080);
               ("protocol", PyStr "https"); ("country", PyStr "UK")]%string.

Definition record_no_port : gmap string pyval :=
  list_to_map [("ip", PyStr "9.9.9.9"); ("protocol", PyStr "http")]%string.

(** A record that has an address and a port but does not follow the schema:
    the port is the float [8080.5]. *)
Definition record_float_port : gmap string pyval :=
  list_to_map [("ip", PyStr "4.4.4.4"); ("port", PyFloat (16161 # 2))]%string.

(** A session with [max_retries_per_request=3] over a default pool whose only
    proxy is object 0, new at time 0. *)
Definition single_proxy_state : state :=
  mkState fresh_store
    (mkSession (add_proxy default_pool 0%nat) 15 3 (1, 4) ∅) [].

(** Every network call ends in a connection error; attempt [i] runs around
    time [1000 + 5 i], so consecutive attempts are 5 seconds apart. *)
Definition quick_failures (i : Z) : attempt_env :=
  mkEnv (1000 + 5 * inject_Z i) (1001 + 5 * inject_Z i)
        (fun _ => RaisedConnectionError) (1002 + 5 * inject_Z i).

(** The same with attempts 50 seconds apart. *)
Definition slow_failures (i : Z) : attempt_env :=
  mkEnv (1000 + 50 * inject_Z i) (1001 + 50 * inject_Z i)
        (fun _ => RaisedConnectionError) (1002 + 50 * inject_Z i).

(** ** Further histories *)

(** [k] successive calls [get_next()] (no domain), all at time [now]: the
    proxies handed out, in order, and the pool afterwards. *)
Fixpoint get_next_times (k : nat) (st : store) (pool : ProxyPool) (now : Q)
  : list (option ref) * ProxyPool :=
  match k with
  | O => ([], pool)
  | S k' =>
      let '(r, pool') := get_next st pool None true now in
      let '(rs, pool'') := get_next_times k' st pool' now in
      (r :: rs, pool'')
  end.

(** The proxies that a history offers to the pool. *)
Definition offered (ops : list pool_op) : list ref :=
  flat_map (fun o =>
    match o with
    | AddProxy p => [p]
    | BulkAdd ps => ps
    | _ => []
    end) ops.

(** What a history may do to a proxy object: raise its counters. *)
Definition same_identity (p q : Proxy) : Prop :=
  host q = host p /\ port q = port p /\ proto q = proto p
  /\ country q = country p /\ source q = source p
  /\ created_at q = created_at p
  /\ (success p <= success q)%Z /\ (fail p <= fail q)%Z.

(** A pool whose list has been through eviction at [now] and whose candidates
    at [now] are [cands]. *)
Definition settled (st : store) (now : Q) (cands : list ref) (q : ProxyPool) : Prop :=
  _evict_bad st q now = q /\ candidates st q now = cands.

(** What [request] never changes: the configuration of the session and of its
    pool, and the pacing entries of the domains other than [domain]. *)
Definition same_session (domain : string) (a b : StealthSession) : Prop :=
  timeout b = timeout a
  /\ max_retries b = max_retries a
  /\ per_domain_delay b = per_domain_delay a
  /\ max_size (proxy_pool b) = max_size (proxy_pool a)
  /\ min_score (proxy_pool b) = min_score (proxy_pool a)
  /\ eviction_threshold (proxy_pool b) = eviction_threshold (proxy_pool a)
  /\ (forall d, d <> domain -> _domain_last_req b !! d = _domain_last_req a !! d)
  /\ (domain = EmptyString -> _domain_last_req b = _domain_last_req a).

(** A response the classification accepts, and a network that always answers
    with it. *)
Definition plain_page : Response := mkResponse 200 "<html>annual report</html>".

Definition answering (i : Z) : attempt_env :=
  mkEnv (1000 + 5 * inject_Z i) (1001 + 5 * inject_Z i)
        (fun _ => Responded plain_page) (1002 + 5 * inject_Z i).

(** ** Randomised delays and headers *)

(** [random.uniform(a, b)], computed as [a + (b - a) * random()] from the draw
    [u] of [random()]. *)
Definition uniform (a b u : Q) : Q := a + (b - a) * u.

(** [human_delay]: the duration handed to [time.sleep], for the draws [u1] and
    [u2]. *)
Definition human_delay (min_delay max_delay jitter : Q) (u1 u2 : Q) : Q :=
  let base := uniform min_delay max_delay u1 in
  let j := uniform (- jitter) jitter u2 in
  pymax (5 # 100) (base + j).

(** The sleep of [StealthSession._respect_rate_limit] for a clock read [now]
    and a draw [u]: [None] when it does not sleep. *)
Definition _respect_rate_limit_sleep (self : StealthSession) (domain : string)
    (now u : Q) : option Q :=
  if String.eqb domain EmptyString then None
  else
    let last := default 0 (_domain_last_req self !! domain) in
    let '(min_d, max_d) := per_domain_delay self in
    let gap := uniform min_d max_d u in
    if Qlt_bool (now - last) gap
    then Some (pymax (5 # 100) (gap - (now - last)))
    else None.

Definition MOBILE_UA_PROBABILITY : Q := 60 # 100.
Definition REFERER_INCLUSION_PROBABILITY : Q := 85 # 100.
Definition DNT_INCLUSION_PROBABILITY : Q := 30 # 100.
Definition CACHE_CONTROL_PROBABILITY : Q := 30 # 100.
Definition PRAGMA_PROBABILITY : Q := 25 # 100.

Definition DESKTOP_UAS : list string :=
  ["Mozilla/5.0 (Windows NT 10.0; Win64; x64) AppleWebKit/537.36 (KHTML, like Gecko) Chrome/124.0.0.0 Safari/537.36";
   "Mozilla/5.0 (Windows NT 10.0; Win64; x64; rv:125.0) Gecko/20100101 Firefox/125.0";
   "Mozilla/5.0 (Macintosh; Intel Mac OS X 10_15_7) AppleWebKit/605.1.15 (KHTML, like Gecko) Version/17.3 Safari/605.1.15";
   "Mozilla/5.0 (X11; Linux x86_64) AppleWebKit/537.36 (KHTML, like Gecko) Chrome/123.0.0.0 Safari/537.36"]%string.

Definition MOBILE_UAS : list string :=
  ["Mozilla/5.0 (iPhone; CPU iPhone OS 17_0 like Mac OS X) AppleWebKit/605.1.15 (KHTML, like Gecko) Version/17.0 Mobile/15E148 Safari/604.1";
   "Mozilla/5.0 (Linux; Android 14; Pixel 8 Pro) AppleWebKit/537.36 (KHTML, like Gecko) Chrome/123.0.0.0 Mobile Safari/537.36";
   "Mozilla/5.0 (Linux; Android 13; SM-G996B) AppleWebKit/537.36 (KHTML, like Gecko) Chrome/122.0.0.0 Mobile Safari/537.36"]%string.

Definition ACCEPT_LANGS : list string :=
  ["en-US,en;q=0.9";
   "en-GB,en;q=0.9";
   "en-US,en;q=0.8,fr;q=0.6";
   "en-US,en;q=0.8,de;q=0.5"]%string.

Definition ACCEPT_HEADERS : list string :=
  ["text/html,application/xhtml+xml,application/xml;q=0.9,image/avif,image/webp,*/*;q=0.8";
   "text/html,application/xhtml+xml,application/xml;q=0.9,*/*;q=0.8"]%string.

(** [random.choice(pool)] for the index draw [i]: some element of the pool. *)
Definition choice (pool : list string) (i : nat) : string :=
  nth (i mod length pool) pool EmptyString.

(** The draws that one call of [random_headers] may consume: the [random()]
    results compared with the five probabilities and the three choices. A draw
    that the call does not make is ignored. *)
Record header_draws := mkDraws {
  u_mobile : Q;
  i_ua : nat;
  i_accept : nat;
  i_lang : nat;
  u_referer : Q;
  u_dnt : Q;
  u_cache : Q;
  u_pragma : Q
}.

(** Truth value of an optional string ([None] and the empty string are
    false). *)
Definition nonempty (s : option string) : bool :=
  match s with
  | Some d => negb (String.eqb d EmptyString)
  | None => false
  end.

(** [random_headers]. *)
Definition random_headers (is_mobile : bool) (referer : option string)
    (extra : option (gmap string string)) (d : header_draws) : gmap string string :=
  let ua_pool :=
    if is_mobile && Qlt_bool (u_mobile d) MOBILE_UA_PROBABILITY
    then MOBILE_UAS else DESKTOP_UAS in
  let ua := choice ua_pool (i_ua d) in
  let headers : gmap string string :=
    list_to_map
      [("User-Agent", ua);
       ("Accept", choice ACCEPT_HEADERS (i_accept d));
       ("Accept-Language", choice ACCEPT_LANGS (i_lang d));
       ("Accept-Encoding", "gzip, deflate, br");
       ("Connection", "keep-alive");
       ("Upgrade-Insecure-Requests", "1");
       ("Sec-Fetch-Site", "none");
       ("Sec-Fetch-Mode", "navigate");
       ("Sec-Fetch-User", "?1");
       ("Sec-Fetch-Dest", "document")]%string in
  let headers :=
    match referer with
    | Some r =>
        if nonempty referer && Qlt_bool (u_referer d) REFERER_INCLUSION_PROBABILITY
        then <["Referer"%string := r]> headers else headers
    | None => headers
    end in
  let headers :=
    if Qlt_bool (u_dnt d) DNT_INCLUSION_PROBABILITY
    then <["DNT"%string := "1"%string]> headers else headers in
  let headers :=
    if Qlt_bool (u_cache d) CACHE_CONTROL_PROBABILITY
    then <["Cache-Control"%string := "max-age=0"%string]> headers else headers in
  let headers :=
    if Qlt_bool (u_pragma d) PRAGMA_PROBABILITY
    then <["Pragma"%string := "no-cache"%string]> headers else headers in
  match extra with
  | Some e => e ∪ headers
  | None => headers
  end.

(** The headers of one attempt of [_request_once]: [is_mobile] from the domain
    or from the draw [u], [referer] and [headers] popped from the keyword
    arguments ([headers] is the empty dict when absent). *)
Definition attempt_headers (domain : string) (referer : option string)
    (headers : option (gmap string string)) (u : Q) (d : header_draws)
  : gmap string string :=
  let is_mobile := contains "m." domain || Qlt_bool u (25 # 100) in
  random_headers is_mobile referer
    (Some (match headers with Some h => h | None => ∅ end)) d.

(** The names of the headers that [random_headers] always sets. *)
Definition fixed_headers : list string :=
  ["User-Agent"; "Accept"; "Accept-Language"; "Accept-Encoding"; "Connection";
   "Upgrade-Insecure-Requests"; "Sec-Fetch-Site"; "Sec-Fetch-Mode";
   "Sec-Fetch-User"; "Sec-Fetch-Dest"]%string.

(** ** Pool statistics *)

Record pool_stats := mkStats {
  total : Z;
  healthy_count : Z;
  stats_min_score : Q
}.

(** [ProxyPool.stats], read at time [now]. *)
Definition stats (st : store) (self : ProxyPool) (now : Q) : pool_stats :=
  {| total := Z.of_nat (length (_proxies self));
     healthy_count :=
       Z.of_nat (length (List.filter
         (fun p => Qle_bool (min_score self) (score (st p) now)) (_proxies self)));
     stats_min_score := min_score self |}.

(** A session that last requested "a.com" at time 1000. *)
Definition paced_session : StealthSession :=
  mkSession default_pool 15 3 (1, 4) {["a.com"%string := 1000]}.

(** ** Discovery and the entry points *)

(** A proxy as the discovery library puts it on the queue: a host string, an
    integer port and, when known, the country code of its location. *)
Record broker_proxy := mkBroker {
  b_host : string;
  b_port : Z;
  b_country : option string
}.

(** What running the broker gives: the queue it filled ([None] is the end
    marker, should the broker put one itself), or an exception. *)
Inductive broker_outcome :=
  | BrokerFound (queue : list (option broker_proxy))
  | BrokerRaised.

(** The [consumer] coroutine of [_gather_public_proxies], run at time [now] on
    the items of the queue, with [found] the proxies collected so far. *)
Fixpoint consumer (limit : Z) (countries : option (list string)) (now : Q)
    (queue : list (option broker_proxy)) (found : list Proxy) : list Proxy :=
  match queue with
  | [] => found
  | None :: _ => found
  | Some p :: rest =>
      if String.eqb (b_host p) EmptyString || (b_port p =? 0)%Z
      then consumer limit countries now rest found
      else
        let country := b_country p in
        if match countries with
           | Some (c :: cs) =>
               nonempty country
               && negb (existsb (fun x => bool_decide (country = Some x)) (c :: cs))
           | _ => false
           end
        then consumer limit countries now rest found
        else
          let proxy_obj :=
            {| host := PyStr (b_host p); port := b_port p; proto := lower "http";
               country := match country with Some c => PyStr c | None => PyNone end;
               source := PyStr "public";
               success := 0; fail := 0;
               last_used := 0; cooldown_until := 0; created_at := now |} in
          let found := found ++ [proxy_obj] in
          if (limit <=? Z.of_nat (length found))%Z then found
          else consumer limit countries now rest found
  end.

(** The slice [l[:n]]. *)
Definition slice_to {A} (l : list A) (n : Z) : list A :=
  if (0 <=? n)%Z then firstn (Z.to_nat n) l
  else firstn (Z.to_nat (Z.of_nat (length l) + n)) l.

(** [_gather_public_proxies]; [available] is [PROXYBROKER_AVAILABLE], and the
    end marker is put on the queue after the broker has finished. *)
Definition _gather_public_proxies (available : bool) (limit : Z)
    (countries : option (list string)) (queue : list (option broker_proxy))
    (now : Q) : list Proxy :=
  if negb available then []
  else slice_to (consumer limit countries now (queue ++ [None]) []) limit.

(** [discover_public_proxies]: any exception gives the empty list. *)
Definition discover_public_proxies (available : bool) (limit : Z)
    (country : option string) (broker : broker_outcome) (now : Q) : list Proxy :=
  let countries :=
    match country with
    | Some c => if nonempty country then Some [c] else None
    | None => None
    end in
  if negb available then []
  else
    match broker with
    | BrokerFound queue => _gather_public_proxies available limit countries queue now
    | BrokerRaised => []
    end.

(** [max(0, n)] on integers. *)
Definition pymax_int (a b : Z) : Z := if (a <? b)%Z then b else a.

(** Creating objects: the proxies [ps] become the objects [next], [next + 1],
    ... of the store. *)
Fixpoint alloc_all (st : store) (next : ref) (ps : list Proxy) : store * list ref :=
  match ps with
  | [] => (st, [])
  | p :: rest =>
      let '(st', refs) := alloc_all (<[next := p]> st) (S next) rest in
      (st', next :: refs)
  end.

Section EntryPoints.

Variable int_of_str : string -> option Z.

(** [generate_proxies_on_demand], run at time [now]; the objects it creates
    are placed in the store from [next] on. *)
Definition generate_proxies_on_demand (available : bool) (country : option string)
    (limit : Z) (provider_data : option (list (gmap string pyval)))
    (broker : broker_outcome) (now : Q) (st : store) (next : ref)
  : store * ProxyPool :=
  let pool := ProxyPool_init (limit * 3) (25 # 100) (5 # 100) in
  let provided :=
    match provider_data with
    | Some (item :: items) => Some (item :: items)
    | _ => None
    end in
  let '(st, next, pool) :=
    match provided with
    | Some data =>
        let provider_proxies := integrate_provider_proxies int_of_str data now in
        let '(st', refs) := alloc_all st next provider_proxies in
        (st', (next + length provider_proxies)%nat, bulk_add pool refs)
    | None => (st, next, pool)
    end in
  let remaining :=
    pymax_int 0 (limit - match provided with
                         | Some data => Z.of_nat (length data)
                         | None => 0
                         end) in
  if (0 <? remaining)%Z && available then
    let public_proxies := discover_public_proxies available remaining country broker now in
    let '(st', refs) := alloc_all st next public_proxies in
    (st', bulk_add pool refs)
  else (st, pool).

(** [get_stealth_session]. *)
Definition get_stealth_session (available : bool) (country : option string)
    (limit : Z) (provider_data : option (list (gmap string pyval)))
    (base_timeout max_retries_per_request : Z) (per_domain_delay : Q * Q)
    (broker : broker_outcome) (now : Q) (st : store) (next : ref)
  : store * result StealthSession :=
  let '(st', pool) :=
    generate_proxies_on_demand available country limit provider_data broker now
      st next in
  (st', StealthSession_init pool base_timeout max_retries_per_request per_domain_delay).

(** The truth value of a response: [Response.ok], false for the 4xx and 5xx
    status codes. *)
Definition response_ok (resp : Response) : bool :=
  negb ((400 <=? status_code resp)%Z && (status_code resp <? 600)%Z).

(** [fetch_legal_document_with_proxy] (example_proxy_integration.py) for a URL
    whose network location is [domain]: the text of the document, or [None]. *)
Definition fetch_legal_document_with_proxy (available : bool)
    (broker : broker_outcome) (now : Q) (st : store) (next : ref)
    (domain : string) (envs : Z -> attempt_env) : option string :=
  let provider_proxies : list (gmap string pyval) := [] in
  let '(st', session) :=
    get_stealth_session available (Some "US"%string) 10
      (match provider_proxies with [] => None | _ => Some provider_proxies end)
      20 5 (2, 5) broker now st next in
  match session with
  | Raise _ => None
  | Ok session =>
      match fst (request (mkState st' session []) domain envs) with
      | Some response =>
          if response_ok response && (status_code response =? 200)%Z
          then Some (text response) else None
      | None => None
      end
  end.

End EntryPoints.

(** A proxy object as [Proxy(...)] leaves it at time [now]: no history, no
    cooldown. *)
Definition brand_new (now : Q) (p : Proxy) : Prop :=
  success p = 0%Z /\ fail p = 0%Z /\ last_used p = 0 /\ cooldown_until p = 0
  /\ created_at p = now.

(** What [discover_public_proxies] promises of a proxy it returns when asked
    for the country [wanted]. *)
Definition discovered (wanted : option string) (now : Q) (p : Proxy) : Prop :=
  brand_new now p
  /\ source p = PyStr "public" /\ proto p = "http"%string
  /\ (exists h, host p = PyStr h /\ h <> EmptyString)
  /\ port p <> 0%Z
  /\ (forall c, wanted = Some c -> c <> EmptyString ->
        country p = PyStr c \/ country p = PyNone
        \/ country p = PyStr EmptyString).

(** A body of [n] spaces. *)
Fixpoint blank (n : nat) : string :=
  match n with
  | O => EmptyString
  | S k => String (Ascii.ascii_of_nat 32) (blank k)
  end.

(** ** Facts about the Python helpers *)

Lemma Qlt_bool_iff x y : Qlt_bool x y = true <-> x < y.
Proof.
  unfold Qlt_bool. rewrite negb_true_iff.
  split.
  - intros H. apply Qnot_le_lt. intros Hle.
    apply Qle_bool_iff in Hle. congruence.
  - intros H. destruct (Qle_bool y x) eqn:E; [|reflexivity].
    apply Qle_bool_iff in E. exfalso. apply (Qlt_not_le _ _ H E).
Qed.

Lemma Qlt_bool_false x y : Qlt_bool x y = false <-> y <= x.
Proof.
  unfold Qlt_bool. rewrite negb_false_iff. apply Qle_bool_iff.
Qed.

Lemma pymax_case a b : (a < b /\ pymax a b = b) \/ (b <= a /\ pymax a b = a).
Proof.
  unfold pymax. destruct (Qlt_bool a b) eqn:E.
  - left. split; [by apply Qlt_bool_iff | done].
  - right. split; [by apply Qlt_bool_false | done].
Qed.

Lemma pymin_case a b : (b < a /\ pymin a b = b) \/ (a <= b /\ pymin a b = a).
Proof.
  unfold pymin. destruct (Qlt_bool b a) eqn:E.
  - left. split; [by apply Qlt_bool_iff | done].
  - right. split; [by apply Qlt_bool_false | done].
Qed.

(** Case analysis on every [pymax] and [pymin] of the goal, then linear
    arithmetic. *)
Ltac minmax :=
  repeat match goal with
  | |- context [pymax ?a ?b] =>
      let H := fresh "Hmax" in destruct (pymax_case a b) as [[H ->]|[H ->]]
  | |- context [pymin ?a ?b] =>
      let H := fresh "Hmin" in destruct (pymin_case a b) as [[H ->]|[H ->]]
  end; try lra.

Lemma pymax_ge_l a b : a <= pymax a b.
Proof. minmax. Qed.

Lemma pymax_ge_r a b : b <= pymax a b.
Proof. minmax. Qed.

Lemma pymax_lub a b c : a <= c -> b <= c -> pymax a b <= c.
Proof. intros. minmax. Qed.

Lemma pymax_lub_lt a b c : a < c -> b < c -> pymax a b < c.
Proof. intros. minmax. Qed.

Lemma pymin_le_l a b : pymin a b <= a.
Proof. minmax. Qed.

Lemma pymin_le_r a b : pymin a b <= b.
Proof. minmax. Qed.

Lemma pymin_glb_lt a b c : c < a -> c < b -> c < pymin a b.
Proof. intros. minmax. Qed.

Lemma pymin_int_case (a b : Z) :
  ((b < a)%Z /\ pymin_int a b = b) \/ ((a <= b)%Z /\ pymin_int a b = a).
Proof. unfold pymin_int. destruct (Z.ltb_spec b a); auto. Qed.

(** ** Proxy: scoring *)

(** C7: for every Proxy state and observation time the score lies in [0, 1]. *)
Theorem score_in_unit_interval (p : Proxy) (now : Q) :
  0 <= score p now /\ score p now <= 1.
Proof.
  unfold score. split.
  - apply pymax_ge_l.
  - apply pymax_lub; [lra | apply pymin_le_l].
Qed.

Lemma score_decay_pos (p : Proxy) (now : Q) : 0 < score_decay p now.
Proof.
  unfold score_decay.
  pose proof (pymax_ge_l 1 (now - created_at p)) as Hage.
  apply pymin_glb_lt.
  - reflexivity.
  - unfold DECAY_HOURS_DIVISOR, SCORE_DECAY_RATE.
    set (age := pymax 1 (now - created_at p)) in *.
    assert (E : age / 3600 * (5 # 100) == age * (1 # 72000)) by (field; discriminate).
    rewrite E. lra.
Qed.

Lemma score_base_le_1 (p : Proxy) : counters_nonneg p -> score_base p <= 1.
Proof.
  intros [Hs Hf]. unfold score_base.
  destruct (0 <? success p + fail p)%Z eqn:E.
  - apply Z.ltb_lt in E.
    apply Qle_shift_div_r.
    + change 0 with (inject_Z 0). rewrite <- Zlt_Qlt. exact E.
    + rewrite Qmult_1_l. rewrite <- Zle_Qle. lia.
  - unfold INITIAL_PROXY_SCORE. lra.
Qed.

(** C10: the score of a proxy whose counters are non-negative is strictly
    below 1 at every observation time, because a positive decay is always
    subtracted from a base of at most 1. *)
Theorem score_lt_1 (p : Proxy) (now : Q) :
  counters_nonneg p -> score p now < 1.
Proof.
  intros Hp. unfold score.
  pose proof (score_decay_pos p now) as Hd.
  pose proof (score_base_le_1 p Hp) as Hb.
  apply pymax_lub_lt; [reflexivity|].
  eapply Qle_lt_trans; [apply pymin_le_r|]. lra.
Qed.

(** A proxy with one recorded success. *)
Lemma score_lt_1_witness :
  counters_nonneg (mark_success (fresh 0) 1)
  /\ score (mark_success (fresh 0) 1) 2 < 1.
Proof.
  assert (H : counters_nonneg (mark_success (fresh 0) 1)).
  { unfold counters_nonneg. simpl. lia. }
  split; [exact H | exact (score_lt_1 _ 2 H)].
Defined.

(** ** Proxy: cooldown on success *)

(** C2 as stated does not hold: on a proxy whose cooldown has expired (here a
    new proxy, [cooldown_until = 0]) a success at time 100 raises
    [cooldown_until] to 100. *)
Lemma mark_success_raises_expired_cooldown :
  ~ (cooldown_until (mark_success (fresh 0) 100) <= cooldown_until (fresh 0)).
Proof. apply Qlt_not_le. reflexivity. Qed.

(** C2, amended: [mark_success] does not increase a cooldown that is still
    pending at the time of the call, and moves an expired one to the time of
    the call. *)
Theorem mark_success_cooldown (p : Proxy) (now : Q) :
  (now <= cooldown_until p ->
     cooldown_until (mark_success p now) <= cooldown_until p)
  /\ (cooldown_until p < now ->
     cooldown_until (mark_success p now) == now).
Proof.
  simpl. unfold COOLDOWN_REDUCTION_SUCCESS.
  assert (E : inject_Z 5 == 5) by reflexivity.
  split; intros H; minmax.
Qed.

Lemma mark_success_cooldown_witness :
  cooldown_until (mark_success cooling 12) <= cooldown_until cooling.
Proof.
  apply (proj1 (mark_success_cooldown cooling 12)).
  unfold Qle. simpl. lia.
Defined.

(** A success shortens a pending cooldown by five seconds, but not below the
    time of the call. *)
Lemma mark_success_reduces (p : Proxy) (now : Q) :
  now <= cooldown_until p - 5 ->
  cooldown_until (mark_success p now) == cooldown_until p - 5.
Proof.
  intros H. simpl. unfold COOLDOWN_REDUCTION_SUCCESS.
  assert (E : inject_Z 5 == 5) by reflexivity.
  minmax.
Qed.

(** Counters never become negative. *)
Lemma Proxy_init_counters host port proto country source now p :
  Proxy_init host port proto country source now = Ok p -> counters_nonneg p.
Proof.
  unfold Proxy_init. destruct proto; try discriminate.
  intros [= <-]. unfold counters_nonneg. simpl. lia.
Qed.

Lemma mark_success_counters p now :
  counters_nonneg p -> counters_nonneg (mark_success p now).
Proof. unfold counters_nonneg. simpl. lia. Qed.

Lemma mark_fail_counters p soft now :
  counters_nonneg p -> counters_nonneg (mark_fail p soft now).
Proof. unfold counters_nonneg. simpl. lia. Qed.

(** ** Proxy: cooldown on failure *)

(** The penalty multiplier lies between 1 and 3. *)
Lemma penalty_multiplier_bounds (f : Z) :
  (0 <= f)%Z ->
  (1 <= pymin_int MAX_PENALTY_MULTIPLIER (1 + f / FAILURE_THRESHOLD) <= 3)%Z.
Proof.
  intros Hf. unfold MAX_PENALTY_MULTIPLIER, FAILURE_THRESHOLD.
  pose proof (Z.div_pos f 3 Hf ltac:(lia)).
  destruct (pymin_int_case 3 (1 + f / 3)) as [[H1 ->]|[H1 ->]]; lia.
Qed.

(** A failure never shortens the cooldown, and a soft failure at time [now]
    keeps the proxy unavailable for the next 20 seconds at least. *)
Lemma mark_fail_cooldown (p : Proxy) (soft : bool) (now : Q) :
  cooldown_until p <= cooldown_until (mark_fail p soft now).
Proof. simpl. apply pymax_ge_l. Qed.

Lemma mark_fail_unavailable (p : Proxy) (soft : bool) (now t : Q) :
  counters_nonneg p ->
  t < now + 20 ->
  is_available (mark_fail p soft now) t = false.
Proof.
  intros [_ Hf] Ht. unfold is_available.
  destruct (Qle_bool _ t) eqn:E; [|reflexivity].
  apply Qle_bool_iff in E. exfalso.
  simpl in E.
  pose proof (pymax_ge_r (cooldown_until p)
    (now + inject_Z ((if soft then SOFT_FAIL_PENALTY_SECONDS
                      else HARD_FAIL_PENALTY_SECONDS) *
       pymin_int MAX_PENALTY_MULTIPLIER (1 + (fail p + 1) / FAILURE_THRESHOLD))))
    as Hge.
  pose proof (penalty_multiplier_bounds (fail p + 1) ltac:(lia)) as [Hlo _].
  set (mult := pymin_int _ _) in *.
  assert (H20 : (20 <= (if soft then SOFT_FAIL_PENALTY_SECONDS
                        else HARD_FAIL_PENALTY_SECONDS) * mult)%Z).
  { destruct soft; unfold SOFT_FAIL_PENALTY_SECONDS, HARD_FAIL_PENALTY_SECONDS; lia. }
  rewrite Zle_Qle in H20.
  assert (E20 : inject_Z 20 == 20) by reflexivity.
  lra.
Qed.

(** ** Proxy: the success ratio *)

(** Case analysis on every [pymax] and [pymin] of the goal and of the
    hypotheses, then linear arithmetic. *)
Ltac minmax_all :=
  repeat match goal with
  | |- context [pymax ?a ?b] =>
      let E := fresh "E" in
      destruct (pymax_case a b) as [[? E]|[? E]]; rewrite E in *; clear E
  | |- context [pymin ?a ?b] =>
      let E := fresh "E" in
      destruct (pymin_case a b) as [[? E]|[? E]]; rewrite E in *; clear E
  | _ : context [pymax ?a ?b] |- _ =>
      let E := fresh "E" in
      destruct (pymax_case a b) as [[? E]|[? E]]; rewrite E in *; clear E
  | _ : context [pymin ?a ?b] |- _ =>
      let E := fresh "E" in
      destruct (pymin_case a b) as [[? E]|[? E]]; rewrite E in *; clear E
  end; try lra.

Lemma score_base_ratio (p : Proxy) :
  (0 < success p + fail p)%Z ->
  score_base p == success p # Z.to_pos (success p + fail p).
Proof.
  intros H. unfold score_base.
  destruct (Z.ltb_spec 0 (success p + fail p)); [|lia].
  rewrite Qmake_Qdiv. by rewrite Z2Pos.id.
Qed.

Lemma score_base_success (p : Proxy) (now : Q) :
  counters_nonneg p -> score_base p <= score_base (mark_success p now).
Proof.
  intros [Hs Hf].
  rewrite (score_base_ratio (mark_success p now)) by (simpl; lia). simpl.
  destruct (Z.ltb_spec 0 (success p + fail p)) as [H|H].
  - rewrite (score_base_ratio p H). unfold Qle. simpl.
    rewrite !Z2Pos.id by lia. nia.
  - unfold score_base. destruct (Z.ltb_spec 0 (success p + fail p)); [lia|].
    assert (E : success p = 0%Z) by lia. rewrite E.
    assert (E' : fail p = 0%Z) by lia. rewrite E'.
    unfold INITIAL_PROXY_SCORE, Qle. simpl. lia.
Qed.

Lemma score_base_fail (p : Proxy) (soft : bool) (now : Q) :
  counters_nonneg p -> score_base (mark_fail p soft now) <= score_base p.
Proof.
  intros [Hs Hf].
  rewrite (score_base_ratio (mark_fail p soft now)) by (simpl; lia). simpl.
  destruct (Z.ltb_spec 0 (success p + fail p)) as [H|H].
  - rewrite (score_base_ratio p H). unfold Qle. simpl.
    rewrite !Z2Pos.id by lia. nia.
  - unfold score_base. destruct (Z.ltb_spec 0 (success p + fail p)); [lia|].
    assert (E : success p = 0%Z) by lia. rewrite E.
    assert (E' : fail p = 0%Z) by lia. rewrite E'.
    unfold INITIAL_PROXY_SCORE, Qle. simpl. lia.
Qed.

Lemma clamp_monotone (x y d : Q) :
  x <= y -> pymax 0 (pymin 1 (x - d)) <= pymax 0 (pymin 1 (y - d)).
Proof. intros H. minmax_all. Qed.

(** ** Pool: eviction *)

Lemma keeps_false (pool : ProxyPool) (p : Proxy) (now : Q) :
  keeps pool p now = false <->
  score p now < eviction_threshold pool /\ (5 <= success p + fail p)%Z.
Proof.
  unfold keeps. rewrite orb_false_iff.
  rewrite Z.ltb_ge.
  split; intros [H1 H2]; split; try assumption.
  - apply Qnot_le_lt. intros Hle. apply Qle_bool_iff in Hle. congruence.
  - destruct (Qle_bool _ _) eqn:E; [|reflexivity].
    apply Qle_bool_iff in E. exfalso. apply (Qlt_not_le _ _ H1 E).
Qed.

(** C9: eviction removes a listed proxy exactly when its score is below the
    eviction threshold and it has at least 5 recorded attempts; a proxy with
    fewer than 5 attempts stays, and eviction adds nothing to the list. *)
Theorem evict_bad_removes_iff (st : store) (pool : ProxyPool) (now : Q) (r : ref) :
  In r (_proxies pool) ->
  (~ In r (_proxies (_evict_bad st pool now)) <->
     score (st r) now < eviction_threshold pool
     /\ (5 <= success (st r) + fail (st r))%Z)
  /\ ((success (st r) + fail (st r) < 5)%Z ->
        In r (_proxies (_evict_bad st pool now)))
  /\ (forall r', In r' (_proxies (_evict_bad st pool now)) -> In r' (_proxies pool)).
Proof.
  intros Hin. simpl. split; [split|split].
  - intros Hnot. apply keeps_false.
    destruct (keeps pool (st r) now) eqn:E; [|reflexivity].
    exfalso. apply Hnot. apply filter_In. split; assumption.
  - intros Hk Hin'. apply filter_In in Hin' as [_ Hk'].
    apply keeps_false in Hk. congruence.
  - intros Hlt. apply filter_In. split; [assumption|].
    unfold keeps. apply orb_true_iff. right. apply Z.ltb_lt. exact Hlt.
  - intros r' Hr'. apply filter_In in Hr'. tauto.
Qed.

(** Witness: a proxy with five failures and score 0 is listed, and evicted. *)
Lemma evict_bad_removes_iff_witness :
  In 0%nat (_proxies (add_proxy default_pool 0%nat))
  /\ ~ In 0%nat
       (_proxies (_evict_bad (fun _ => worn_out) (add_proxy default_pool 0%nat) 1000)).
Proof.
  assert (H : In 0%nat (_proxies (add_proxy default_pool 0%nat))).
  { simpl. left. reflexivity. }
  split; [exact H|].
  apply (proj1 (evict_bad_removes_iff (fun _ => worn_out) _ 1000 0%nat H)).
  split; [reflexivity | simpl; lia].
Defined.

(** ** Pool: capacity *)

Lemma add_proxy_capacity m pool p :
  within_capacity m pool -> within_capacity m (add_proxy pool p).
Proof.
  intros [Hm Hl]. unfold add_proxy.
  destruct (Z.ltb_spec (Z.of_nat (length (_proxies pool))) (max_size pool)).
  - split; simpl; [assumption|]. rewrite length_app. simpl. lia.
  - split; assumption.
Qed.

Lemma bulk_add_capacity m ps : forall pool,
  within_capacity m pool -> within_capacity m (bulk_add pool ps).
Proof.
  induction ps as [|p ps IH]; intros pool [Hm Hl]; simpl.
  - split; assumption.
  - destruct (Z.leb_spec (max_size pool) (Z.of_nat (length (_proxies pool)))).
    + split; assumption.
    + apply IH. split; simpl; [assumption|]. rewrite length_app. simpl. lia.
Qed.

Lemma evict_bad_capacity m st pool now :
  within_capacity m pool -> within_capacity m (_evict_bad st pool now).
Proof.
  intros [Hm Hl]. split; simpl; [assumption|].
  pose proof (filter_length_le (fun p => keeps pool (st p) now) (_proxies pool)).
  lia.
Qed.

Lemma rotate_proxies st pool key now :
  _proxies (snd (rotate st pool key now)) = _proxies pool
  /\ max_size (snd (rotate st pool key now)) = max_size pool
  /\ min_score (snd (rotate st pool key now)) = min_score pool
  /\ eviction_threshold (snd (rotate st pool key now)) = eviction_threshold pool.
Proof.
  unfold rotate. destruct (candidates st pool now); simpl; auto.
Qed.

Lemma get_next_proxies st pool domain sticky now :
  _proxies (snd (get_next st pool domain sticky now))
    = _proxies (_evict_bad st pool now)
  /\ max_size (snd (get_next st pool domain sticky now)) = max_size pool.
Proof.
  unfold get_next.
  pose proof (rotate_proxies st (_evict_bad st pool now)
                (sticky_key domain sticky) now) as (H1 & H2 & _).
  destruct (sticky_key domain sticky ≫= _) as [s|]; [|auto].
  destruct (healthy _ _ _); auto.
Qed.

Lemma step_capacity m w o :
  within_capacity m (snd w) -> within_capacity m (snd (step w o)).
Proof.
  destruct w as [st pool]. simpl. intros H.
  destruct o; simpl.
  - by apply add_proxy_capacity.
  - by apply bulk_add_capacity.
  - destruct (get_next_proxies st pool domain enable_sticky now) as [E1 E2].
    apply (evict_bad_capacity m st pool now) in H as [Hm Hl].
    split; [rewrite E2; exact Hm | rewrite E1; exact Hl].
  - exact H.
Qed.

Lemma run_capacity m ops : forall w,
  within_capacity m (snd w) -> within_capacity m (snd (run w ops)).
Proof.
  induction ops as [|o ops IH]; intros w H; simpl; [exact H|].
  apply IH. by apply step_capacity.
Qed.

(** C8: in a pool built with capacity [m], the list never holds more than [m]
    proxies, whatever operations are applied; a pool of capacity 3 that is
    bulk-loaded with 5 entries keeps the first 3. *)
Theorem pool_size_bounded (m : Z) (ms et : Q) (st : store) (ops : list pool_op) :
  (0 <= m)%Z ->
  (Z.of_nat (length (_proxies (snd (run (st, ProxyPool_init m ms et) ops)))) <= m)%Z
  /\ (forall a b c d e,
        _proxies (bulk_add (ProxyPool_init 3 ms et) [a; b; c; d; e]) = [a; b; c]).
Proof.
  intros Hm. split.
  - apply (run_capacity m ops (st, ProxyPool_init m ms et)).
    split; simpl; [reflexivity | lia].
  - reflexivity.
Qed.

Lemma pool_size_bounded_witness :
  (Z.of_nat (length (_proxies (snd (run (fresh_store, ProxyPool_init 3 (25 # 100) (5 # 100))
     [BulkAdd [0; 1; 2; 3; 4]%nat; AddProxy 5%nat])))) <= 3)%Z.
Proof.
  apply (pool_size_bounded 3 (25 # 100) (5 # 100) fresh_store
           [BulkAdd [0; 1; 2; 3; 4]%nat; AddProxy 5%nat]).
  lia.
Defined.

(** ** Pool: candidates and the sticky map *)

(** Reading the store at the object that was just replaced. *)
Lemma store_lookup_insert (st : store) (r : ref) (p : Proxy) :
  (<[r := p]> st) r = p.
Proof. apply fn_lookup_insert. Qed.

Lemma store_lookup_insert_ne (st : store) (r r' : ref) (p : Proxy) :
  r <> r' -> (<[r := p]> st) r' = st r'.
Proof. intros H. by apply fn_lookup_insert_ne. Qed.

Lemma candidates_spec st pool now x :
  In x (candidates st pool now) ->
  In x (_proxies pool) /\ is_available (st x) now = true.
Proof.
  unfold candidates.
  destruct (List.filter (fun p => healthy pool (st p) now) (_proxies pool))
    as [|c cs] eqn:E.
  - intros H. apply filter_In in H. exact H.
  - rewrite <- E. intros H. apply filter_In in H as [H1 H2].
    unfold healthy in H2. apply andb_true_iff in H2. tauto.
Qed.

Lemma nth_head_default {A} (n : nat) (c : A) (cs : list A) :
  In (nth n (c :: cs) c) (c :: cs).
Proof.
  destruct (nth_in_or_default n (c :: cs) c) as [H|H]; [exact H|].
  rewrite H. left. reflexivity.
Qed.

(** What [rotate] returns is a candidate, and the sticky map changes at the
    key only. *)
Lemma rotate_chosen st pool key now r pool' :
  rotate st pool key now = (Some r, pool') ->
  In r (candidates st pool now)
  /\ _proxies pool' = _proxies pool
  /\ min_score pool' = min_score pool
  /\ eviction_threshold pool' = eviction_threshold pool
  /\ max_size pool' = max_size pool
  /\ _sticky_map pool' =
       match key with
       | Some d => <[d := r]> (_sticky_map pool)
       | None => _sticky_map pool
       end.
Proof.
  unfold rotate. destruct (candidates st pool now) as [|c cs]; [discriminate|].
  intros [= <- <-]. simpl. split; [apply nth_head_default | auto 6].
Qed.

Lemma rotate_none st pool key now pool' :
  rotate st pool key now = (None, pool') -> pool' = pool.
Proof.
  unfold rotate. destruct (candidates st pool now); [|discriminate].
  by intros [= <-].
Qed.

Lemma rotate_sticky st pool key now d r :
  _sticky_map (snd (rotate st pool key now)) !! d = Some r ->
  _sticky_map pool !! d = Some r \/ In r (_proxies pool).
Proof.
  destruct (rotate st pool key now) as [[c|] pool'] eqn:E; simpl.
  - apply rotate_chosen in E as (Hc & _ & _ & _ & _ & ->).
    apply candidates_spec in Hc as [Hc _].
    destruct key as [d0|]; [|auto].
    destruct (decide (d0 = d)) as [->|Hne].
    + rewrite lookup_insert_eq. intros [= <-]. auto.
    + rewrite lookup_insert_ne by done. auto.
  - apply rotate_none in E as ->. auto.
Qed.

Lemma get_next_sticky st pool domain sticky now d r :
  _sticky_map (snd (get_next st pool domain sticky now)) !! d = Some r ->
  _sticky_map pool !! d = Some r
  \/ In r (_proxies (snd (get_next st pool domain sticky now))).
Proof.
  destruct (get_next_proxies st pool domain sticky now) as [-> _].
  unfold get_next.
  destruct (sticky_key domain sticky ≫= _) as [s|];
    [destruct (healthy _ _ _)|]; try (simpl; by auto);
    intros H; apply rotate_sticky in H; exact H.
Qed.

Lemma bulk_add_sticky ps : forall pool,
  _sticky_map (bulk_add pool ps) = _sticky_map pool.
Proof.
  induction ps as [|p ps IH]; intros pool; simpl; [reflexivity|].
  destruct (max_size pool <=? _)%Z; [reflexivity|]. by rewrite IH.
Qed.

Lemma add_proxy_sticky pool p :
  _sticky_map (add_proxy pool p) = _sticky_map pool.
Proof. unfold add_proxy. by destruct (_ <? _)%Z. Qed.

Lemma step_sticky w o d r :
  _sticky_map (snd (step w o)) !! d = Some r ->
  _sticky_map (snd w) !! d = Some r \/ In r (_proxies (snd (step w o))).
Proof.
  destruct w as [st pool]. destruct o; simpl.
  - rewrite add_proxy_sticky. auto.
  - rewrite bulk_add_sticky. auto.
  - apply get_next_sticky.
  - auto.
Qed.

Lemma run_snoc w ops o : run w (ops ++ [o]) = step (run w ops) o.
Proof. unfold run. by rewrite fold_left_app. Qed.

(** C3 as stated does not hold: after the history [evicting_history] the proxy
    that is the sticky choice of "a.com" has been evicted from the list, and
    the sticky map still refers to it. *)
Lemma sticky_entry_outlives_eviction :
  ~ sticky_in_list (snd (run (fresh_store, ProxyPool_init 10 (25 # 100) (5 # 100))
                           evicting_history)).
Proof.
  intros H. specialize (H "a.com"%string 0%nat).
  assert (E : _sticky_map (snd (run (fresh_store, ProxyPool_init 10 (25 # 100) (5 # 100))
                evicting_history)) !! "a.com"%string = Some 0%nat)
    by (vm_compute; reflexivity).
  specialize (H E). vm_compute in H. exact H.
Qed.

(** C3, amended: eviction leaves the sticky map as it is, and in every state
    reached from a new pool each proxy of the sticky map was an element of the
    main list at some earlier or the present point of the history. *)
Theorem sticky_entries_were_listed (st : store) (m : Z) (ms et : Q)
    (ops : list pool_op) (d : string) (r : ref) :
  _sticky_map (snd (run (st, ProxyPool_init m ms et) ops)) !! d = Some r ->
  (exists ops1 ops2,
      ops = ops1 ++ ops2
      /\ In r (_proxies (snd (run (st, ProxyPool_init m ms et) ops1))))
  /\ (forall st' pool now,
        _sticky_map (_evict_bad st' pool now) = _sticky_map pool).
Proof.
  intros H. split; [|reflexivity].
  revert H. induction ops as [|o ops IH] using rev_ind.
  - simpl. rewrite lookup_empty. discriminate.
  - rewrite run_snoc. intros H. apply step_sticky in H as [H|H].
    + destruct (IH H) as (ops1 & ops2 & -> & Hin).
      exists ops1, (ops2 ++ [o]). split; [by rewrite <- app_assoc | exact Hin].
    + exists (ops ++ [o]), []. split; [by rewrite app_nil_r|].
      rewrite run_snoc. exact H.
Qed.

Lemma sticky_entries_were_listed_witness :
  exists ops1 ops2,
    evicting_history = ops1 ++ ops2
    /\ In 0%nat (_proxies (snd (run (fresh_store, ProxyPool_init 10 (25 # 100) (5 # 100))
                                 ops1))).
Proof.
  apply (sticky_entries_were_listed fresh_store 10 (25 # 100) (5 # 100)
           evicting_history "a.com"%string 0%nat).
  vm_compute. reflexivity.
Defined.

(** ** Pool: session affinity *)

Lemma filter_idem {A} (f : A -> bool) (l : list A) :
  List.filter f (List.filter f l) = List.filter f l.
Proof.
  induction l as [|x l IH]; simpl; [reflexivity|].
  destruct (f x) eqn:E; simpl; [rewrite E|]; by rewrite ?IH.
Qed.

(** Evicting twice at the same instant is evicting once. *)
Lemma evict_bad_idem st pool now :
  _evict_bad st (_evict_bad st pool now) now = _evict_bad st pool now.
Proof.
  unfold _evict_bad, set_proxies, keeps. simpl. by rewrite filter_idem.
Qed.

Lemma sticky_key_nonempty d : d <> EmptyString -> sticky_key (Some d) true = Some d.
Proof.
  intros Hd. unfold sticky_key. simpl.
  destruct (String.eqb_spec d EmptyString); [contradiction | reflexivity].
Qed.

Lemma score_base_more_successes (p p' : Proxy) :
  counters_nonneg p ->
  fail p' = fail p ->
  (success p <= success p')%Z ->
  score_base p <= score_base p'.
Proof.
  intros [Hs Hf] Ef Hle.
  destruct (Z.ltb_spec 0 (success p + fail p)) as [H|H].
  - rewrite (score_base_ratio p H), (score_base_ratio p') by lia.
    unfold Qle. simpl. rewrite Ef, !Z2Pos.id by lia. nia.
  - assert (E : success p = 0%Z) by lia.
    assert (E' : fail p = 0%Z) by lia.
    unfold score_base at 1. rewrite E, E'. simpl.
    destruct (Z.ltb_spec 0 (success p' + fail p')) as [H'|H'].
    + rewrite (score_base_ratio p' H'). rewrite Ef, E', Z.add_0_r.
      unfold INITIAL_PROXY_SCORE, Qle. simpl. rewrite Z2Pos.id by lia. lia.
    + unfold score_base. destruct (Z.ltb_spec 0 (success p' + fail p')); [lia|].
      unfold INITIAL_PROXY_SCORE, Qle. simpl. lia.
Qed.

Lemma score_more_successes (p p' : Proxy) (now : Q) :
  counters_nonneg p ->
  created_at p' = created_at p ->
  fail p' = fail p ->
  (success p <= success p')%Z ->
  score p now <= score p' now.
Proof.
  intros Hp Ec Ef Hle. unfold score.
  assert (Ed : score_decay p' now = score_decay p now)
    by (unfold score_decay; by rewrite Ec).
  rewrite Ed. apply clamp_monotone. by apply score_base_more_successes.
Qed.

(** Rotation changes the sticky map at its key only. *)
Lemma rotate_sticky_other st pool key now d :
  key <> Some d ->
  _sticky_map (snd (rotate st pool key now)) !! d = _sticky_map pool !! d.
Proof.
  intros Hk. destruct (rotate st pool key now) as [[c|] pool'] eqn:E; simpl.
  - apply rotate_chosen in E as (_ & _ & _ & _ & _ & ->).
    destruct key as [k|]; [|reflexivity].
    apply lookup_insert_ne. congruence.
  - by apply rotate_none in E as ->.
Qed.

Lemma get_next_sticky_other st pool domain sticky now d :
  sticky_key domain sticky <> Some d ->
  _sticky_map (snd (get_next st pool domain sticky now)) !! d
  = _sticky_map pool !! d.
Proof.
  intros Hk. unfold get_next.
  destruct (sticky_key domain sticky ≫= _) as [s|];
    [destruct (healthy _ _ _)|]; try reflexivity;
    by rewrite rotate_sticky_other.
Qed.

Lemma get_next_min_score st pool domain sticky now :
  min_score (snd (get_next st pool domain sticky now)) = min_score pool.
Proof.
  unfold get_next.
  pose proof (rotate_proxies st (_evict_bad st pool now)
                (sticky_key domain sticky) now) as (_ & _ & H & _).
  destruct (sticky_key domain sticky ≫= _) as [s|];
    [destruct (healthy _ _ _)|]; simpl; auto.
Qed.

Lemma bulk_add_min_score ps : forall pool,
  min_score (bulk_add pool ps) = min_score pool.
Proof.
  induction ps as [|p ps IH]; intros pool; simpl; [reflexivity|].
  destruct (max_size pool <=? _)%Z; [reflexivity|]. by rewrite IH.
Qed.

Lemma step_spares r d deadline w o :
  spares r d deadline o = true -> affinity_kept r d deadline w (step w o).
Proof.
  destruct w as [st pool]. unfold affinity_kept.
  destruct o as [p|ps|domain sticky t|[p|] ok soft t]; simpl; intros H.
  - rewrite add_proxy_sticky. unfold add_proxy.
    destruct (_ <? _)%Z; simpl; repeat split; auto; lia.
  - rewrite bulk_add_sticky, bulk_add_min_score. repeat split; auto; lia.
  - rewrite get_next_min_score, get_next_sticky_other.
    + repeat split; auto; lia.
    + destruct (sticky_key domain sticky) as [k|]; [|discriminate].
      intros [= ->]. by rewrite String.eqb_refl in H.
  - destruct (Nat.eqb_spec p r) as [->|Hne]; simpl in H.
    + apply andb_true_iff in H as [-> Ht]. apply Qle_bool_iff in Ht.
      rewrite store_lookup_insert. simpl.
      repeat split; try lia. intros Hc.
      unfold COOLDOWN_REDUCTION_SUCCESS. change (inject_Z 5) with 5.
      minmax_all.
    + destruct ok; rewrite store_lookup_insert_ne by done;
        repeat split; auto; lia.
  - repeat split; auto; lia.
Qed.

Lemma run_spares r d deadline ops : forall w,
  forallb (spares r d deadline) ops = true ->
  affinity_kept r d deadline w (run w ops).
Proof.
  induction ops as [|o ops IH]; intros w H.
  - unfold affinity_kept. simpl. repeat split; auto; lia.
  - simpl in H. apply andb_true_iff in H as [Ho Hops].
    pose proof (step_spares r d deadline w o Ho) as (S1 & S2 & S3 & S4 & S5 & S6).
    pose proof (IH (step w o) Hops) as (R1 & R2 & R3 & R4 & R5 & R6).
    change (run w (o :: ops)) with (run (step w o) ops).
    unfold affinity_kept. repeat split; try congruence; try lia. auto.
Qed.

(** C4 as stated does not hold: when no available proxy meets the minimum
    score, [get_next] falls back to round-robin over all available proxies; the
    proxy it returns and records is not reused by the next call, which rotates
    on. Two proxies with one failure each, cooldowns over at time 100. *)
Lemma get_next_fallback_rotates :
  let w := run (fresh_store, default_pool) two_failed_history in
  let first := get_next (fst w) (snd w) (Some "a.com"%string) true 100 in
  fst first = Some 1%nat
  /\ fst (get_next (fst w) (snd first) (Some "a.com"%string) true 100) = Some 0%nat.
Proof. vm_compute. split; reflexivity. Qed.

(** C4, amended: for a non-empty domain, when [get_next] returns a proxy whose
    score, as the proxy stands and read at the time of the second call, meets
    the pool's minimum score, a second call for the domain at that later (or
    the same) time returns the same proxy object and only evicts. No failure
    may be recorded on the proxy in between; successes recorded on it up to
    the second call, outcomes recorded on other proxies, additions to the pool
    and [get_next] calls for other domains may all happen. *)
Theorem get_next_sticky_repeat (st : store) (pool : ProxyPool) (d : string)
    (now : Q) (r : ref) (pool' : ProxyPool) (ops : list pool_op) (now' : Q) :
  d <> EmptyString ->
  get_next st pool (Some d) true now = (Some r, pool') ->
  counters_nonneg (st r) ->
  now <= now' ->
  min_score pool <= score (st r) now' ->
  forallb (spares r d now') ops = true ->
  get_next (fst (run (st, pool') ops)) (snd (run (st, pool') ops))
    (Some d) true now'
  = (Some r, _evict_bad (fst (run (st, pool') ops))
               (snd (run (st, pool') ops)) now').
Proof.
  intros Hd Hfirst Hcnt Hnow Hscore Hops.
  assert (Hinit : _sticky_map pool' !! d = Some r
                  /\ min_score pool' = min_score pool
                  /\ is_available (st r) now = true).
  { assert (Hrot : forall pe,
               min_score pe = min_score pool ->
               rotate st pe (Some d) now = (Some r, pool') ->
               _sticky_map pool' !! d = Some r
               /\ min_score pool' = min_score pool
               /\ is_available (st r) now = true).
    { intros pe Hpe Hr.
      apply rotate_chosen in Hr as (Hc & _ & Hmin & _ & _ & Hst).
      apply candidates_spec in Hc as [_ Hav].
      rewrite Hst, lookup_insert_eq. split; [reflexivity|].
      split; [congruence | exact Hav]. }
    unfold get_next in Hfirst. rewrite (sticky_key_nonempty d Hd) in Hfirst.
    simpl in Hfirst.
    destruct (_sticky_map pool !! d) as [s|] eqn:Hs.
    - destruct (healthy (_evict_bad st pool now) (st s) now) eqn:Hh.
      + injection Hfirst as <- <-. simpl. split; [exact Hs|].
        split; [reflexivity|].
        unfold healthy in Hh. by apply andb_true_iff in Hh as [Hh _].
      + by apply (Hrot (_evict_bad st pool now)).
    - by apply (Hrot (_evict_bad st pool now)). }
  destruct Hinit as (Hst & Hmin & Hav).
  pose proof (run_spares r d now' ops (st, pool') Hops)
    as (R1 & R2 & R3 & R4 & R5 & R6).
  simpl in R1, R2, R3, R4, R5, R6.
  set (w := run (st, pool') ops) in *.
  assert (Hcool : cooldown_until (fst w r) <= now').
  { apply R6. unfold is_available in Hav. apply Qle_bool_iff in Hav. lra. }
  assert (Hsc : min_score (snd w) <= score (fst w r) now').
  { rewrite R2, Hmin.
    pose proof (score_more_successes (st r) (fst w r) now' Hcnt R3 R4 R5). lra. }
  unfold get_next. rewrite (sticky_key_nonempty d Hd). simpl.
  rewrite R1, Hst. unfold healthy, is_available. simpl.
  apply Qle_bool_iff in Hcool, Hsc. by rewrite Hcool, Hsc.
Qed.

(** Proxy 1 is the choice for "a.com" at time 10 among three proxies; after
    [busy_history] the call at time 20 returns it again, where a call without
    affinity moves on to proxy 0. *)
Lemma get_next_sticky_repeat_witness :
  let first := get_next fresh_store three_proxy_pool (Some "a.com"%string) true 10 in
  let w := run (fresh_store, snd first) busy_history in
  fst first = Some 1%nat
  /\ get_next (fst w) (snd w) (Some "a.com"%string) true 20
     = (Some 1%nat, _evict_bad (fst w) (snd w) 20)
  /\ fst (get_next (fst w) (snd w) (Some "a.com"%string) false 20) = Some 0%nat.
Proof.
  split; [vm_compute; reflexivity|]. split.
  - apply (get_next_sticky_repeat fresh_store three_proxy_pool "a.com"%string
             10 1%nat
             (snd (get_next fresh_store three_proxy_pool
                     (Some "a.com"%string) true 10))
             busy_history 20).
    + discriminate.
    + vm_compute. reflexivity.
    + unfold counters_nonneg. simpl. lia.
    + unfold Qle. simpl. lia.
    + unfold Qle. vm_compute. discriminate.
    + vm_compute. reflexivity.
  - vm_compute. reflexivity.
Defined.

(** ** Provider adapter *)

Section AdapterFacts.

Variable int_of_str : string -> option Z.

Lemma proxy_of_item_well_formed item now :
  well_formed item = true ->
  exists p, proxy_of_item int_of_str item now = Ok p /\ entity_of item now p.
Proof.
  unfold well_formed, proxy_of_item, getitem, entity_of, dict_get, optional_str.
  destruct (item !! "ip"%string) as [[| | | |a|]|]; try discriminate.
  destruct (item !! "port"%string) as [[| |n| | |]|]; try discriminate.
  simpl.
  destruct (item !! "protocol"%string) as [[| | | |s|]|]; try discriminate;
    simpl; intros H; eexists; (split; [reflexivity|]); simpl;
    repeat split; try reflexivity.
  apply andb_true_iff in H as [H _]. apply andb_true_iff in H as [H _].
  apply orb_true_iff in H as [H|H]; apply String.eqb_eq in H; by subst.
Qed.

Lemma proxy_of_item_missing item now :
  missing_address_or_port item = true ->
  proxy_of_item int_of_str item now = Raise KeyError.
Proof.
  unfold missing_address_or_port, proxy_of_item, getitem.
  destruct (item !! "ip"%string); [|reflexivity].
  destruct (item !! "port"%string); [discriminate | reflexivity].
Qed.

(** The records that the adapter converts: address present, port present and
    accepted by [int], protocol absent or a string. *)
Lemma proxy_of_item_ok_iff item now :
  (exists p, proxy_of_item int_of_str item now = Ok p) <->
  (exists h v n,
      item !! "ip"%string = Some h /\ item !! "port"%string = Some v
      /\ py_int int_of_str v = Ok n
      /\ (item !! "protocol"%string = None
          \/ exists s, item !! "protocol"%string = Some (PyStr s))).
Proof.
  unfold proxy_of_item, getitem, dict_get, Proxy_init. split.
  - intros [p Hp].
    destruct (item !! "ip"%string) as [h|]; [|discriminate].
    destruct (item !! "port"%string) as [v|]; [|discriminate].
    destruct (py_int int_of_str v) as [n|e] eqn:En; [|discriminate].
    exists h, v, n. split; [reflexivity|]. split; [reflexivity|].
    split; [exact En|].
    destruct (item !! "protocol"%string) as [[| | | |s|]|];
      try discriminate; eauto.
  - intros (h & v & n & -> & -> & -> & [-> | [s ->]]); eauto.
Qed.

Lemma well_formed_not_missing item :
  well_formed item = true -> missing_address_or_port item = false.
Proof.
  unfold well_formed, missing_address_or_port.
  destruct (item !! "ip"%string) as [[| | | |a|]|]; try discriminate.
  by destruct (item !! "port"%string) as [[| |n| | |]|].
Qed.

(** The records that are converted are the accepted ones. *)
Lemma proxy_of_item_accepted item now :
  accepted int_of_str item = true <->
  exists p, proxy_of_item int_of_str item now = Ok p.
Proof.
  unfold accepted, proxy_of_item, getitem, dict_get, Proxy_init.
  destruct (item !! "ip"%string) as [h|];
    [|split; [discriminate | by intros [? ?]]].
  destruct (item !! "port"%string) as [v|];
    [|split; [discriminate | by intros [? ?]]].
  destruct (py_int int_of_str v) as [n|e];
    [|split; [discriminate | by intros [? ?]]].
  destruct (item !! "protocol"%string) as [[| | | |s|]|];
    split; try discriminate; try (by intros [? ?]); eauto.
Qed.

Lemma well_formed_accepted item :
  well_formed item = true -> accepted int_of_str item = true.
Proof.
  intros H. apply (proxy_of_item_accepted item 0).
  destruct (proxy_of_item_well_formed item 0 H) as (p & Hp & _). eauto.
Qed.

Lemma missing_not_accepted item :
  missing_address_or_port item = true -> accepted int_of_str item = false.
Proof.
  unfold missing_address_or_port, accepted.
  destruct (item !! "ip"%string); [|reflexivity].
  destruct (item !! "port"%string); [discriminate | reflexivity].
Qed.

Lemma integrate_length_accepted api_result now :
  length (integrate_provider_proxies int_of_str api_result now)
  = length (List.filter (accepted int_of_str) api_result).
Proof.
  induction api_result as [|item rest IH]; [reflexivity|]. simpl.
  destruct (accepted int_of_str item) eqn:Ha.
  - apply (proxy_of_item_accepted item now) in Ha as [p ->]. simpl. by rewrite IH.
  - destruct (proxy_of_item int_of_str item now) as [p|e] eqn:Hp; [|exact IH].
    assert (accepted int_of_str item = true)
      by (apply (proxy_of_item_accepted item now); eauto).
    congruence.
Qed.

(** Of two selections of a list, one within the other, the smaller has as many
    elements as the larger exactly when the larger selects nothing more. *)
Lemma filter_length_within {A} (f g : A -> bool) (l : list A) :
  (forall x, f x = true -> g x = true) ->
  (length (List.filter f l) <= length (List.filter g l))%nat
  /\ (length (List.filter g l) = length (List.filter f l)
      <-> Forall (fun x => g x = true -> f x = true) l).
Proof.
  intros Hfg. induction l as [|x l [IHle IHeq]].
  - split; [reflexivity|]. split; [constructor | reflexivity].
  - simpl. destruct (f x) eqn:Hf.
    + rewrite (Hfg x Hf). simpl. split; [lia|]. split.
      * intros E. constructor; [done|]. apply IHeq. lia.
      * intros H. apply Forall_cons_1 in H as [_ H].
        apply IHeq in H. lia.
    + destruct (g x) eqn:Hg; simpl.
      * split; [lia|]. split; [lia|].
        intros H. apply Forall_cons_1 in H as [H _].
        specialize (H Hg). congruence.
      * split; [exact IHle|]. split.
        -- intros E. constructor; [congruence|]. by apply IHeq.
        -- intros H. apply Forall_cons_1 in H as [_ H]. by apply IHeq.
Qed.

(** C5 as stated does not hold: a record with an address and the float port
    [8080.5] neither follows the schema nor misses a field, and the adapter
    converts it ([int] truncates the port to 8080, whatever [int] does on
    strings), so the output has one Proxy where the batch has no well-formed
    record. *)
Lemma integrate_converts_malformed_port :
  List.map port (integrate_provider_proxies (fun _ => None) [record_float_port] 0)
  = [8080%Z]
  /\ List.filter well_formed [record_float_port] = []
  /\ missing_address_or_port record_float_port = false.
Proof. vm_compute. repeat split; reflexivity. Qed.

(** C5, amended: the adapter goes through the whole batch in order and each
    record gives at most one Proxy. A record that follows the schema gives
    exactly the Proxy it stands for, a record without address or port gives
    none, and in general a record gives a Proxy exactly when it is accepted:
    address and port present, a port that [int] converts, a protocol that is
    absent or a string. So the output has one Proxy per accepted record, which
    is at least one per well-formed record; it has exactly one per
    well-formed record if and only if every accepted record of the batch is
    well-formed, and in particular on a batch in which every record is
    well-formed or misses the address or the port. *)
Theorem integrate_provider_proxies_spec
    (api_result : list (gmap string pyval)) (now : Q) :
  (exists outs : list (list Proxy),
      integrate_provider_proxies int_of_str api_result now = concat outs
      /\ Forall2 (fun item out =>
           (length out <= 1)%nat
           /\ (well_formed item = true ->
                 exists p, out = [p] /\ entity_of item now p)
           /\ (missing_address_or_port item = true -> out = [])
           /\ (accepted int_of_str item = true <-> exists p, out = [p]))
           api_result outs)
  /\ length (integrate_provider_proxies int_of_str api_result now)
     = length (List.filter (accepted int_of_str) api_result)
  /\ (length (List.filter well_formed api_result)
      <= length (integrate_provider_proxies int_of_str api_result now))%nat
  /\ (length (integrate_provider_proxies int_of_str api_result now)
      = length (List.filter well_formed api_result)
      <-> Forall (fun item => accepted int_of_str item = true ->
                              well_formed item = true) api_result)
  /\ (Forall (fun item => well_formed item = true
                          \/ missing_address_or_port item = true) api_result ->
      length (integrate_provider_proxies int_of_str api_result now)
        = length (List.filter well_formed api_result)).
Proof.
  split.
  - induction api_result as [|item rest (outs & E & HF)].
    + exists []. split; [reflexivity | constructor].
    + simpl. destruct (proxy_of_item int_of_str item now) as [p|e] eqn:Hp.
      * exists ([p] :: outs). split; [simpl; by rewrite E|].
        constructor; [|exact HF]. split; [simpl; lia|]. split; [|split].
        -- intros Hwf.
           destruct (proxy_of_item_well_formed item now Hwf) as (p' & Hp' & He).
           exists p'. split; [congruence | exact He].
        -- intros Hm. rewrite (proxy_of_item_missing item now Hm) in Hp.
           discriminate.
        -- split; [eauto|]. intros _.
           apply (proxy_of_item_accepted item now). eauto.
      * exists ([] :: outs). split; [exact E|].
        constructor; [|exact HF]. split; [simpl; lia|]. split; [|split].
        -- intros Hwf.
           destruct (proxy_of_item_well_formed item now Hwf) as (p' & Hp' & _).
           congruence.
        -- reflexivity.
        -- split; [|by intros [? ?]]. intros Ha.
           apply (proxy_of_item_accepted item now) in Ha as [p' Hp'].
           congruence.
  - destruct (filter_length_within well_formed (accepted int_of_str) api_result
                well_formed_accepted) as [Hle Heq].
    rewrite integrate_length_accepted.
    split; [reflexivity|]. split; [exact Hle|]. split; [exact Heq|].
    intros HF. apply Heq.
    eapply Forall_impl; [|exact HF]. simpl.
    intros item [Hwf|Hm] Ha; [exact Hwf|].
    rewrite (missing_not_accepted item Hm) in Ha. discriminate.
Qed.

End AdapterFacts.

Lemma integrate_provider_proxies_spec_witness :
  length (integrate_provider_proxies (fun _ => None)
            [record_us; record_no_port; record_uk] 0)
  = length (List.filter well_formed [record_us; record_no_port; record_uk]).
Proof.
  apply (proj2 (proj2 (proj2 (proj2
           (integrate_provider_proxies_spec (fun _ => None)
              [record_us; record_no_port; record_uk] 0))))).
  apply Forall_cons; [left; vm_compute; reflexivity|].
  apply Forall_cons; [right; vm_compute; reflexivity|].
  apply Forall_cons; [left; vm_compute; reflexivity|].
  apply Forall_nil.
Defined.

(** ** Session: retry loop *)

Lemma get_next_result st pool domain sticky now x pool' :
  get_next st pool domain sticky now = (Some x, pool') ->
  (exists d, _sticky_map pool !! d = Some x) \/ In x (_proxies pool).
Proof.
  unfold get_next.
  assert (Hrot : rotate st (_evict_bad st pool now) (sticky_key domain sticky) now
                 = (Some x, pool') -> In x (_proxies pool)).
  { intros H. apply rotate_chosen in H as (Hc & _).
    apply candidates_spec in Hc as [Hc _].
    simpl in Hc. apply filter_In in Hc. tauto. }
  destruct (sticky_key domain sticky) as [d|]; simpl; [|auto].
  destruct (_sticky_map pool !! d) as [s|] eqn:Hs; [|auto].
  destruct (healthy _ _ _); [|auto].
  intros [= <- <-]. left. by exists d.
Qed.

Lemma get_next_only_proxy st pool domain sticky now r :
  only_proxy r pool ->
  (fst (get_next st pool domain sticky now) = None
   \/ fst (get_next st pool domain sticky now) = Some r)
  /\ only_proxy r (snd (get_next st pool domain sticky now)).
Proof.
  intros [Hl Hs]. split.
  - destruct (get_next st pool domain sticky now) as [[x|] pool'] eqn:E;
      [|by left].
    right. simpl. f_equal.
    apply get_next_result in E as [[d Hd]|Hin]; eauto.
  - split.
    + intros x Hx. destruct (get_next_proxies st pool domain sticky now) as [E _].
      rewrite E in Hx. simpl in Hx. apply filter_In in Hx as [Hx _]. auto.
    + intros d x Hx. apply get_next_sticky in Hx as [Hx|Hx]; [eauto|].
      destruct (get_next_proxies st pool domain sticky now) as [E _].
      rewrite E in Hx. simpl in Hx. apply filter_In in Hx as [Hx _]. auto.
Qed.

(** A pool that knows only [r] hands out nothing while [r] is cooling down. *)
Lemma get_next_none_when_unavailable st pool domain sticky now r :
  only_proxy r pool ->
  is_available (st r) now = false ->
  fst (get_next st pool domain sticky now) = None.
Proof.
  intros Hinv Hun.
  destruct (get_next st pool domain sticky now) as [[x|] pool'] eqn:E;
    [|reflexivity].
  exfalso.
  assert (Hx : x = r).
  { destruct (get_next_only_proxy st pool domain sticky now r Hinv) as [[H|H] _];
      rewrite E in H; simpl in H; congruence. }
  subst x. revert E. unfold get_next.
  assert (Hrot : forall key, rotate st (_evict_bad st pool now) key now
                             <> (Some r, pool')).
  { intros key H. apply rotate_chosen in H as (Hc & _).
    apply candidates_spec in Hc as [_ Hc]. congruence. }
  destruct (sticky_key domain sticky ≫= _) as [s|]; [|apply Hrot].
  destruct (healthy _ (st s) now) eqn:Hh; [|apply Hrot].
  intros [= -> _]. unfold healthy in Hh. rewrite Hun in Hh. discriminate.
Qed.

Lemma respect_rate_limit_pool self domain now :
  proxy_pool (_respect_rate_limit self domain now) = proxy_pool self
  /\ max_retries (_respect_rate_limit self domain now) = max_retries self.
Proof. unfold _respect_rate_limit. by destruct (String.eqb domain EmptyString). Qed.

(** One attempt over a pool that knows only [r], when the network call through
    [r] ends in a connection error: no response; either [r] was handed out and
    its failure recorded, or no proxy was available and nothing was recorded. *)
Lemma request_once_failing (s : state) (domain : string) (env : attempt_env) (r : ref) :
  only_proxy r (proxy_pool (sess s)) ->
  net env r = RaisedConnectionError ->
  exists proxy s',
    _request_once s domain env = ((None, proxy), s')
    /\ only_proxy r (proxy_pool (sess s'))
    /\ max_retries (sess s') = max_retries (sess s)
    /\ ((logged s' = logged s ++ [LogNetworkError r]
         /\ fail (heap s' r) = (fail (heap s r) + 1)%Z)
        \/ (logged s' = logged s ++ [LogNoProxies]
            /\ fail (heap s' r) = fail (heap s r))).
Proof.
  intros Hinv Hnet. unfold _request_once.
  destruct (respect_rate_limit_pool (sess s) domain (t_pace env)) as [Ep Em].
  rewrite <- Ep in Hinv.
  destruct (get_next_only_proxy (heap s) _ (Some domain) true (t_select env) r Hinv)
    as [Hres Hinv'].
  destruct (get_next (heap s) _ (Some domain) true (t_select env)) as [res pool'].
  simpl in *. destruct Hres as [->| ->].
  - eexists _, _. split; [reflexivity|]. simpl. auto.
  - rewrite Hnet. eexists _, _. split; [reflexivity|].
    cbn [heap sess logged proxy_pool max_retries set_pool mark_result].
    split; [assumption|]. split; [assumption|]. left. split; [reflexivity|].
    by rewrite store_lookup_insert.
Qed.

Lemma failed_attempts_app l1 l2 :
  failed_attempts (l1 ++ l2) = failed_attempts l1 ++ failed_attempts l2.
Proof. apply flat_map_app. Qed.

Lemma no_proxy_count_app l1 l2 :
  no_proxy_count (l1 ++ l2) = (no_proxy_count l1 + no_proxy_count l2)%Z.
Proof. unfold no_proxy_count. rewrite filter_app, length_app. lia. Qed.

(** The retry loop over such a pool: it runs all its iterations and returns no
    response; each iteration adds one to the fail counter of [r] unless it
    found no proxy. *)
Lemma request_loop_failing (domain : string) (envs : Z -> attempt_env) (r : ref)
    (Hnet : forall i, net (envs i) r = RaisedConnectionError) (n : nat) :
  forall (attempt : Z) (s : state),
    only_proxy r (proxy_pool (sess s)) ->
    exists s' msgs,
      request_loop n attempt s domain envs = (None, s')
      /\ logged s' = logged s ++ msgs
      /\ failed_attempts msgs = List.map (fun k => (attempt + Z.of_nat k)%Z) (seq 0 n)
      /\ (0 <= no_proxy_count msgs <= Z.of_nat n)%Z
      /\ fail (heap s' r) = (fail (heap s r) + Z.of_nat n - no_proxy_count msgs)%Z.
Proof.
  induction n as [|n IH]; intros attempt s Hinv.
  - exists (add_log s [LogAllFailed (max_retries (sess s))]), [LogAllFailed (max_retries (sess s))].
    replace (no_proxy_count [LogAllFailed (max_retries (sess s))]) with 0%Z
      by reflexivity.
    simpl. repeat split; try reflexivity; lia.
  - destruct (request_once_failing s domain (envs attempt) r Hinv (Hnet attempt))
      as (proxy & s1 & E1 & Hinv1 & _ & Hcase).
    simpl. rewrite E1.
    destruct (IH (attempt + 1)%Z (add_log s1 [LogAttemptFailed attempt]) Hinv1)
      as (s' & msgs & E & Hlog & Hfa & Hnp & Hfail).
    simpl in Hlog, Hfail.
    assert (Hseq : List.map (fun k => (attempt + 1 + Z.of_nat k)%Z) (seq 0 n)
                   = List.map (fun k => (attempt + Z.of_nat k)%Z) (seq 1 n)).
    { rewrite <- seq_shift, List.map_map. apply List.map_ext. intros k. lia. }
    destruct Hcase as [[Hl Hf]|[Hl Hf]]; rewrite Hl in Hlog.
    + exists s', ([LogNetworkError r] ++ [LogAttemptFailed attempt] ++ msgs).
      split; [exact E|]. split; [by rewrite Hlog, <- !app_assoc|].
      rewrite !failed_attempts_app, !no_proxy_count_app, Hfa, Hseq, Hfail, Hf.
      replace (no_proxy_count [LogNetworkError r]) with 0%Z by reflexivity.
      replace (no_proxy_count [LogAttemptFailed attempt]) with 0%Z by reflexivity.
      simpl failed_attempts. simpl seq. simpl List.map.
      rewrite Z.add_0_r. repeat split; try lia.
    + exists s', ([LogNoProxies] ++ [LogAttemptFailed attempt] ++ msgs).
      split; [exact E|]. split; [by rewrite Hlog, <- !app_assoc|].
      rewrite !failed_attempts_app, !no_proxy_count_app, Hfa, Hseq, Hfail, Hf.
      replace (no_proxy_count [LogNoProxies]) with 1%Z by reflexivity.
      replace (no_proxy_count [LogAttemptFailed attempt]) with 0%Z by reflexivity.
      simpl failed_attempts. simpl seq. simpl List.map.
      rewrite Z.add_0_r. repeat split; try lia.
Qed.

(** C1 as stated does not hold: each failure puts the proxy in cooldown for at
    least 20 seconds, so with attempts 5 seconds apart the second and third
    attempts find no available proxy and record nothing. The request returns
    no response after 3 attempts, and the fail counter has grown by 1. *)
Lemma request_cooldown_blocks_retries :
  max_retries (sess single_proxy_state) = 3%Z
  /\ _proxies (proxy_pool (sess single_proxy_state)) = [0%nat]
  /\ fst (request single_proxy_state "a.com" quick_failures) = None
  /\ failed_attempts
       (logged (snd (request single_proxy_state "a.com" quick_failures)))
     = [1; 2; 3]%Z
  /\ fail (heap (snd (request single_proxy_state "a.com" quick_failures)) 0%nat)
     = (fail (heap single_proxy_state 0%nat) + 1)%Z
  /\ fail (heap (snd (request single_proxy_state "a.com" quick_failures)) 0%nat)
     <> (fail (heap single_proxy_state 0%nat) + 3)%Z.
Proof. vm_compute. repeat split; congruence. Qed.

(** With attempts 50 seconds apart every attempt gets the proxy, and the fail
    counter grows by 3. *)
Example request_spaced_retries :
  fst (request single_proxy_state "a.com" slow_failures) = None
  /\ logged (snd (request single_proxy_state "a.com" slow_failures))
     = [LogNetworkError 0%nat; LogAttemptFailed 1;
        LogNetworkError 0%nat; LogAttemptFailed 2;
        LogNetworkError 0%nat; LogAttemptFailed 3; LogAllFailed 3]
  /\ fail (heap (snd (request single_proxy_state "a.com" slow_failures)) 0%nat) = 3%Z.
Proof. vm_compute. repeat split; reflexivity. Qed.

(** C1, amended: with [max_retries_per_request=3], over a pool whose only
    proxy always yields connection errors, [request] returns no response after
    exactly 3 attempts, and the fail counter of the proxy grows by one for each
    attempt that obtained the proxy: by 3 minus the number of attempts that
    found no proxy available. *)
Theorem request_single_failing_proxy (s : state) (domain : string)
    (envs : Z -> attempt_env) (r : ref) :
  max_retries (sess s) = 3%Z ->
  _proxies (proxy_pool (sess s)) = [r] ->
  sticky_in_list (proxy_pool (sess s)) ->
  (forall i, net (envs i) r = RaisedConnectionError) ->
  exists s' msgs,
    request s domain envs = (None, s')
    /\ logged s' = logged s ++ msgs
    /\ failed_attempts msgs = [1; 2; 3]%Z
    /\ (0 <= no_proxy_count msgs <= 3)%Z
    /\ fail (heap s' r) = (fail (heap s r) + 3 - no_proxy_count msgs)%Z.
Proof.
  intros Hmax Hlist Hsticky Hnet.
  assert (Hinv : only_proxy r (proxy_pool (sess s))).
  { split.
    - intros x Hx. rewrite Hlist in Hx. destruct Hx as [<-|[]]. reflexivity.
    - intros d x Hx. apply Hsticky in Hx. rewrite Hlist in Hx.
      destruct Hx as [<-|[]]. reflexivity. }
  unfold request. rewrite Hmax.
  exact (request_loop_failing domain envs r Hnet 3 1%Z s Hinv).
Qed.

Lemma request_single_failing_proxy_witness :
  exists s' msgs,
    request single_proxy_state "a.com" quick_failures = (None, s')
    /\ logged s' = logged single_proxy_state ++ msgs
    /\ failed_attempts msgs = [1; 2; 3]%Z
    /\ (0 <= no_proxy_count msgs <= 3)%Z
    /\ fail (heap s' 0%nat)
       = (fail (heap single_proxy_state 0%nat) + 3 - no_proxy_count msgs)%Z.
Proof.
  apply (request_single_failing_proxy single_proxy_state "a.com" quick_failures 0%nat).
  - reflexivity.
  - reflexivity.
  - intros d x H. vm_compute in H. discriminate H.
  - intros i. reflexivity.
Defined.

(** ** Session: construction *)

(** C6 as stated does not hold: the constructor accepts a negative retry
    count and stores it. *)
Lemma negative_retries_constructs :
  StealthSession_init default_pool 15 (-1) (1, 4)
  = Ok (mkSession default_pool 15 (-1) (1, 4) ∅).
Proof. reflexivity. Qed.

(** C6, amended: construction never fails; a negative retry count is stored
    as given, and [request] on such a session makes no attempt and returns no
    response, leaving proxies and session untouched. *)
Theorem negative_retries_accepted (pool : ProxyPool) (base_timeout retries : Z)
    (delay : Q * Q) (st : store) (domain : string) (envs : Z -> attempt_env) :
  (retries < 0)%Z ->
  exists self,
    StealthSession_init pool base_timeout retries delay = Ok self
    /\ max_retries self = retries
    /\ request (mkState st self []) domain envs
       = (None, mkState st self [LogAllFailed retries]).
Proof.
  intros Hneg. eexists. split; [reflexivity|]. split; [reflexivity|].
  unfold request. simpl.
  destruct retries as [|p|p]; try lia. reflexivity.
Qed.

Lemma negative_retries_accepted_witness :
  exists self,
    StealthSession_init default_pool 15 (-1) (1, 4) = Ok self
    /\ max_retries self = (-1)%Z
    /\ request (mkState fresh_store self []) "a.com" quick_failures
       = (None, mkState fresh_store self [LogAllFailed (-1)]).
Proof.
  apply (negative_retries_accepted default_pool 15 (-1) (1, 4) fresh_store
           "a.com" quick_failures).
  lia.
Defined.

(** ** Pool: growth *)

Lemma add_proxy_full pool p :
  (max_size pool <= Z.of_nat (length (_proxies pool)))%Z -> add_proxy pool p = pool.
Proof.
  intros H. unfold add_proxy.
  destruct (Z.ltb_spec (Z.of_nat (length (_proxies pool))) (max_size pool));
    [lia | reflexivity].
Qed.

Lemma fold_add_proxy_full ps : forall pool,
  (max_size pool <= Z.of_nat (length (_proxies pool)))%Z ->
  fold_left add_proxy ps pool = pool.
Proof.
  induction ps as [|p ps IH]; intros pool H; simpl; [reflexivity|].
  rewrite (add_proxy_full pool p H). by apply IH.
Qed.

(** X1: [bulk_add] does what calling [add_proxy] on each entry in turn does:
    stopping at the first entry that finds the pool full loses nothing, since
    [add_proxy] ignores every entry offered to a full pool. *)
Theorem bulk_add_is_repeated_add_proxy (pool : ProxyPool) (proxies : list ref) :
  bulk_add pool proxies = fold_left add_proxy proxies pool.
Proof.
  revert pool. induction proxies as [|p ps IH]; intros pool; simpl; [reflexivity|].
  destruct (Z.leb_spec (max_size pool) (Z.of_nat (length (_proxies pool)))) as [H|H].
  - rewrite (add_proxy_full pool p H). symmetry. by apply fold_add_proxy_full.
  - rewrite IH. f_equal. unfold add_proxy.
    destruct (Z.ltb_spec (Z.of_nat (length (_proxies pool))) (max_size pool));
      [reflexivity | lia].
Qed.

Lemma bulk_add_firstn (pool : ProxyPool) (proxies : list ref) :
  bulk_add pool proxies =
  set_proxies pool
    (_proxies pool ++
     firstn (Z.to_nat (max_size pool - Z.of_nat (length (_proxies pool)))) proxies).
Proof.
  revert pool. induction proxies as [|p ps IH]; intros pool; simpl.
  - rewrite firstn_nil, app_nil_r. by destruct pool.
  - destruct (Z.leb_spec (max_size pool) (Z.of_nat (length (_proxies pool)))) as [H|H].
    + replace (Z.to_nat _) with 0%nat by lia. simpl. rewrite app_nil_r.
      by destruct pool.
    + rewrite IH. unfold set_proxies. simpl. rewrite length_app. simpl.
      replace (Z.to_nat (max_size pool - Z.of_nat (length (_proxies pool))))
        with (S (Z.to_nat (max_size pool
                           - Z.of_nat (length (_proxies pool) + 1)))) by lia.
      simpl. by rewrite <- app_assoc.
Qed.

(** X2: [bulk_add] appends, in order, as many of the offered entries as there
    are free places, and drops the rest; the sticky map, the cursor and the
    thresholds stay as they are. *)
Theorem bulk_add_appends_prefix (pool : ProxyPool) (proxies : list ref) :
  bulk_add pool proxies =
  set_proxies pool
    (_proxies pool ++
     firstn (Z.to_nat (max_size pool - Z.of_nat (length (_proxies pool)))) proxies).
Proof. apply bulk_add_firstn. Qed.

(** ** Pool: selection *)

(** X3: [get_next] never hands out a proxy that is in cooldown. *)
Theorem get_next_returns_available (st : store) (pool : ProxyPool)
    (domain : option string) (enable_sticky : bool) (now : Q) (r : ref)
    (pool' : ProxyPool) :
  get_next st pool domain enable_sticky now = (Some r, pool') ->
  is_available (st r) now = true.
Proof.
  unfold get_next.
  assert (Hrot : rotate st (_evict_bad st pool now)
                   (sticky_key domain enable_sticky) now = (Some r, pool') ->
                 is_available (st r) now = true).
  { intros H. apply rotate_chosen in H as (Hc & _).
    by apply candidates_spec in Hc as [_ Hc]. }
  destruct (sticky_key domain enable_sticky ≫= _) as [s|]; [|exact Hrot].
  destruct (healthy _ (st s) now) eqn:Hh; [|exact Hrot].
  intros [= <- _]. unfold healthy in Hh. by apply andb_true_iff in Hh as [Hh _].
Qed.

Lemma get_next_returns_available_witness :
  is_available (fresh_store 0%nat) 10 = true.
Proof.
  apply (get_next_returns_available fresh_store (add_proxy default_pool 0%nat)
           (Some "a.com"%string) true 10 0%nat
           (snd (get_next fresh_store (add_proxy default_pool 0%nat)
                   (Some "a.com"%string) true 10))).
  vm_compute. reflexivity.
Defined.

Lemma candidates_nonempty st pool now r :
  In r (_proxies pool) -> is_available (st r) now = true ->
  candidates st pool now <> [].
Proof.
  intros Hin Hav. unfold candidates.
  destruct (List.filter (fun p => healthy pool (st p) now) (_proxies pool));
    [|discriminate].
  intros E.
  assert (H : In r (List.filter (fun p => is_available (st p) now) (_proxies pool)))
    by (apply filter_In; auto).
  rewrite E in H. destruct H.
Qed.

Lemma rotate_some st pool key now :
  candidates st pool now <> [] ->
  exists x pool', rotate st pool key now = (Some x, pool').
Proof.
  unfold rotate. destruct (candidates st pool now); [done|]. eauto.
Qed.

Lemma get_next_some (st : store) (pool : ProxyPool)
    (domain : option string) (enable_sticky : bool) (now : Q) (r : ref) :
  In r (_proxies pool) ->
  keeps pool (st r) now = true ->
  is_available (st r) now = true ->
  exists x, fst (get_next st pool domain enable_sticky now) = Some x.
Proof.
  intros Hin Hk Hav.
  assert (Hne : candidates st (_evict_bad st pool now) now <> []).
  { apply (candidates_nonempty _ _ _ r); [|exact Hav].
    simpl. apply filter_In. auto. }
  unfold get_next.
  destruct (rotate_some st (_evict_bad st pool now)
              (sticky_key domain enable_sticky) now Hne) as (x & pool' & E).
  destruct (sticky_key domain enable_sticky ≫= _) as [s|];
    [destruct (healthy _ (st s) now)|]; rewrite ?E; simpl; eauto.
Qed.

(** X4: [get_next] returns a proxy whenever some proxy of the list survives
    eviction and is out of cooldown, whatever the scores are: a pool without
    any proxy of sufficient score degrades to the available ones. *)
Theorem get_next_finds_available (st : store) (pool : ProxyPool)
    (domain : option string) (enable_sticky : bool) (now : Q) (r : ref) :
  In r (_proxies pool) ->
  keeps pool (st r) now = true ->
  is_available (st r) now = true ->
  exists x, fst (get_next st pool domain enable_sticky now) = Some x.
Proof. apply get_next_some. Qed.

Lemma get_next_finds_available_witness :
  exists x, fst (get_next (fun _ => cooling) (add_proxy default_pool 0%nat)
                   None true 50) = Some x.
Proof.
  apply (get_next_finds_available (fun _ => cooling) (add_proxy default_pool 0%nat)
           None true 50 0%nat).
  - simpl. left. reflexivity.
  - vm_compute. reflexivity.
  - vm_compute. reflexivity.
Defined.

Lemma candidates_healthy st pool now r x :
  In r (_proxies pool) -> healthy pool (st r) now = true ->
  In x (candidates st pool now) -> healthy pool (st x) now = true.
Proof.
  intros Hin Hh. unfold candidates.
  destruct (List.filter (fun p => healthy pool (st p) now) (_proxies pool))
    as [|c cs] eqn:E.
  - assert (H : In r (List.filter (fun p => healthy pool (st p) now) (_proxies pool)))
      by (apply filter_In; auto).
    rewrite E in H. destruct H.
  - rewrite <- E. intros H. by apply filter_In in H as [_ H].
Qed.

(** X5: as long as some proxy of the list survives eviction, is out of
    cooldown and meets the minimum score, the proxy that [get_next] returns
    meets the minimum score too: the low-score fallback is used only when no
    such proxy is left. *)
Theorem get_next_prefers_min_score (st : store) (pool : ProxyPool)
    (domain : option string) (enable_sticky : bool) (now : Q) (r x : ref)
    (pool' : ProxyPool) :
  In r (_proxies pool) ->
  keeps pool (st r) now = true ->
  healthy pool (st r) now = true ->
  get_next st pool domain enable_sticky now = (Some x, pool') ->
  min_score pool <= score (st x) now.
Proof.
  intros Hin Hk Hh. unfold get_next.
  assert (Hrot : rotate st (_evict_bad st pool now)
                   (sticky_key domain enable_sticky) now = (Some x, pool') ->
                 min_score pool <= score (st x) now).
  { intros H. apply rotate_chosen in H as (Hc & _).
    apply (candidates_healthy _ _ _ r) in Hc.
    - unfold healthy in Hc. apply andb_true_iff in Hc as [_ Hc].
      by apply Qle_bool_iff in Hc.
    - simpl. apply filter_In. auto.
    - exact Hh. }
  destruct (sticky_key domain enable_sticky ≫= _) as [s|]; [|exact Hrot].
  destruct (healthy _ (st s) now) eqn:Hs; [|exact Hrot].
  intros [= <- _]. unfold healthy in Hs. apply andb_true_iff in Hs as [_ Hs].
  by apply Qle_bool_iff in Hs.
Qed.

Lemma get_next_prefers_min_score_witness :
  min_score (add_proxy default_pool 0%nat) <= score (fresh_store 0%nat) 10.
Proof.
  apply (get_next_prefers_min_score fresh_store (add_proxy default_pool 0%nat)
           (Some "a.com"%string) true 10 0%nat 0%nat
           (snd (get_next fresh_store (add_proxy default_pool 0%nat)
                   (Some "a.com"%string) true 10))).
  - simpl. left. reflexivity.
  - vm_compute. reflexivity.
  - vm_compute. reflexivity.
  - vm_compute. reflexivity.
Defined.

(** ** Pool: the sticky map after a call *)

(** X6: when [get_next] returns a proxy for a non-empty domain with sticky
    sessions enabled, that proxy is the sticky choice of the domain afterwards,
    and the sticky choices of all other domains are as before. *)
Theorem get_next_records_sticky (st : store) (pool : ProxyPool) (d : string)
    (now : Q) (r : ref) (pool' : ProxyPool) :
  d <> EmptyString ->
  get_next st pool (Some d) true now = (Some r, pool') ->
  _sticky_map pool' !! d = Some r
  /\ (forall d', d' <> d -> _sticky_map pool' !! d' = _sticky_map pool !! d').
Proof.
  intros Hd. unfold get_next. rewrite (sticky_key_nonempty d Hd). simpl.
  assert (Hrot : rotate st (_evict_bad st pool now) (Some d) now = (Some r, pool') ->
                 _sticky_map pool' !! d = Some r
                 /\ (forall d', d' <> d ->
                       _sticky_map pool' !! d' = _sticky_map pool !! d')).
  { intros H. apply rotate_chosen in H as (_ & _ & _ & _ & _ & ->). simpl.
    split; [apply lookup_insert_eq|].
    intros d' Hne. by rewrite lookup_insert_ne. }
  destruct (_sticky_map pool !! d) as [s|] eqn:Hs; [|exact Hrot].
  destruct (healthy _ (st s) now); [|exact Hrot].
  intros [= <- <-]. simpl. auto.
Qed.

Lemma get_next_records_sticky_witness :
  _sticky_map (snd (get_next fresh_store (add_proxy default_pool 0%nat)
                      (Some "a.com"%string) true 10)) !! "a.com"%string
  = Some 0%nat.
Proof.
  apply (get_next_records_sticky fresh_store (add_proxy default_pool 0%nat)
           "a.com"%string 10 0%nat
           (snd (get_next fresh_store (add_proxy default_pool 0%nat)
                   (Some "a.com"%string) true 10))).
  - discriminate.
  - vm_compute. reflexivity.
Defined.

(** Without sticky sessions, without a domain or with an empty domain,
    [get_next] neither reads nor writes the sticky map: the map is unchanged
    and the proxy returned is the one returned for any other sticky map. *)
Theorem get_next_ignores_sticky (st : store) (pool : ProxyPool)
    (domain : option string) (enable_sticky : bool) (now : Q)
    (other : gmap string ref) :
  enable_sticky = false \/ domain = None \/ domain = Some EmptyString ->
  _sticky_map (snd (get_next st pool domain enable_sticky now)) = _sticky_map pool
  /\ fst (get_next st pool domain enable_sticky now)
     = fst (get_next st
              {| _proxies := _proxies pool; max_size := max_size pool;
                 min_score := min_score pool;
                 eviction_threshold := eviction_threshold pool;
                 _cursor := _cursor pool; _sticky_map := other |}
              domain enable_sticky now).
Proof.
  intros H.
  assert (Hk : sticky_key domain enable_sticky = None).
  { unfold sticky_key. destruct H as [->|[->| ->]]; simpl.
    - by destruct domain.
    - reflexivity.
    - by rewrite andb_false_r. }
  unfold get_next. rewrite Hk. simpl.
  unfold rotate, candidates, _evict_bad, set_proxies, keeps, healthy. simpl.
  destruct (List.filter _ (List.filter _ (_proxies pool))) as [|c cs];
    [destruct (List.filter _ (List.filter _ (_proxies pool))) as [|c cs]|];
    simpl; auto.
Qed.

Lemma get_next_ignores_sticky_witness :
  _sticky_map (snd (get_next fresh_store (add_proxy default_pool 0%nat)
                      None true 10))
  = _sticky_map (add_proxy default_pool 0%nat).
Proof.
  apply (get_next_ignores_sticky fresh_store (add_proxy default_pool 0%nat)
           None true 10 ∅).
  right. left. reflexivity.
Defined.

(** ** Histories: what never changes *)

Lemma same_identity_refl p : same_identity p p.
Proof. unfold same_identity. repeat split; lia. Qed.

Lemma same_identity_trans p q r :
  same_identity p q -> same_identity q r -> same_identity p r.
Proof.
  unfold same_identity.
  intros (?&?&?&?&?&?&?&?) (?&?&?&?&?&?&?&?).
  repeat split; try congruence; lia.
Qed.

Lemma mark_result_identity st proxy ok soft now r :
  same_identity (st r) (mark_result st proxy ok soft now r).
Proof.
  destruct proxy as [r0|]; simpl; [|apply same_identity_refl].
  destruct (decide (r0 = r)) as [->|Hne].
  - destruct ok; rewrite store_lookup_insert; unfold same_identity; simpl;
      repeat split; lia.
  - destruct ok; rewrite store_lookup_insert_ne by done; apply same_identity_refl.
Qed.

(** X8: whatever operations are applied to a pool, every proxy object keeps
    its host, port, protocol, country, source and creation time, and its
    success and fail counters never decrease. *)
Theorem history_keeps_identity (w : store * ProxyPool) (ops : list pool_op) (r : ref) :
  host (fst (run w ops) r) = host (fst w r)
  /\ port (fst (run w ops) r) = port (fst w r)
  /\ proto (fst (run w ops) r) = proto (fst w r)
  /\ country (fst (run w ops) r) = country (fst w r)
  /\ source (fst (run w ops) r) = source (fst w r)
  /\ created_at (fst (run w ops) r) = created_at (fst w r)
  /\ (success (fst w r) <= success (fst (run w ops) r))%Z
  /\ (fail (fst w r) <= fail (fst (run w ops) r))%Z.
Proof.
  change (same_identity (fst w r) (fst (run w ops) r)).
  induction ops as [|o ops IH] using rev_ind; [apply same_identity_refl|].
  rewrite run_snoc. eapply same_identity_trans; [exact IH|].
  destruct (run w ops) as [st pool]. destruct o; simpl;
    try apply same_identity_refl.
  apply mark_result_identity.
Qed.

Lemma step_proxies w o r :
  In r (_proxies (snd (step w o))) ->
  In r (_proxies (snd w)) \/ In r (offered [o]).
Proof.
  destruct w as [st pool]. destruct o; simpl.
  - unfold add_proxy. destruct (_ <? _)%Z; simpl; [|auto].
    rewrite in_app_iff. simpl. tauto.
  - rewrite bulk_add_firstn. simpl. rewrite in_app_iff, app_nil_r.
    intros [H|H]; [auto|]. right.
    rewrite <- (firstn_skipn (Z.to_nat (max_size pool
                                        - Z.of_nat (length (_proxies pool)))) proxies).
    apply in_or_app. by left.
  - destruct (get_next_proxies st pool domain enable_sticky now) as [-> _].
    simpl. intros H. apply filter_In in H. tauto.
  - auto.
Qed.

(** X9: a pool never lists a proxy it was not given: every proxy in the list
    was in the list at the start or was offered by an [add_proxy] or
    [bulk_add] of the history. *)
Theorem listed_proxies_were_offered (w : store * ProxyPool) (ops : list pool_op)
    (r : ref) :
  In r (_proxies (snd (run w ops))) ->
  In r (_proxies (snd w)) \/ In r (offered ops).
Proof.
  induction ops as [|o ops IH] using rev_ind; [simpl; auto|].
  rewrite run_snoc. intros H. apply step_proxies in H as [H|H].
  - destruct (IH H) as [H'|H']; [auto|].
    right. unfold offered. rewrite flat_map_app, in_app_iff. auto.
  - right. unfold offered in *. rewrite flat_map_app, in_app_iff. auto.
Qed.

Lemma listed_proxies_were_offered_witness :
  In 0%nat (_proxies (snd (fresh_store, default_pool)))
  \/ In 0%nat (offered [BulkAdd [0; 1]%nat; GetNext None true 5]).
Proof.
  apply (listed_proxies_were_offered (fresh_store, default_pool)
           [BulkAdd [0; 1]%nat; GetNext None true 5] 0%nat).
  vm_compute. left. reflexivity.
Defined.

(** No operation changes the capacity or the thresholds of a pool. *)
Theorem history_keeps_configuration (w : store * ProxyPool) (ops : list pool_op) :
  max_size (snd (run w ops)) = max_size (snd w)
  /\ min_score (snd (run w ops)) = min_score (snd w)
  /\ eviction_threshold (snd (run w ops)) = eviction_threshold (snd w).
Proof.
  induction ops as [|o ops (IH1 & IH2 & IH3)] using rev_ind; [auto|].
  rewrite run_snoc. rewrite <- IH1, <- IH2, <- IH3.
  destruct (run w ops) as [st pool]. destruct o; simpl; auto.
  - unfold add_proxy. destruct (_ <? _)%Z; auto.
  - rewrite bulk_add_firstn. auto.
  - unfold get_next.
    pose proof (rotate_proxies st (_evict_bad st pool now)
                  (sticky_key domain enable_sticky) now) as (_ & H1 & H2 & H3).
    destruct (sticky_key domain enable_sticky ≫= _) as [s|];
      [destruct (healthy _ _ _)|]; simpl; auto.
Qed.

(** ** Pool: round robin *)

Lemma get_next_evicted st pool domain sticky now :
  get_next st (_evict_bad st pool now) domain sticky now
  = get_next st pool domain sticky now.
Proof. unfold get_next. by rewrite evict_bad_idem. Qed.

(** One call without a domain on a settled pool. *)
Lemma get_next_settled st now c cs q :
  settled st now (c :: cs) q ->
  exists q',
    get_next st q None true now
    = (Some (nth (Z.to_nat ((_cursor q + 1) mod Z.of_nat (length (c :: cs))))
                 (c :: cs) c), q')
    /\ settled st now (c :: cs) q'
    /\ _cursor q' = ((_cursor q + 1) mod Z.of_nat (length (c :: cs)))%Z.
Proof.
  intros [He Hc]. unfold get_next. rewrite He. simpl.
  unfold rotate. rewrite Hc. eexists. split; [reflexivity|].
  split; [|reflexivity]. split.
  - unfold _evict_bad, set_proxies, keeps in *. simpl.
    destruct q; simpl in *. injection He as He. by rewrite He.
  - rewrite <- Hc. reflexivity.
Qed.

Lemma get_next_times_settled st now c cs : forall k q,
  settled st now (c :: cs) q ->
  fst (get_next_times k st q now)
  = List.map (fun i =>
      Some (nth (Z.to_nat ((_cursor q + 1 + Z.of_nat i)
                           mod Z.of_nat (length (c :: cs)))) (c :: cs) c))
      (seq 0 k).
Proof.
  induction k as [|k IH]; intros q Hq; [reflexivity|].
  destruct (get_next_settled st now c cs q Hq) as (q' & E & Hq' & Hcur).
  cbn [get_next_times]. rewrite E.
  specialize (IH q' Hq').
  destruct (get_next_times k st q' now) as [rs q'']. simpl in IH. subst rs.
  cbn [fst seq List.map]. rewrite Z.add_0_r. f_equal.
  rewrite <- seq_shift, List.map_map. apply List.map_ext. intros i.
  rewrite Hcur. do 3 f_equal.
  set (n := Z.of_nat (length (c :: cs))).
  assert (Hn : (n <> 0)%Z) by (subst n; simpl; lia).
  replace ((_cursor q + 1) mod n + 1 + Z.of_nat i)%Z
    with ((_cursor q + 1) mod n + (1 + Z.of_nat i))%Z by lia.
  rewrite Z.add_mod_idemp_l by exact Hn.
  replace (_cursor q + 1 + (1 + Z.of_nat i))%Z
    with (_cursor q + 1 + Z.of_nat (S i))%Z by lia.
  reflexivity.
Qed.

Lemma get_next_times_evicted st pool now k :
  fst (get_next_times k st (_evict_bad st pool now) now)
  = fst (get_next_times k st pool now).
Proof. destruct k; [reflexivity|]. simpl. by rewrite get_next_evicted. Qed.

Lemma rotation_permutation {A} (l : list A) (d : A) (a : Z) :
  l <> [] ->
  List.map (fun i => nth (Z.to_nat ((a + Z.of_nat i) mod Z.of_nat (length l))) l d)
    (seq 0 (length l))
  ≡ₚ l.
Proof.
  intros Hne.
  assert (Hlen : (0 < length l)%nat) by (destruct l; [done | simpl; lia]).
  set (b := Z.to_nat (a mod Z.of_nat (length l))).
  assert (E : List.map (fun i => nth (Z.to_nat ((a + Z.of_nat i)
                                    mod Z.of_nat (length l))) l d)
                (seq 0 (length l))
              = list.rotate b l).
  { apply list_eq. intros i.
    change (@List.map nat A) with (@fmap list _ nat A).
    rewrite list_lookup_fmap.
    destruct (decide (i < length l)%nat) as [Hi|Hi].
    - rewrite lookup_seq_lt by done. simpl.
      rewrite lookup_rotate_r by done.
      assert (Hidx : rotate_nat_add b i (length l)
                     = Z.to_nat ((a + Z.of_nat i) mod Z.of_nat (length l))).
      { unfold rotate_nat_add, b.
        rewrite Z2Nat.id by (apply Z.mod_pos_bound; lia).
        by rewrite Z.add_mod_idemp_l by lia. }
      rewrite Hidx.
      pose proof (Z.mod_pos_bound (a + Z.of_nat i) (Z.of_nat (length l)) ltac:(lia)).
      destruct (lookup_lt_is_Some_2 l
        (Z.to_nat ((a + Z.of_nat i) mod Z.of_nat (length l))) ltac:(lia)) as [x Hx].
      rewrite Hx. f_equal. by apply nth_lookup_Some.
    - rewrite lookup_seq_ge by lia. simpl. symmetry.
      apply lookup_ge_None. rewrite length_rotate. lia. }
  rewrite E. unfold list.rotate.
  rewrite Permutation_app_comm. by rewrite take_drop.
Qed.

(** X7: round robin is fair. When [get_next] is called without a domain as
    many times as there are candidates, at one instant and with no change to
    any proxy, every candidate is handed out exactly once. *)
Theorem get_next_round_robin (st : store) (pool : ProxyPool) (now : Q) :
  fst (get_next_times (length (candidates st (_evict_bad st pool now) now))
         st pool now)
  ≡ₚ List.map Some (candidates st (_evict_bad st pool now) now).
Proof.
  rewrite <- get_next_times_evicted.
  destruct (candidates st (_evict_bad st pool now) now) as [|c cs] eqn:Hc;
    [reflexivity|].
  rewrite (get_next_times_settled st now c cs).
  - rewrite <- (List.map_map
      (fun i => nth (Z.to_nat ((_cursor (_evict_bad st pool now) + 1 + Z.of_nat i)
                                mod Z.of_nat (length (c :: cs)))) (c :: cs) c) Some).
    change (@List.map ref (option ref) Some) with (@fmap list _ ref (option ref) Some).
    apply fmap_Permutation.
    apply (rotation_permutation (c :: cs) c
             (_cursor (_evict_bad st pool now) + 1)%Z).
    discriminate.
  - split; [apply evict_bad_idem | exact Hc].
Qed.

(** ** Proxy: penalties *)

(** X10: a failure never shortens the cooldown. The new cooldown ends at least
    one base penalty (20 s soft, 90 s hard) after the failure and, unless the
    old cooldown already ended later, at most three base penalties after it;
    the first two failures of a proxy get the single penalty, and from the
    sixth failure on the penalty is the triple one. *)
Theorem mark_fail_penalty (p : Proxy) (soft : bool) (now : Q) :
  (0 <= fail p)%Z ->
  let base := inject_Z (if soft then 20 else 90) in
  let after := cooldown_until (mark_fail p soft now) in
  cooldown_until p <= after
  /\ now + base <= after
  /\ (after <= cooldown_until p \/ after <= now + 3 * base)
  /\ ((fail p < 2)%Z -> after <= cooldown_until p \/ after == now + base)
  /\ ((5 <= fail p)%Z -> now + 3 * base <= after).
Proof.
  intros Hf base after. subst after. simpl.
  unfold MAX_PENALTY_MULTIPLIER, FAILURE_THRESHOLD.
  set (mult := pymin_int 3 (1 + (fail p + 1) / 3)).
  assert (Hpen : inject_Z ((if soft then SOFT_FAIL_PENALTY_SECONDS
                            else HARD_FAIL_PENALTY_SECONDS) * mult)
                 == base * inject_Z mult).
  { subst base. rewrite inject_Z_mult. by destruct soft. }
  assert (Hbase : 0 < base) by (subst base; destruct soft; reflexivity).
  pose proof (Z.div_pos (fail p + 1) 3 ltac:(lia) ltac:(lia)) as Hdiv.
  assert (Hm : (1 <= mult <= 3)%Z).
  { subst mult. destruct (pymin_int_case 3 (1 + (fail p + 1) / 3))
      as [[H1 ->]|[H1 ->]]; lia. }
  assert (Hm1 : 1 <= inject_Z mult <= 3).
  { split; [change 1 with (inject_Z 1) | change 3 with (inject_Z 3)];
      rewrite <- Zle_Qle; lia. }
  assert (Hlo : base <= base * inject_Z mult) by nra.
  assert (Hhi : base * inject_Z mult <= 3 * base) by nra.
  set (old := cooldown_until p) in *.
  set (pen := inject_Z ((if soft then SOFT_FAIL_PENALTY_SECONDS
                         else HARD_FAIL_PENALTY_SECONDS) * mult)) in *.
  destruct (pymax_case old (now + pen)) as [[H ->]|[H ->]].
  - split; [lra|]. split; [lra|]. split; [right; lra|]. split.
    + intros Hlt. right.
      assert (Hmult : mult = 1%Z).
      { subst mult. rewrite (Z.div_small (fail p + 1) 3) by lia. reflexivity. }
      rewrite Hmult in Hpen. rewrite Hpen.
      change (inject_Z 1) with 1. lra.
    + intros Hge.
      assert (Hmult : mult = 3%Z).
      { subst mult.
        assert (2 <= (fail p + 1) / 3)%Z by (apply Z.div_le_lower_bound; lia).
        destruct (pymin_int_case 3 (1 + (fail p + 1) / 3))
          as [[H1 ->]|[H1 ->]]; lia. }
      rewrite Hmult in Hpen. change (inject_Z 3) with 3 in Hpen. lra.
  - split; [lra|]. split; [lra|]. split; [left; lra|]. split.
    + intros _. left. lra.
    + intros Hge.
      assert (Hmult : mult = 3%Z).
      { subst mult.
        assert (2 <= (fail p + 1) / 3)%Z by (apply Z.div_le_lower_bound; lia).
        destruct (pymin_int_case 3 (1 + (fail p + 1) / 3))
          as [[H1 ->]|[H1 ->]]; lia. }
      rewrite Hmult in Hpen. change (inject_Z 3) with 3 in Hpen. lra.
Qed.

Lemma mark_fail_penalty_witness :
  cooldown_until cooling <= cooldown_until (mark_fail cooling false 100).
Proof.
  apply (mark_fail_penalty cooling false 100).
  simpl. lia.
Defined.

(** ** Proxy: how the score moves *)

(** X11: recording a success never lowers the score of a proxy and recording a
    failure never raises it, at whatever time the score is read. *)
Theorem score_follows_outcomes (p : Proxy) (soft : bool) (t now : Q) :
  counters_nonneg p ->
  score p now <= score (mark_success p t) now
  /\ score (mark_fail p soft t) now <= score p now.
Proof.
  intros Hp. unfold score.
  assert (Hd1 : score_decay (mark_success p t) now = score_decay p now)
    by reflexivity.
  assert (Hd2 : score_decay (mark_fail p soft t) now = score_decay p now)
    by reflexivity.
  rewrite Hd1, Hd2. split; apply clamp_monotone.
  - by apply score_base_success.
  - by apply score_base_fail.
Qed.

Lemma score_follows_outcomes_witness :
  score cooling 50 <= score (mark_success cooling 40) 50.
Proof.
  apply (score_follows_outcomes cooling true 40 50).
  unfold counters_nonneg. simpl. lia.
Defined.

Lemma score_decay_bounds (p : Proxy) (now : Q) :
  (1 # 72000) <= score_decay p now <= (2 # 10).
Proof.
  unfold score_decay, MAX_SCORE_DECAY, DECAY_HOURS_DIVISOR, SCORE_DECAY_RATE.
  pose proof (pymax_ge_l 1 (now - created_at p)) as Hage.
  set (age := pymax 1 (now - created_at p)) in *.
  assert (E : age / 3600 * (5 # 100) == age * (1 # 72000)) by (field; discriminate).
  destruct (pymin_case (2 # 10) (age / 3600 * (5 # 100))) as [[H ->]|[H ->]];
    rewrite ?E in *; lra.
Qed.

Lemma score_decay_monotone (p : Proxy) (t1 t2 : Q) :
  t1 <= t2 -> score_decay p t1 <= score_decay p t2.
Proof.
  intros Ht.
  unfold score_decay, MAX_SCORE_DECAY, DECAY_HOURS_DIVISOR, SCORE_DECAY_RATE.
  assert (Hage : pymax 1 (t1 - created_at p) <= pymax 1 (t2 - created_at p))
    by minmax_all.
  set (a1 := pymax 1 (t1 - created_at p)) in *.
  set (a2 := pymax 1 (t2 - created_at p)) in *.
  assert (E1 : a1 / 3600 * (5 # 100) == a1 * (1 # 72000)) by (field; discriminate).
  assert (E2 : a2 / 3600 * (5 # 100) == a2 * (1 # 72000)) by (field; discriminate).
  destruct (pymin_case (2 # 10) (a1 / 3600 * (5 # 100))) as [[H1 ->]|[H1 ->]];
    destruct (pymin_case (2 # 10) (a2 / 3600 * (5 # 100))) as [[H2 ->]|[H2 ->]];
    rewrite ?E1, ?E2 in *; lra.
Qed.

(** X12: the score of an untouched proxy only goes down with time, and age
    takes at most 0.2 off the success ratio. *)
Theorem score_decays_with_age (p : Proxy) (t1 t2 : Q) :
  counters_nonneg p ->
  t1 <= t2 ->
  score p t2 <= score p t1
  /\ score_base p - (2 # 10) <= score p t2.
Proof.
  intros Hp Ht. unfold score.
  pose proof (score_decay_monotone p t1 t2 Ht) as Hm.
  pose proof (score_decay_bounds p t2) as [_ Hb].
  pose proof (score_base_le_1 p Hp) as H1.
  split; minmax_all.
Qed.

Lemma score_decays_with_age_witness :
  score cooling 5000 <= score cooling 50.
Proof.
  apply (score_decays_with_age cooling 50 5000).
  - unfold counters_nonneg. simpl. lia.
  - unfold Qle. simpl. lia.
Defined.

(** X13: a proxy without history has a score between 0.3 and 0.5, whatever its
    age; a proxy with successes only has a score of at least 0.8. *)
Theorem score_by_history (p : Proxy) (now : Q) :
  (0 <= success p)%Z ->
  fail p = 0%Z ->
  (success p = 0%Z -> (3 # 10) <= score p now /\ score p now < (5 # 10))
  /\ ((0 < success p)%Z -> (8 # 10) <= score p now).
Proof.
  intros Hs Hf. unfold score.
  pose proof (score_decay_bounds p now) as [Hlo Hhi].
  split.
  - intros H0.
    assert (E : score_base p = 5 # 10).
    { unfold score_base. rewrite H0, Hf. reflexivity. }
    rewrite E. split; minmax_all.
  - intros Hpos.
    assert (E : score_base p == 1).
    { rewrite score_base_ratio by lia. rewrite Hf, Z.add_0_r.
      unfold Qeq. simpl. rewrite Z2Pos.id by lia. lia. }
    minmax_all.
Qed.

Lemma score_by_history_witness :
  (3 # 10) <= score (fresh 0) 100000 /\ score (fresh 0) 100000 < (5 # 10).
Proof.
  apply (proj1 (score_by_history (fresh 0) 100000 ltac:(simpl; lia) eq_refl)).
  reflexivity.
Defined.

(** ** Session: what one attempt does *)

(** The shape of the result of [_request_once]. *)
Lemma request_once_cases (s : state) (domain : string) (env : attempt_env) :
  let self := _respect_rate_limit (sess s) domain (t_pace env) in
  let sel := get_next (heap s) (proxy_pool self) (Some domain) true (t_select env) in
  match fst sel with
  | None =>
      _request_once s domain env
      = ((None, None),
         mkState (heap s) (set_pool self (snd sel)) (logged s ++ [LogNoProxies]))
  | Some p =>
      exists resp ok soft msgs,
        _request_once s domain env
        = ((resp, Some p),
           mkState (mark_result (heap s) (Some p) ok soft (t_mark env))
                   (set_pool self (snd sel)) (logged s ++ msgs))
        /\ (ok = true <-> is_Some resp)
        /\ (forall r, resp = Some r ->
              net env p = Responded r
              /\ (((200 <= status_code r < 300)%Z /\ _looks_blocked r = false)
                  \/ (300 <= status_code r < 400)%Z))
        /\ (net env p = RaisedRequestException -> ok = false /\ soft = false)
        /\ (ok = false -> net env p <> RaisedRequestException -> soft = true)
        /\ failed_attempts msgs = []
        /\ no_proxy_count msgs = 0%Z
  end.
Proof.
  intros self sel. unfold _request_once. fold self. fold sel.
  destruct sel as [[p|] pool']; cbn beta iota zeta delta [fst snd]; [|reflexivity].
  assert (Hfail : forall soft msgs,
            failed_attempts msgs = [] -> no_proxy_count msgs = 0%Z ->
            (net env p = RaisedRequestException -> soft = false) ->
            (net env p <> RaisedRequestException -> soft = true) ->
            exists resp ok soft' msgs',
              ((@None Response, Some p),
               mkState (mark_result (heap s) (Some p) false soft (t_mark env))
                       (set_pool self pool') (logged s ++ msgs))
              = ((resp, Some p),
                 mkState (mark_result (heap s) (Some p) ok soft' (t_mark env))
                         (set_pool self pool') (logged s ++ msgs'))
              /\ (ok = true <-> is_Some resp)
              /\ (forall r, resp = Some r ->
                    net env p = Responded r
                    /\ (((200 <= status_code r < 300)%Z /\ _looks_blocked r = false)
                        \/ (300 <= status_code r < 400)%Z))
              /\ (net env p = RaisedRequestException -> ok = false /\ soft' = false)
              /\ (ok = false -> net env p <> RaisedRequestException -> soft' = true)
              /\ failed_attempts msgs' = []
              /\ no_proxy_count msgs' = 0%Z).
  { intros soft msgs H1 H2 H3 H4. exists None, false, soft, msgs.
    split; [reflexivity|]. split; [split; [done | by intros [? ?]]|].
    split; [done|]. split; [auto|]. split; [auto|]. auto. }
  assert (Hok : forall r, net env p = Responded r ->
            ((200 <= status_code r < 300)%Z /\ _looks_blocked r = false)
            \/ (300 <= status_code r < 400)%Z ->
            exists resp ok soft' msgs',
              ((Some r, Some p),
               mkState (mark_result (heap s) (Some p) true false (t_mark env))
                       (set_pool self pool') (logged s ++ []))
              = ((resp, Some p),
                 mkState (mark_result (heap s) (Some p) ok soft' (t_mark env))
                         (set_pool self pool') (logged s ++ msgs'))
              /\ (ok = true <-> is_Some resp)
              /\ (forall r', resp = Some r' ->
                    net env p = Responded r'
                    /\ (((200 <= status_code r' < 300)%Z /\ _looks_blocked r' = false)
                        \/ (300 <= status_code r' < 400)%Z))
              /\ (net env p = RaisedRequestException -> ok = false /\ soft' = false)
              /\ (ok = false -> net env p <> RaisedRequestException -> soft' = true)
              /\ failed_attempts msgs' = []
              /\ no_proxy_count msgs' = 0%Z).
  { intros r Hnet Hr. exists (Some r), true, false, [].
    split; [reflexivity|]. split; [split; eauto|].
    split; [by intros r' [= <-]|]. split; [congruence|].
    split; [done|]. auto. }
  destruct (net env p) as [resp| | |] eqn:Hnet.
  - destruct ((200 <=? status_code resp)%Z && (status_code resp <? 300)%Z) eqn:H2.
    + apply andb_true_iff in H2 as [Ha Hb].
      apply Z.leb_le in Ha. apply Z.ltb_lt in Hb.
      destruct (_looks_blocked resp) eqn:Hb'.
      * apply Hfail; done.
      * apply Hok; [reflexivity | left; auto].
    + destruct (existsb (Z.eqb (status_code resp)) SOFT_STATUS_CODES).
      * apply Hfail; done.
      * destruct ((300 <=? status_code resp)%Z && (status_code resp <? 400)%Z) eqn:H3.
        -- apply andb_true_iff in H3 as [Ha Hb].
           apply Z.leb_le in Ha. apply Z.ltb_lt in Hb.
           apply Hok; [reflexivity | right; auto].
        -- apply Hfail; done.
  - apply Hfail; done.
  - apply Hfail; done.
  - apply Hfail; done.
Qed.

(** X14: one attempt records exactly one outcome, on the proxy it used: that
    proxy gains one success if a response is returned and one failure
    otherwise, and no other proxy object changes; an attempt that got no proxy
    returns no response and changes no proxy object. *)
Theorem request_once_accounting (s : state) (domain : string) (env : attempt_env) :
  match _request_once s domain env with
  | ((resp, Some p), s') =>
      (forall r, r <> p -> heap s' r = heap s r)
      /\ match resp with
         | Some _ =>
             success (heap s' p) = (success (heap s p) + 1)%Z
             /\ fail (heap s' p) = fail (heap s p)
         | None =>
             success (heap s' p) = success (heap s p)
             /\ fail (heap s' p) = (fail (heap s p) + 1)%Z
         end
  | ((resp, None), s') => resp = None /\ heap s' = heap s
  end.
Proof.
  pose proof (request_once_cases s domain env) as H. simpl in H.
  destruct (fst (get_next _ _ _ _ _)) as [p|].
  - destruct H as (resp & ok & soft & msgs & -> & Hok & _).
    cbn [heap mark_result]. split.
    + intros r Hr. destruct ok; by rewrite store_lookup_insert_ne.
    + destruct resp as [r|].
      * assert (ok = true) as -> by (apply Hok; eauto).
        rewrite store_lookup_insert. simpl. auto.
      * assert (ok = false) as ->.
        { destruct ok; [|done]. destruct (proj1 Hok eq_refl) as [? [=]]. }
        rewrite store_lookup_insert. simpl. auto.
  - rewrite H. auto.
Qed.

Lemma mark_fail_cooldown_lb (p : Proxy) (soft : bool) (now : Q) :
  (0 <= fail p)%Z ->
  now + inject_Z (if soft then 20 else 90) <= cooldown_until (mark_fail p soft now).
Proof.
  intros Hf. simpl.
  pose proof (penalty_multiplier_bounds (fail p + 1) ltac:(lia)) as [Hlo _].
  set (mult := pymin_int _ _) in *.
  eapply Qle_trans; [|apply pymax_ge_r].
  apply Qplus_le_r. rewrite <- Zle_Qle.
  destruct soft; unfold SOFT_FAIL_PENALTY_SECONDS, HARD_FAIL_PENALTY_SECONDS; lia.
Qed.

(** X15: every failed attempt costs the proxy it used a cooldown. After an
    attempt through [p] that returned no response, [p] is unavailable until 20
    seconds after the failure was recorded, and until 90 seconds after it when
    the network call raised a request exception other than a timeout or a
    connection error. *)
Theorem failed_attempt_cools_proxy (s s' : state) (domain : string)
    (env : attempt_env) (p : ref) (t : Q) :
  (0 <= fail (heap s p))%Z ->
  _request_once s domain env = ((None, Some p), s') ->
  (t < t_mark env + 20 -> is_available (heap s' p) t = false)
  /\ (net env p = RaisedRequestException ->
      t < t_mark env + 90 -> is_available (heap s' p) t = false).
Proof.
  intros Hf E.
  pose proof (request_once_cases s domain env) as H. simpl in H.
  destruct (fst (get_next _ _ _ _ _)) as [p0|]; [|rewrite H in E; discriminate].
  destruct H as (resp & ok & soft & msgs & E' & Hok & _ & Hhard & _).
  rewrite E' in E. injection E as -> -> <-.
  assert (ok = false) as ->.
  { destruct ok; [|done]. destruct (proj1 Hok eq_refl) as [? [=]]. }
  cbn [heap mark_result]. rewrite store_lookup_insert.
  pose proof (mark_fail_cooldown_lb (heap s p) soft (t_mark env) Hf) as Hlb.
  assert (H20 : inject_Z 20 == 20) by reflexivity.
  assert (H90 : inject_Z 90 == 90) by reflexivity.
  assert (Hun : forall bound, bound <= cooldown_until (mark_fail (heap s p) soft (t_mark env)) ->
                t < bound ->
                is_available (mark_fail (heap s p) soft (t_mark env)) t = false).
  { intros bound Hb Ht. unfold is_available.
    destruct (Qle_bool _ t) eqn:Hq; [|reflexivity].
    apply Qle_bool_iff in Hq. lra. }
  split.
  - intros Ht. apply (Hun (t_mark env + 20)); [|exact Ht].
    destruct soft; lra.
  - intros Hnet Ht. destruct (Hhard Hnet) as [_ ->].
    apply (Hun (t_mark env + 90)); [lra | exact Ht].
Qed.

Lemma failed_attempt_cools_proxy_witness :
  is_available
    (heap (snd (_request_once single_proxy_state "a.com" (quick_failures 1))) 0%nat)
    1020 = false.
Proof.
  apply (proj1 (failed_attempt_cools_proxy single_proxy_state
                  (snd (_request_once single_proxy_state "a.com" (quick_failures 1)))
                  "a.com" (quick_failures 1) 0%nat 1020
                  ltac:(simpl; lia) ltac:(vm_compute; reflexivity))).
  reflexivity.
Defined.

(** ** Session: the retry loop as a whole *)

Lemma request_once_result (s : state) (domain : string) (env : attempt_env) :
  exists resp proxy s1 msgs,
    _request_once s domain env = ((resp, proxy), s1)
    /\ logged s1 = logged s ++ msgs
    /\ failed_attempts msgs = []
    /\ max_retries (sess s1) = max_retries (sess s)
    /\ (forall r, resp = Some r ->
          ((200 <= status_code r < 300)%Z /\ _looks_blocked r = false)
          \/ (300 <= status_code r < 400)%Z).
Proof.
  pose proof (request_once_cases s domain env) as H. simpl in H.
  destruct (respect_rate_limit_pool (sess s) domain (t_pace env)) as [_ Em].
  destruct (fst (get_next _ _ _ _ _)) as [p|].
  - destruct H as (resp & ok & soft & msgs & -> & _ & Hr & _ & _ & Hfa & _).
    exists resp, (Some p). eexists. exists msgs.
    split; [reflexivity|]. split; [reflexivity|]. split; [exact Hfa|].
    split; [exact Em|]. intros r Hresp. by destruct (Hr r Hresp).
  - rewrite H. exists None, None. eexists. exists [LogNoProxies].
    split; [reflexivity|]. split; [reflexivity|]. split; [reflexivity|].
    split; [exact Em | discriminate].
Qed.

(** The attempt numbers [a], [a + 1], ..., [a + k - 1]. *)
Lemma attempts_shift (a : Z) (k : nat) :
  List.map (fun i => (a + 1 + Z.of_nat i)%Z) (seq 0 k)
  = List.map (fun i => (a + Z.of_nat i)%Z) (seq 1 k).
Proof. rewrite <- seq_shift, List.map_map. apply List.map_ext. intros i. lia. Qed.

Lemma request_loop_result (domain : string) (envs : Z -> attempt_env) (n : nat) :
  forall (a : Z) (s : state),
    exists resp s' msgs,
      request_loop n a s domain envs = (resp, s')
      /\ logged s' = logged s ++ msgs
      /\ match resp with
         | None =>
             failed_attempts msgs = List.map (fun i => (a + Z.of_nat i)%Z) (seq 0 n)
         | Some r =>
             (((200 <= status_code r < 300)%Z /\ _looks_blocked r = false)
              \/ (300 <= status_code r < 400)%Z)
             /\ exists k proxy,
                  (k < n)%nat
                  /\ failed_attempts msgs
                     = List.map (fun i => (a + Z.of_nat i)%Z) (seq 0 k)
                  /\ list.last msgs = Some (LogSuccess (a + Z.of_nat k) proxy)
         end.
Proof.
  induction n as [|n IH]; intros a s.
  - exists None. eexists. exists [LogAllFailed (max_retries (sess s))].
    split; [reflexivity|]. split; reflexivity.
  - destruct (request_once_result s domain (envs a))
      as (resp & proxy & s1 & m1 & E1 & Hl1 & Hf1 & _ & Hr1).
    cbn [request_loop]. rewrite E1. destruct resp as [r|].
    + exists (Some r). eexists. exists (m1 ++ [LogSuccess a proxy]).
      split; [reflexivity|]. split; [simpl; by rewrite Hl1, <- app_assoc|].
      split; [by apply Hr1|]. exists 0%nat, proxy.
      split; [lia|]. split.
      * rewrite failed_attempts_app, Hf1. reflexivity.
      * rewrite last_snoc, Z.add_0_r. reflexivity.
    + destruct (IH (a + 1)%Z (add_log s1 [LogAttemptFailed a]))
        as (resp & s' & msgs & E & Hl & Hres).
      exists resp, s', (m1 ++ [LogAttemptFailed a] ++ msgs).
      split; [exact E|]. split.
      { rewrite Hl. simpl. by rewrite Hl1, <- !app_assoc. }
      destruct resp as [r|].
      * destruct Hres as (Hr & k & proxy' & Hk & Hfa & Hlast).
        split; [exact Hr|]. exists (S k), proxy'. split; [lia|]. split.
        -- rewrite !failed_attempts_app, Hf1, Hfa, attempts_shift. simpl.
           by rewrite Z.add_0_r.
        -- rewrite app_assoc, last_app, Hlast. do 2 f_equal. lia.
      * rewrite !failed_attempts_app, Hf1, Hres, attempts_shift. simpl.
        by rewrite Z.add_0_r.
Qed.

(** X16: [request] only ever returns a response that the classification
    accepts: a 2xx response that does not look blocked, or a 3xx response.
    A response with status 403, 429 or 503, any other 4xx or 5xx response and
    a 2xx block page are never returned. *)
Theorem request_returns_accepted_response (s s' : state) (domain : string)
    (envs : Z -> attempt_env) (r : Response) :
  request s domain envs = (Some r, s') ->
  ((200 <= status_code r < 300)%Z /\ _looks_blocked r = false)
  \/ (300 <= status_code r < 400)%Z.
Proof.
  unfold request. intros E.
  destruct (request_loop_result domain envs (Z.to_nat (max_retries (sess s))) 1 s)
    as (resp & s1 & msgs & E1 & _ & Hres).
  rewrite E in E1. injection E1 as <- <-. by destruct Hres.
Qed.

(** X17: [request] stays within its retry budget. When it returns no response
    it has made exactly [max(0, max_retries)] attempts, numbered from 1, all
    reported as failed; when it returns a response, the attempt that
    succeeded is at most the [max_retries]-th, every attempt before it is
    reported as failed, and the success is the last message logged. *)
Theorem request_attempts (s : state) (domain : string) (envs : Z -> attempt_env) :
  exists msgs,
    logged (snd (request s domain envs)) = logged s ++ msgs
    /\ match fst (request s domain envs) with
       | None =>
           failed_attempts msgs
           = List.map (fun i => (1 + Z.of_nat i)%Z)
               (seq 0 (Z.to_nat (max_retries (sess s))))
       | Some _ =>
           exists k proxy,
             (k < Z.to_nat (max_retries (sess s)))%nat
             /\ failed_attempts msgs
                = List.map (fun i => (1 + Z.of_nat i)%Z) (seq 0 k)
             /\ list.last msgs = Some (LogSuccess (1 + Z.of_nat k) proxy)
       end.
Proof.
  unfold request.
  destruct (request_loop_result domain envs (Z.to_nat (max_retries (sess s))) 1 s)
    as (resp & s1 & msgs & -> & Hl & Hres).
  exists msgs. split; [exact Hl|]. simpl.
  destruct resp; [by destruct Hres | exact Hres].
Qed.

Lemma request_returns_accepted_response_witness :
  ((200 <= status_code plain_page < 300)%Z /\ _looks_blocked plain_page = false)
  \/ (300 <= status_code plain_page < 400)%Z.
Proof.
  apply (request_returns_accepted_response single_proxy_state
           (snd (request single_proxy_state "a.com" answering))
           "a.com" answering plain_page).
  vm_compute. reflexivity.
Defined.

Lemma get_next_empty st pool domain sticky now :
  _proxies pool = [] -> _sticky_map pool = ∅ ->
  get_next st pool domain sticky now = (None, pool).
Proof.
  intros Hl Hs. unfold get_next.
  assert (He : _evict_bad st pool now = pool).
  { unfold _evict_bad, set_proxies. rewrite Hl. simpl.
    destruct pool; simpl in *. by subst. }
  rewrite He.
  assert (Hk : sticky_key domain sticky ≫= (fun d => _sticky_map pool !! d) = None).
  { destruct (sticky_key domain sticky); simpl; [|reflexivity].
    rewrite Hs. apply lookup_empty. }
  rewrite Hk. unfold rotate, candidates. rewrite Hl. reflexivity.
Qed.

Lemma flat_map_map {A B C} (f : B -> list C) (g : A -> B) (l : list A) :
  flat_map f (List.map g l) = flat_map (fun x => f (g x)) l.
Proof. induction l as [|x l IH]; simpl; [reflexivity | by rewrite IH]. Qed.

Lemma request_loop_empty_pool (domain : string) (envs : Z -> attempt_env) (n : nat) :
  forall (a : Z) (s : state),
    _proxies (proxy_pool (sess s)) = [] ->
    _sticky_map (proxy_pool (sess s)) = ∅ ->
    exists s',
      request_loop n a s domain envs = (None, s')
      /\ heap s' = heap s
      /\ proxy_pool (sess s') = proxy_pool (sess s)
      /\ max_retries (sess s') = max_retries (sess s)
      /\ logged s'
         = logged s
           ++ flat_map (fun i => [LogNoProxies; LogAttemptFailed (a + Z.of_nat i)])
                (seq 0 n)
           ++ [LogAllFailed (max_retries (sess s))].
Proof.
  induction n as [|n IH]; intros a s Hl Hs.
  - eexists. split; [reflexivity|]. simpl. auto.
  - destruct (respect_rate_limit_pool (sess s) domain (t_pace (envs a))) as [Ep Em].
    cbn [request_loop]. unfold _request_once.
    rewrite Ep, (get_next_empty _ _ _ _ _ Hl Hs).
    set (s1 := add_log _ _).
    destruct (IH (a + 1)%Z s1 Hl Hs) as (s' & E & Hh & Hp & Hm & Hlog).
    exists s'. split; [exact E|]. split; [exact Hh|]. split; [exact Hp|].
    split; [by rewrite Hm|].
    rewrite Hlog. subst s1. cbn [logged add_log sess max_retries set_pool].
    rewrite Em. cbn [seq flat_map]. rewrite Z.add_0_r, <- !app_assoc.
    cbn [app]. do 3 f_equal.
    rewrite <- seq_shift, flat_map_map. f_equal. apply flat_map_ext. intros i.
    do 3 f_equal. lia.
Qed.

(** X18: over a pool without proxies (empty list, empty sticky map) [request]
    uses up its retry budget without any network call: it returns no
    response, logs "no proxies" and a failed attempt for each of its
    [max(0, max_retries)] attempts, and leaves proxy objects and pool as
    they are. *)
Theorem request_on_empty_pool (s : state) (domain : string)
    (envs : Z -> attempt_env) :
  _proxies (proxy_pool (sess s)) = [] ->
  _sticky_map (proxy_pool (sess s)) = ∅ ->
  exists s',
    request s domain envs = (None, s')
    /\ heap s' = heap s
    /\ proxy_pool (sess s') = proxy_pool (sess s)
    /\ logged s'
       = logged s
         ++ flat_map (fun i => [LogNoProxies; LogAttemptFailed (1 + Z.of_nat i)])
              (seq 0 (Z.to_nat (max_retries (sess s))))
         ++ [LogAllFailed (max_retries (sess s))].
Proof.
  intros Hl Hs. unfold request.
  destruct (request_loop_empty_pool domain envs
              (Z.to_nat (max_retries (sess s))) 1 s Hl Hs)
    as (s' & E & Hh & Hp & _ & Hlog).
  exists s'. auto.
Qed.

Lemma request_on_empty_pool_witness :
  exists s',
    request (mkState fresh_store (mkSession default_pool 15 2 (1, 4) ∅) [])
      "a.com" answering = (None, s')
    /\ heap s' = fresh_store
    /\ proxy_pool (sess s') = default_pool
    /\ logged s'
       = [LogNoProxies; LogAttemptFailed 1; LogNoProxies; LogAttemptFailed 2;
          LogAllFailed 2].
Proof.
  apply (request_on_empty_pool
           (mkState fresh_store (mkSession default_pool 15 2 (1, 4) ∅) [])
           "a.com" answering); reflexivity.
Defined.

Lemma same_session_refl domain a : same_session domain a a.
Proof. unfold same_session. repeat split; auto. Qed.

Lemma same_session_trans domain a b c :
  same_session domain a b -> same_session domain b c -> same_session domain a c.
Proof.
  unfold same_session.
  intros (?&?&?&?&?&?&Hd1&He1) (?&?&?&?&?&?&Hd2&He2).
  repeat split; try congruence.
  - intros d Hd. rewrite Hd2, Hd1; auto.
  - intros Hd. rewrite He2, He1; auto.
Qed.

Lemma get_next_thresholds st pool domain sticky now :
  max_size (snd (get_next st pool domain sticky now)) = max_size pool
  /\ min_score (snd (get_next st pool domain sticky now)) = min_score pool
  /\ eviction_threshold (snd (get_next st pool domain sticky now))
     = eviction_threshold pool.
Proof.
  unfold get_next.
  pose proof (rotate_proxies st (_evict_bad st pool now)
                (sticky_key domain sticky) now) as (_ & H1 & H2 & H3).
  destruct (sticky_key domain sticky ≫= _) as [s|];
    [destruct (healthy _ _ _)|]; simpl; auto.
Qed.

Lemma request_once_same_session (s : state) (domain : string) (env : attempt_env) :
  same_session domain (sess s) (sess (snd (_request_once s domain env))).
Proof.
  assert (H1 : same_session domain (sess s)
                 (_respect_rate_limit (sess s) domain (t_pace env))).
  { unfold _respect_rate_limit. destruct (String.eqb_spec domain EmptyString).
    - apply same_session_refl.
    - unfold same_session. simpl. repeat split; auto.
      + intros d Hd. by rewrite lookup_insert_ne.
      + done. }
  eapply same_session_trans; [exact H1|].
  set (self := _respect_rate_limit (sess s) domain (t_pace env)) in *.
  assert (H2 : forall pool',
            pool' = snd (get_next (heap s) (proxy_pool self) (Some domain) true
                           (t_select env)) ->
            same_session domain self (set_pool self pool')).
  { intros pool' ->.
    destruct (get_next_thresholds (heap s) (proxy_pool self) (Some domain) true
                (t_select env)) as (Ha & Hb & Hc).
    unfold same_session. simpl. repeat split; auto. }
  pose proof (request_once_cases s domain env) as H. simpl in H. fold self in H.
  destruct (fst (get_next _ _ _ _ _)) as [p|].
  - destruct H as (resp & ok & soft & msgs & -> & _). simpl. by apply H2.
  - rewrite H. simpl. by apply H2.
Qed.

Lemma request_loop_same_session (domain : string) (envs : Z -> attempt_env) (n : nat) :
  forall (a : Z) (s : state),
    same_session domain (sess s) (sess (snd (request_loop n a s domain envs))).
Proof.
  induction n as [|n IH]; intros a s; [apply same_session_refl|].
  cbn [request_loop].
  pose proof (request_once_same_session s domain (envs a)) as H1.
  destruct (_request_once s domain (envs a)) as [[resp proxy] s1].
  destruct resp as [r|]; [exact H1|].
  eapply same_session_trans; [exact H1|].
  apply (IH (a + 1)%Z (add_log s1 [LogAttemptFailed a])).
Qed.

(** [request] changes nothing of the configuration: timeout, retry
    budget and delay range of the session and capacity and thresholds of its
    pool are as before, and so is the recorded time of the last request to
    every domain other than the one requested; with an empty domain no time is
    recorded at all. *)
Theorem request_keeps_configuration (s : state) (domain : string)
    (envs : Z -> attempt_env) :
  let self := sess s in
  let self' := sess (snd (request s domain envs)) in
  timeout self' = timeout self
  /\ max_retries self' = max_retries self
  /\ per_domain_delay self' = per_domain_delay self
  /\ max_size (proxy_pool self') = max_size (proxy_pool self)
  /\ min_score (proxy_pool self') = min_score (proxy_pool self)
  /\ eviction_threshold (proxy_pool self') = eviction_threshold (proxy_pool self)
  /\ (forall d, d <> domain ->
        _domain_last_req self' !! d = _domain_last_req self !! d)
  /\ (domain = EmptyString -> _domain_last_req self' = _domain_last_req self).
Proof.
  apply (request_loop_same_session domain envs
           (Z.to_nat (max_retries (sess s))) 1 s).
Qed.

(** ** Delays *)

Lemma uniform_bounds (a b u : Q) :
  a <= b -> 0 <= u <= 1 -> a <= uniform a b u <= b.
Proof. intros Hab [H0 H1]. unfold uniform. split; nra. Qed.

(** X19: [human_delay] never sleeps less than 0.05 seconds nor less than
    [min_delay - jitter], and, unless the 0.05 floor applies, never more than
    [max_delay + jitter]; the attempt-level delay [human_delay(0.3, 1.8)] of
    [request] lies between 0.05 and 2.05 seconds. *)
Theorem human_delay_bounds (min_delay max_delay jitter u1 u2 : Q) :
  min_delay <= max_delay -> 0 <= jitter -> 0 <= u1 <= 1 -> 0 <= u2 <= 1 ->
  (5 # 100) <= human_delay min_delay max_delay jitter u1 u2
  /\ min_delay - jitter <= human_delay min_delay max_delay jitter u1 u2
  /\ (human_delay min_delay max_delay jitter u1 u2 <= max_delay + jitter
      \/ human_delay min_delay max_delay jitter u1 u2 = 5 # 100)
  /\ human_delay (3 # 10) (18 # 10) (25 # 100) u1 u2 <= 205 # 100.
Proof.
  intros Hm Hj Hu1 Hu2. unfold human_delay.
  pose proof (uniform_bounds min_delay max_delay u1 Hm Hu1) as Hb.
  pose proof (uniform_bounds (- jitter) jitter u2 ltac:(lra) Hu2) as Hjb.
  pose proof (uniform_bounds (3 # 10) (18 # 10) u1 ltac:(lra) Hu1) as Hb'.
  pose proof (uniform_bounds (- (25 # 100)) (25 # 100) u2 ltac:(lra) Hu2) as Hjb'.
  split; [apply pymax_ge_l|]. split; [|split].
  - eapply Qle_trans; [|apply pymax_ge_r]. lra.
  - destruct (pymax_case (5 # 100)
      (uniform min_delay max_delay u1 + uniform (- jitter) jitter u2))
      as [[H ->]|[H ->]]; [left; lra | right; reflexivity].
  - apply pymax_lub; lra.
Qed.

Lemma human_delay_bounds_witness :
  (5 # 100) <= human_delay (8 # 10) (42 # 10) (25 # 100) (1 # 2) (1 # 4).
Proof.
  apply (human_delay_bounds (8 # 10) (42 # 10) (25 # 100) (1 # 2) (1 # 4));
    try (split; unfold Qle; simpl; lia); unfold Qle; simpl; lia.
Defined.

(** X20: the pacing of [_respect_rate_limit] keeps requests to one domain
    apart. For a non-empty domain, if it sleeps, it sleeps at least 0.05
    seconds and until at least the smaller delay of the configured range has
    passed since the recorded last request; if it does not sleep, that much
    time has passed already. For an empty domain it never sleeps. *)
Theorem respect_rate_limit_gap (self : StealthSession) (domain : string)
    (now u : Q) :
  fst (per_domain_delay self) <= snd (per_domain_delay self) ->
  0 <= u <= 1 ->
  let last := default 0 (_domain_last_req self !! domain) in
  match _respect_rate_limit_sleep self domain now u with
  | Some d =>
      domain <> EmptyString
      /\ (5 # 100) <= d
      /\ fst (per_domain_delay self) <= (now + d) - last
  | None =>
      domain = EmptyString \/ fst (per_domain_delay self) <= now - last
  end.
Proof.
  intros Hd Hu last. unfold _respect_rate_limit_sleep. fold last.
  destruct (String.eqb_spec domain EmptyString) as [->|Hne]; [by left|].
  destruct (per_domain_delay self) as [min_d max_d]. simpl in *.
  pose proof (uniform_bounds min_d max_d u Hd Hu) as Hg.
  destruct (Qlt_bool (now - last) (uniform min_d max_d u)) eqn:E.
  - split; [exact Hne|]. split; [apply pymax_ge_l|].
    pose proof (pymax_ge_r (5 # 100) (uniform min_d max_d u - (now - last))).
    lra.
  - right. apply Qlt_bool_false in E. lra.
Qed.

Lemma respect_rate_limit_gap_witness :
  let last := default 0 (_domain_last_req paced_session !! "a.com"%string) in
  match _respect_rate_limit_sleep paced_session "a.com" 1001 (1 # 2) with
  | Some d =>
      "a.com"%string <> EmptyString
      /\ (5 # 100) <= d
      /\ fst (per_domain_delay paced_session) <= (1001 + d) - last
  | None =>
      "a.com"%string = EmptyString
      \/ fst (per_domain_delay paced_session) <= 1001 - last
  end.
Proof.
  apply (respect_rate_limit_gap paced_session "a.com" 1001 (1 # 2)).
  - unfold Qle. simpl. lia.
  - split; unfold Qle; simpl; lia.
Defined.

(** ** Pool statistics *)

Lemma step_min_score w o : min_score (snd (step w o)) = min_score (snd w).
Proof.
  destruct w as [st pool]. destruct o; simpl.
  - unfold add_proxy.
    by destruct (Z.of_nat (length (_proxies pool)) <? max_size pool)%Z.
  - by rewrite bulk_add_firstn.
  - apply get_next_thresholds.
  - reflexivity.
Qed.

(** X21: in a pool built with a non-negative capacity, after any history,
    [stats] reports no more healthy proxies than proxies and no more proxies
    than the capacity; it counts a proxy as healthy by its score alone, also
    while the proxy is in cooldown. *)
Theorem stats_bounds (m : Z) (ms et : Q) (st0 : store) (ops : list pool_op)
    (now : Q) :
  (0 <= m)%Z ->
  let w := run (st0, ProxyPool_init m ms et) ops in
  (0 <= healthy_count (stats (fst w) (snd w) now)
     <= total (stats (fst w) (snd w) now))%Z
  /\ (total (stats (fst w) (snd w) now) <= m)%Z
  /\ (forall r, In r (_proxies (snd w)) ->
        ms <= score (fst w r) now ->
        (0 < healthy_count (stats (fst w) (snd w) now))%Z).
Proof.
  intros Hm w.
  pose proof (run_capacity m ops (st0, ProxyPool_init m ms et)
                ltac:(split; simpl; [reflexivity | lia])) as [Hmax Hlen].
  fold w in Hmax, Hlen.
  assert (Hms : min_score (snd w) = ms).
  { subst w. clear. induction ops as [|o ops IH] using rev_ind; [reflexivity|].
    by rewrite run_snoc, step_min_score. }
  simpl. split; [|split].
  - pose proof (filter_length_le
      (fun p => Qle_bool (min_score (snd w)) (score (fst w p) now))
      (_proxies (snd w))). lia.
  - exact Hlen.
  - intros r Hin Hsc. rewrite Hms.
    assert (H : In r (List.filter (fun p => Qle_bool ms (score (fst w p) now))
                        (_proxies (snd w)))).
    { apply filter_In. split; [exact Hin|]. by apply Qle_bool_iff. }
    destruct (List.filter _ _); [destruct H | simpl; lia].
Qed.

Lemma stats_bounds_witness :
  (total (stats fresh_store
            (snd (run (fresh_store, ProxyPool_init 3 (25 # 100) (5 # 100))
                    [BulkAdd [0; 1; 2; 3; 4]%nat])) 10) <= 3)%Z.
Proof.
  apply (stats_bounds 3 (25 # 100) (5 # 100) fresh_store
           [BulkAdd [0; 1; 2; 3; 4]%nat] 10).
  lia.
Defined.

(** ** Headers *)

Lemma choice_In (pool : list string) (i : nat) :
  pool <> [] -> In (choice pool i) pool.
Proof.
  intros Hne. unfold choice. apply nth_In.
  apply Nat.mod_upper_bound. destruct pool; [done | discriminate].
Qed.

(** The headers before [extra] is merged in: the fixed ones with the three
    chosen values, and the optional ones that were drawn. *)
Lemma random_headers_plain (is_mobile : bool) (referer : option string)
    (d : header_draws) (k : string) (v : string) :
  random_headers is_mobile referer None d !! k = Some v ->
  (k = "User-Agent"%string
   /\ v = choice (if is_mobile && Qlt_bool (u_mobile d) MOBILE_UA_PROBABILITY
                  then MOBILE_UAS else DESKTOP_UAS) (i_ua d))
  \/ (k = "Accept"%string /\ v = choice ACCEPT_HEADERS (i_accept d))
  \/ (k = "Accept-Language"%string /\ v = choice ACCEPT_LANGS (i_lang d))
  \/ In (k, v) [("Accept-Encoding", "gzip, deflate, br"); ("Connection", "keep-alive");
                ("Upgrade-Insecure-Requests", "1"); ("Sec-Fetch-Site", "none");
                ("Sec-Fetch-Mode", "navigate"); ("Sec-Fetch-User", "?1");
                ("Sec-Fetch-Dest", "document")]%string
  \/ (k = "Referer"%string /\ referer = Some v /\ v <> EmptyString
      /\ u_referer d < REFERER_INCLUSION_PROBABILITY)
  \/ (k = "DNT"%string /\ v = "1"%string /\ u_dnt d < DNT_INCLUSION_PROBABILITY)
  \/ (k = "Cache-Control"%string /\ v = "max-age=0"%string
      /\ u_cache d < CACHE_CONTROL_PROBABILITY)
  \/ (k = "Pragma"%string /\ v = "no-cache"%string
      /\ u_pragma d < PRAGMA_PROBABILITY).
Proof.
  unfold random_headers.
  set (ua := choice _ (i_ua d)).
  set (acc := choice ACCEPT_HEADERS _). set (lang := choice ACCEPT_LANGS _).
  cbn [list_to_map foldr uncurry fst snd].
  assert (Hbase : forall h : gmap string string,
    (forall k v, h !! k = Some v -> False) ->
    forall k v,
      (<["User-Agent"%string := ua]> (<["Accept"%string := acc]>
       (<["Accept-Language"%string := lang]>
       (<["Accept-Encoding"%string := "gzip, deflate, br"%string]>
       (<["Connection"%string := "keep-alive"%string]>
       (<["Upgrade-Insecure-Requests"%string := "1"%string]>
       (<["Sec-Fetch-Site"%string := "none"%string]>
       (<["Sec-Fetch-Mode"%string := "navigate"%string]>
       (<["Sec-Fetch-User"%string := "?1"%string]>
       (<["Sec-Fetch-Dest"%string := "document"%string]> h)))))))))) !! k = Some v ->
      (k = "User-Agent"%string /\ v = ua)
      \/ (k = "Accept"%string /\ v = acc)
      \/ (k = "Accept-Language"%string /\ v = lang)
      \/ In (k, v) [("Accept-Encoding", "gzip, deflate, br"); ("Connection", "keep-alive");
                    ("Upgrade-Insecure-Requests", "1"); ("Sec-Fetch-Site", "none");
                    ("Sec-Fetch-Mode", "navigate"); ("Sec-Fetch-User", "?1");
                    ("Sec-Fetch-Dest", "document")]%string).
  { intros h Hh k0 v0.
    repeat (rewrite lookup_insert; case_decide;
            [intros [= <-]; subst; simpl; tauto|]).
    intros Hl. destruct (Hh _ _ Hl). }
  set (h0 := <["User-Agent"%string := ua]> _) in *.
  assert (H0 : forall k v, h0 !! k = Some v ->
     (k = "User-Agent"%string /\ v = ua)
      \/ (k = "Accept"%string /\ v = acc)
      \/ (k = "Accept-Language"%string /\ v = lang)
      \/ In (k, v) [("Accept-Encoding", "gzip, deflate, br"); ("Connection", "keep-alive");
                    ("Upgrade-Insecure-Requests", "1"); ("Sec-Fetch-Site", "none");
                    ("Sec-Fetch-Mode", "navigate"); ("Sec-Fetch-User", "?1");
                    ("Sec-Fetch-Dest", "document")]%string).
  { intros k0 v0. apply Hbase. intros k1 v1. by rewrite lookup_empty. }
  clearbody h0. clear Hbase.
  set (h1 := match referer with
             | Some r => if nonempty referer && Qlt_bool (u_referer d) REFERER_INCLUSION_PROBABILITY
                         then <["Referer"%string := r]> h0 else h0
             | None => h0 end).
  set (h2 := if Qlt_bool (u_dnt d) DNT_INCLUSION_PROBABILITY
             then <["DNT"%string := "1"%string]> h1 else h1).
  set (h3 := if Qlt_bool (u_cache d) CACHE_CONTROL_PROBABILITY
             then <["Cache-Control"%string := "max-age=0"%string]> h2 else h2).
  intros H.
  assert (H3 : h3 !! k = Some v
               \/ (k = "Pragma"%string /\ v = "no-cache"%string
                   /\ u_pragma d < PRAGMA_PROBABILITY)).
  { destruct (Qlt_bool (u_pragma d) PRAGMA_PROBABILITY) eqn:E; [|by left].
    apply Qlt_bool_iff in E. rewrite lookup_insert in H.
    case_decide; [right; injection H as <-; auto | by left]. }
  destruct H3 as [H3|H3]; [|tauto]. clear H.
  assert (H2 : h2 !! k = Some v
               \/ (k = "Cache-Control"%string /\ v = "max-age=0"%string
                   /\ u_cache d < CACHE_CONTROL_PROBABILITY)).
  { subst h3. destruct (Qlt_bool (u_cache d) CACHE_CONTROL_PROBABILITY) eqn:E;
      [|by left].
    apply Qlt_bool_iff in E. rewrite lookup_insert in H3.
    case_decide; [right; injection H3 as <-; auto | by left]. }
  destruct H2 as [H2|H2]; [|tauto]. clear H3.
  assert (H1 : h1 !! k = Some v
               \/ (k = "DNT"%string /\ v = "1"%string
                   /\ u_dnt d < DNT_INCLUSION_PROBABILITY)).
  { subst h2. destruct (Qlt_bool (u_dnt d) DNT_INCLUSION_PROBABILITY) eqn:E;
      [|by left].
    apply Qlt_bool_iff in E. rewrite lookup_insert in H2.
    case_decide; [right; injection H2 as <-; auto | by left]. }
  destruct H1 as [H1|H1]; [|tauto]. clear H2.
  assert (Hr : h0 !! k = Some v
               \/ (k = "Referer"%string /\ referer = Some v /\ v <> EmptyString
                   /\ u_referer d < REFERER_INCLUSION_PROBABILITY)).
  { subst h1. destruct referer as [r|]; [|by left].
    destruct (nonempty (Some r)) eqn:En; simpl in H1; [|by left].
    destruct (Qlt_bool (u_referer d) REFERER_INCLUSION_PROBABILITY) eqn:E;
      [|by left].
    apply Qlt_bool_iff in E. rewrite lookup_insert in H1.
    case_decide; [|by left]. right. injection H1 as <-.
    repeat split; auto. intros ->. discriminate. }
  destruct Hr as [Hr|Hr]; [|tauto].
  destruct (H0 _ _ Hr) as [?|[?|[?|?]]]; tauto.
Qed.

Lemma is_Some_insert (h : gmap string string) (i k : string) (x : string) :
  is_Some (h !! k) -> is_Some (<[i := x]> h !! k).
Proof.
  intros H. rewrite lookup_insert. case_decide; [eauto | exact H].
Qed.

Lemma random_headers_plain_fixed (is_mobile : bool) (referer : option string)
    (d : header_draws) :
  random_headers is_mobile referer None d !! "User-Agent"%string
    = Some (choice (if is_mobile && Qlt_bool (u_mobile d) MOBILE_UA_PROBABILITY
                    then MOBILE_UAS else DESKTOP_UAS) (i_ua d))
  /\ random_headers is_mobile referer None d !! "Accept"%string
     = Some (choice ACCEPT_HEADERS (i_accept d))
  /\ random_headers is_mobile referer None d !! "Accept-Language"%string
     = Some (choice ACCEPT_LANGS (i_lang d))
  /\ forall k, In k fixed_headers ->
       is_Some (random_headers is_mobile referer None d !! k).
Proof.
  unfold random_headers.
  set (ua := choice _ (i_ua d)).
  set (acc := choice ACCEPT_HEADERS _). set (lang := choice ACCEPT_LANGS _).
  cbn [list_to_map foldr uncurry fst snd].
  set (h0 := <["User-Agent"%string := ua]> _).
  assert (Hua : h0 !! "User-Agent"%string = Some ua) by (subst h0; by simplify_map_eq).
  assert (Hacc : h0 !! "Accept"%string = Some acc) by (subst h0; by simplify_map_eq).
  assert (Hlang : h0 !! "Accept-Language"%string = Some lang)
    by (subst h0; by simplify_map_eq).
  assert (Hfix : forall k, In k fixed_headers -> is_Some (h0 !! k)).
  { intros k Hk. unfold fixed_headers in Hk. simpl in Hk.
    repeat (destruct Hk as [<-|Hk]; [subst h0; simplify_map_eq; eauto|]).
    destruct Hk. }
  clearbody h0.
  assert (Hkeep : forall (h : gmap string string) (b : bool) (i x : string) (k v : string),
            i <> k -> h !! k = Some v -> (if b then <[i := x]> h else h) !! k = Some v).
  { intros h b i x k v Hne Hh. destruct b; [by rewrite lookup_insert_ne | exact Hh]. }
  assert (Hkeep' : forall (h : gmap string string) (b : bool) (i x : string) (k : string),
            is_Some (h !! k) -> is_Some ((if b then <[i := x]> h else h) !! k)).
  { intros h b i x k Hh. destruct b; [by apply is_Some_insert | exact Hh]. }
  set (h1 := match referer with
             | Some r => if nonempty referer && Qlt_bool (u_referer d) REFERER_INCLUSION_PROBABILITY
                         then <["Referer"%string := r]> h0 else h0
             | None => h0 end).
  assert (H1 : forall k v, "Referer"%string <> k -> h0 !! k = Some v -> h1 !! k = Some v).
  { intros k v Hne Hh. subst h1. destruct referer; [by apply Hkeep | exact Hh]. }
  assert (H1' : forall k, is_Some (h0 !! k) -> is_Some (h1 !! k)).
  { intros k Hh. subst h1. destruct referer; [by apply Hkeep' | exact Hh]. }
  clearbody h1.
  split; [|split; [|split]].
  - do 3 (apply Hkeep; [done|]). by apply H1.
  - do 3 (apply Hkeep; [done|]). by apply H1.
  - do 3 (apply Hkeep; [done|]). by apply H1.
  - intros k Hk. do 3 apply Hkeep'. apply H1'. by apply Hfix.
Qed.

(** X22: the headers that [random_headers] generates always contain the ten
    fixed headers, whatever is drawn and whatever [extra] holds. Before
    [extra] is merged in, the User-Agent is one of the desktop user agents, or
    possibly a mobile one when [is_mobile] is set, and Accept and
    Accept-Language come from their pools. *)
Theorem random_headers_fixed (is_mobile : bool) (referer : option string)
    (extra : option (gmap string string)) (d : header_draws) :
  (forall k, In k fixed_headers ->
     is_Some (random_headers is_mobile referer extra d !! k))
  /\ exists ua acc lang,
       random_headers is_mobile referer None d !! "User-Agent"%string = Some ua
       /\ random_headers is_mobile referer None d !! "Accept"%string = Some acc
       /\ random_headers is_mobile referer None d !! "Accept-Language"%string
          = Some lang
       /\ In ua (if is_mobile then DESKTOP_UAS ++ MOBILE_UAS else DESKTOP_UAS)
       /\ In acc ACCEPT_HEADERS /\ In lang ACCEPT_LANGS.
Proof.
  destruct (random_headers_plain_fixed is_mobile referer d)
    as (Hua & Hacc & Hlang & Hfix).
  split.
  - intros k Hk. specialize (Hfix k Hk). destruct extra as [e|]; [|exact Hfix].
    change (random_headers is_mobile referer (Some e) d)
      with (e ∪ random_headers is_mobile referer None d).
    apply lookup_union_is_Some. by right.
  - eexists _, _, _. split; [exact Hua|]. split; [exact Hacc|].
    split; [exact Hlang|]. split; [|split; by apply choice_In].
    destruct is_mobile.
    + apply in_or_app. rewrite andb_true_l.
      destruct (Qlt_bool (u_mobile d) MOBILE_UA_PROBABILITY);
        [right | left]; by apply choice_In.
    + rewrite andb_false_l. by apply choice_In.
Qed.

Lemma random_headers_merge (is_mobile : bool) (referer : option string)
    (e : gmap string string) (d : header_draws) :
  (forall k v, e !! k = Some v ->
     random_headers is_mobile referer (Some e) d !! k = Some v)
  /\ (forall k, e !! k = None ->
        random_headers is_mobile referer (Some e) d !! k
        = random_headers is_mobile referer None d !! k)
  /\ (forall v, random_headers is_mobile referer (Some e) d !! "Referer"%string
                = Some v ->
        e !! "Referer"%string = Some v
        \/ (referer = Some v /\ v <> EmptyString)).
Proof.
  change (random_headers is_mobile referer (Some e) d)
    with (e ∪ random_headers is_mobile referer None d).
  split; [|split].
  - intros k v H. by apply lookup_union_Some_l.
  - intros k H. by apply lookup_union_r.
  - intros v H. apply lookup_union_Some_raw in H as [H|[_ H]]; [by left|].
    right. apply random_headers_plain in H.
    destruct H as [[? _]|[[? _]|[[? _]|[H|[H|[[? _]|[[? _]|[? _]]]]]]]];
      try discriminate.
    + simpl in H. repeat (destruct H as [[=]|H]). destruct H.
    + tauto.
Qed.

(** X23: caller-supplied headers win. Every header of [extra] is in the result
    with exactly the value given, every other header is as generated, and no
    Referer is sent unless the caller supplied one, as the non-empty [referer]
    argument or in [extra]. *)
Theorem random_headers_extra (is_mobile : bool) (referer : option string)
    (e : gmap string string) (d : header_draws) :
  (forall k v, e !! k = Some v ->
     random_headers is_mobile referer (Some e) d !! k = Some v)
  /\ (forall k, e !! k = None ->
        random_headers is_mobile referer (Some e) d !! k
        = random_headers is_mobile referer None d !! k)
  /\ (forall v, random_headers is_mobile referer (Some e) d !! "Referer"%string
                = Some v ->
        e !! "Referer"%string = Some v
        \/ (referer = Some v /\ v <> EmptyString)).
Proof. apply random_headers_merge. Qed.

Lemma desktop_mobile_disjoint (ua : string) :
  In ua DESKTOP_UAS -> In ua MOBILE_UAS -> False.
Proof.
  unfold DESKTOP_UAS, MOBILE_UAS. simpl.
  intros Hd Hm.
  repeat (destruct Hd as [<-|Hd];
          [repeat (destruct Hm as [Hm|Hm]; [discriminate Hm|]); exact Hm|]).
  exact Hd.
Qed.

(** X24: an attempt sends a mobile User-Agent only when it treats the request
    as mobile, that is when the domain contains "m." or the 25% draw hits, and
    the 60% draw hits as well (unless the caller's own headers set the
    User-Agent). *)
Theorem attempt_headers_mobile (domain : string) (referer : option string)
    (headers : option (gmap string string)) (u : Q) (d : header_draws)
    (ua : string) :
  (forall h, headers = Some h -> h !! "User-Agent"%string = None) ->
  attempt_headers domain referer headers u d !! "User-Agent"%string = Some ua ->
  In ua MOBILE_UAS ->
  (contains "m." domain = true \/ u < 25 # 100)
  /\ u_mobile d < MOBILE_UA_PROBABILITY.
Proof.
  intros Hh Hua Hmob. unfold attempt_headers in Hua.
  set (is_mobile := contains "m." domain || Qlt_bool u (25 # 100)) in *.
  destruct (random_headers_merge is_mobile referer
              (match headers with Some h => h | None => ∅ end) d) as (_ & Hother & _).
  rewrite Hother in Hua.
  2:{ destruct headers as [h|]; [by apply Hh | apply lookup_empty]. }
  destruct (random_headers_plain_fixed is_mobile referer d) as (Hplain & _).
  rewrite Hplain in Hua. injection Hua as <-.
  destruct (is_mobile && Qlt_bool (u_mobile d) MOBILE_UA_PROBABILITY) eqn:E.
  - apply andb_true_iff in E as [E1 E2]. split.
    + subst is_mobile. apply orb_true_iff in E1 as [E1|E1]; [by left|].
      right. by apply Qlt_bool_iff.
    + by apply Qlt_bool_iff.
  - exfalso. apply (desktop_mobile_disjoint (choice DESKTOP_UAS (i_ua d))).
    + by apply choice_In.
    + exact Hmob.
Qed.

Lemma attempt_headers_mobile_witness :
  (contains "m." "m.example.com" = true \/ (1 # 2) < 25 # 100)
  /\ u_mobile (mkDraws (1 # 2) 0 0 0 (1 # 2) (1 # 2) (1 # 2) (1 # 2))
     < MOBILE_UA_PROBABILITY.
Proof.
  apply (attempt_headers_mobile "m.example.com" None None (1 # 2)
           (mkDraws (1 # 2) 0 0 0 (1 # 2) (1 # 2) (1 # 2) (1 # 2))
           "Mozilla/5.0 (iPhone; CPU iPhone OS 17_0 like Mac OS X) AppleWebKit/605.1.15 (KHTML, like Gecko) Version/17.0 Mobile/15E148 Safari/604.1").
  - intros h H. discriminate H.
  - vm_compute. reflexivity.
  - simpl. left. reflexivity.
Defined.

(** ** Block detection *)

Lemma lower_app (a b : string) : lower (a ++ b) = (lower a ++ lower b)%string.
Proof. induction a as [|c a IH]; simpl; [reflexivity | by rewrite IH]. Qed.

Lemma substring_app_l (n : nat) (a b : string) :
  (String.length a <= n)%nat ->
  String.substring 0 n (a ++ b)
  = (a ++ String.substring 0 (n - String.length a) b)%string.
Proof.
  revert n. induction a as [|c a IH]; intros n Hn; simpl in *.
  - by rewrite Nat.sub_0_r.
  - destruct n as [|n]; [lia|]. simpl. by rewrite IH by lia.
Qed.

Lemma substring_app_full (n : nat) (a b : string) :
  (n <= String.length a)%nat ->
  String.substring 0 n (a ++ b) = String.substring 0 n a.
Proof.
  revert n. induction a as [|c a IH]; intros n Hn; simpl in *.
  - assert (n = 0)%nat as -> by lia. by destruct b.
  - destruct n as [|n]; [reflexivity|]. simpl. by rewrite IH by lia.
Qed.

Lemma append_nil_l (s : string) : ("" ++ s)%string = s.
Proof. reflexivity. Qed.

Lemma append_cons (c : Ascii.ascii) (a b : string) :
  (String c a ++ b)%string = String c (a ++ b).
Proof. reflexivity. Qed.

Lemma prefix_app (pat s : string) : String.prefix pat (pat ++ s) = true.
Proof.
  induction pat as [|c pat IH].
  - rewrite append_nil_l. by destruct s.
  - rewrite append_cons. simpl.
    destruct (Ascii.ascii_dec c c); [exact IH | done].
Qed.

Lemma contains_unfold (pat s : string) :
  contains pat s
  = String.prefix pat s
    || match s with
       | EmptyString => false
       | String _ rest => contains pat rest
       end.
Proof. by destruct s. Qed.

Lemma contains_app (pat pre post : string) :
  contains pat (pre ++ pat ++ post) = true.
Proof.
  induction pre as [|c pre IH].
  - rewrite append_nil_l, contains_unfold, prefix_app. reflexivity.
  - rewrite append_cons, contains_unfold, IH. apply orb_true_r.
Qed.

(** X25: a block phrase is detected in any letter case, wherever it lies
    within the first 4096 characters of the body, and whatever the status
    code is. *)
Theorem looks_blocked_detects (resp : Response) (pat pre mid post : string) :
  In pat BLOCK_PATTERNS ->
  text resp = (pre ++ mid ++ post)%string ->
  lower mid = pat ->
  (String.length pre + String.length mid <= 4096)%nat ->
  _looks_blocked resp = true.
Proof.
  intros Hpat Htext Hmid Hlen. unfold _looks_blocked.
  destruct (existsb (Z.eqb (status_code resp)) SOFT_STATUS_CODES); [reflexivity|].
  apply existsb_exists. exists pat. split; [exact Hpat|].
  rewrite Htext.
  rewrite substring_app_l by lia.
  rewrite substring_app_l by lia.
  rewrite !lower_app, Hmid. apply contains_app.
Qed.

Lemma looks_blocked_detects_witness :
  _looks_blocked (mkResponse 200 "<h1>Access Denied</h1>") = true.
Proof.
  apply (looks_blocked_detects (mkResponse 200 "<h1>Access Denied</h1>")
           "access denied" "<h1>" "Access Denied" "</h1>").
  - simpl. right. right. left. reflexivity.
  - reflexivity.
  - reflexivity.
  - simpl. lia.
Defined.

(** X26: block detection never looks beyond the first 4096 characters of the
    body: whatever follows them does not change the verdict. *)
Theorem looks_blocked_first_4096 (code : Z) (body rest : string) :
  (4096 <= String.length body)%nat ->
  _looks_blocked (mkResponse code (body ++ rest))
  = _looks_blocked (mkResponse code body).
Proof.
  intros Hlen. unfold _looks_blocked. cbn [status_code text].
  by rewrite substring_app_full.
Qed.

Lemma looks_blocked_first_4096_witness :
  _looks_blocked (mkResponse 200 (blank 4096 ++ "captcha"))
  = _looks_blocked (mkResponse 200 (blank 4096)).
Proof.
  apply (looks_blocked_first_4096 200 (blank 4096) "captcha").
  apply Nat.leb_le. vm_compute. reflexivity.
Defined.

(** ** Discovery *)

Lemma consumer_length limit countries now queue : forall found,
  (Z.of_nat (length found) < Z.max limit 1)%Z ->
  (Z.of_nat (length (consumer limit countries now queue found)) <= Z.max limit 1)%Z.
Proof.
  induction queue as [|[p|] queue IH]; intros found Hlen; simpl; try lia.
  destruct (String.eqb (b_host p) EmptyString || (b_port p =? 0)%Z);
    [by apply IH|].
  destruct (match countries with Some (c :: cs) => _ | _ => false end);
    [by apply IH|].
  rewrite length_app. simpl.
  destruct (Z.leb_spec limit (Z.of_nat (length found + 1))).
  - rewrite length_app. simpl. lia.
  - apply IH. rewrite length_app. simpl. lia.
Qed.

Lemma consumer_discovered limit (wanted : option string) now queue : forall found,
  Forall (discovered wanted now) found ->
  Forall (discovered wanted now)
    (consumer limit
       (match wanted with
        | Some c => if nonempty wanted then Some [c] else None
        | None => None
        end) now queue found).
Proof.
  induction queue as [|[p|] queue IH]; intros found Hf; simpl; try exact Hf.
  destruct (String.eqb_spec (b_host p) EmptyString) as [|Hh]; simpl;
    [by apply IH|].
  destruct (Z.eqb_spec (b_port p) 0) as [|Hp]; [by apply IH|].
  set (skip := match (match wanted with
                      | Some c => if nonempty wanted then Some [c] else None
                      | None => None end) with
               | Some (c :: cs) => _ | _ => false end).
  destruct skip eqn:Hskip; [by apply IH|].
  assert (Hnew : discovered wanted now
            {| host := PyStr (b_host p); port := b_port p; proto := lower "http";
               country := match b_country p with Some c => PyStr c | None => PyNone end;
               source := PyStr "public"; success := 0; fail := 0;
               last_used := 0; cooldown_until := 0; created_at := now |}).
  { unfold discovered, brand_new. simpl.
    split; [auto 6|]. split; [reflexivity|]. split; [reflexivity|].
    split; [eauto|]. split; [exact Hp|].
    intros c -> Hc. subst skip.
    assert (Hne : nonempty (Some c) = true).
    { simpl. destruct (String.eqb_spec c EmptyString); [contradiction | reflexivity]. }
    rewrite Hne in Hskip.
    destruct (b_country p) as [c'|]; [|auto].
    simpl in Hskip. rewrite orb_false_r in Hskip.
    destruct (String.eqb c' EmptyString) eqn:Ec.
    - apply String.eqb_eq in Ec. rewrite Ec. auto.
    - simpl in Hskip. apply negb_false_iff in Hskip.
      apply bool_decide_eq_true in Hskip. injection Hskip as Hcc.
      rewrite Hcc. auto. }
  assert (Hf' : Forall (discovered wanted now) (found ++ [_]))
    by (apply Forall_app; split; [exact Hf | constructor; [exact Hnew | constructor]]).
  destruct (limit <=? _)%Z; [exact Hf' | by apply IH].
Qed.

Lemma slice_to_length {A} (l : list A) (n : Z) :
  (Z.of_nat (length l) <= Z.max n 1)%Z ->
  (length (slice_to l n) <= Z.to_nat n)%nat.
Proof.
  intros H. unfold slice_to. destruct (Z.leb_spec 0 n).
  - apply firstn_le_length.
  - rewrite length_firstn. lia.
Qed.

Lemma slice_to_In {A} (l : list A) (n : Z) (x : A) :
  In x (slice_to l n) -> In x l.
Proof.
  unfold slice_to. intros H.
  destruct (0 <=? n)%Z;
    [rewrite <- (firstn_skipn (Z.to_nat n) l)
    |rewrite <- (firstn_skipn (Z.to_nat (Z.of_nat (length l) + n)) l)];
    apply in_or_app; by left.
Qed.

Lemma discover_public_proxies_facts (available : bool) (limit : Z)
    (wanted : option string) (broker : broker_outcome) (now : Q) :
  (length (discover_public_proxies available limit wanted broker now)
     <= Z.to_nat limit)%nat
  /\ Forall (discovered wanted now)
       (discover_public_proxies available limit wanted broker now)
  /\ (available = false \/ broker = BrokerRaised ->
      discover_public_proxies available limit wanted broker now = []).
Proof.
  unfold discover_public_proxies, _gather_public_proxies.
  destruct available; simpl; [|split; [lia | split; [constructor | auto]]].
  destruct broker as [queue|]; [|split; [simpl; lia | split; [constructor | auto]]].
  split; [|split].
  - apply slice_to_length. apply consumer_length. simpl. lia.
  - apply Forall_forall. intros p Hp. apply slice_to_In in Hp.
    pose proof (consumer_discovered limit wanted now (queue ++ [None]) []
                  ltac:(constructor)) as H.
    rewrite Forall_forall in H. by apply H.
  - intros [H|H]; discriminate.
Qed.

(** X27: public discovery returns at most [limit] proxies, none at all for a
    non-positive limit, when the discovery library is not installed or when
    running it raises. Every proxy returned is a new "public" http proxy with
    a non-empty host and a non-zero port; the country filter is best effort:
    it lets through the proxies of the wanted country and those whose country
    is unknown. *)
Theorem discover_public_proxies_spec (available : bool) (limit : Z)
    (wanted : option string) (broker : broker_outcome) (now : Q) :
  (length (discover_public_proxies available limit wanted broker now)
     <= Z.to_nat limit)%nat
  /\ Forall (discovered wanted now)
       (discover_public_proxies available limit wanted broker now)
  /\ (available = false \/ broker = BrokerRaised ->
      discover_public_proxies available limit wanted broker now = []).
Proof. apply discover_public_proxies_facts. Qed.

(** ** Entry points *)

Lemma alloc_all_cons st next p ps :
  alloc_all st next (p :: ps)
  = (fst (alloc_all (<[next := p]> st) (S next) ps),
     next :: snd (alloc_all (<[next := p]> st) (S next) ps)).
Proof. simpl. by destruct (alloc_all (<[next := p]> st) (S next) ps). Qed.

Lemma alloc_all_old ps : forall st next r,
  (r < next)%nat -> fst (alloc_all st next ps) r = st r.
Proof.
  induction ps as [|p ps IH]; intros st next r Hr; [reflexivity|].
  rewrite alloc_all_cons. cbn [fst].
  rewrite IH by lia. apply store_lookup_insert_ne. lia.
Qed.

Lemma alloc_all_refs ps : forall st next,
  snd (alloc_all st next ps) = seq next (length ps).
Proof.
  induction ps as [|p ps IH]; intros st next; [reflexivity|].
  rewrite alloc_all_cons. cbn [snd length seq]. by rewrite IH.
Qed.

Lemma alloc_all_new (P : Proxy -> Prop) ps : forall st next r,
  Forall P ps ->
  In r (snd (alloc_all st next ps)) -> P (fst (alloc_all st next ps) r).
Proof.
  induction ps as [|p ps IH]; intros st next r HP Hr; [destruct Hr|].
  inversion HP as [|? ? Hp HP']; subst.
  rewrite alloc_all_cons in *. cbn [fst snd] in *.
  destruct Hr as [<-|Hr].
  - rewrite alloc_all_old by lia. rewrite store_lookup_insert. exact Hp.
  - by apply IH.
Qed.

Section EntryPointFacts.

Variable int_of_str : string -> option Z.

Lemma integrate_length api_result now :
  (length (integrate_provider_proxies int_of_str api_result now)
     <= length api_result)%nat.
Proof.
  induction api_result as [|item rest IH]; simpl; [lia|].
  destruct (proxy_of_item int_of_str item now); simpl; lia.
Qed.

Lemma proxy_of_item_brand_new item now p :
  proxy_of_item int_of_str item now = Ok p -> brand_new now p.
Proof.
  unfold proxy_of_item, getitem, Proxy_init.
  destruct (item !! "ip"%string); [|discriminate].
  destruct (item !! "port"%string) as [v|]; [|discriminate].
  destruct (py_int int_of_str v); [|discriminate].
  destruct (dict_get item "protocol" (PyStr "http")); try discriminate.
  intros [= <-]. unfold brand_new. simpl. auto.
Qed.

Lemma integrate_brand_new api_result now :
  Forall (brand_new now) (integrate_provider_proxies int_of_str api_result now).
Proof.
  induction api_result as [|item rest IH]; simpl; [constructor|].
  destruct (proxy_of_item int_of_str item now) as [p|] eqn:E; [|exact IH].
  constructor; [by eapply proxy_of_item_brand_new | exact IH].
Qed.

Lemma brand_new_usable (pool : ProxyPool) (now now' : Q) (p : Proxy) :
  brand_new now p -> 0 <= now' ->
  keeps pool p now' = true /\ is_available p now' = true.
Proof.
  intros (Hs & Hf & _ & Hc & _) Hn. split.
  - unfold keeps. rewrite Hs, Hf. apply orb_true_r.
  - unfold is_available. rewrite Hc. by apply Qle_bool_iff.
Qed.

(** X28: the pool that [generate_proxies_on_demand] builds for a non-negative
    [limit] has capacity [3 * limit], minimum score 0.25 and an empty sticky
    map; it lists at most [3 * limit] proxies and at most as many as the
    larger of [limit] and the number of provider records. Every proxy listed
    is a new object without history, the objects that existed before are
    untouched, and if the list is not empty, [get_next] at any later time
    returns a proxy. *)
Theorem generate_proxies_on_demand_spec (available : bool)
    (wanted : option string) (limit : Z)
    (provider_data : option (list (gmap string pyval)))
    (broker : broker_outcome) (now : Q) (st : store) (next : ref) :
  (0 <= limit)%Z ->
  let g := generate_proxies_on_demand int_of_str available wanted limit
             provider_data broker now st next in
  let records := match provider_data with
                 | Some data => Z.of_nat (length data)
                 | None => 0%Z
                 end in
  max_size (snd g) = (limit * 3)%Z
  /\ min_score (snd g) = 25 # 100
  /\ _sticky_map (snd g) = ∅
  /\ (Z.of_nat (length (_proxies (snd g))) <= limit * 3)%Z
  /\ (Z.of_nat (length (_proxies (snd g))) <= Z.max limit records)%Z
  /\ (forall r, In r (_proxies (snd g)) -> brand_new now (fst g r))
  /\ (forall r, (r < next)%nat -> fst g r = st r)
  /\ (forall now' domain sticky,
        0 <= now' -> _proxies (snd g) <> [] ->
        exists x, fst (get_next (fst g) (snd g) domain sticky now') = Some x).
Proof.
  intros Hlim g records.
  (* the provider step *)
  set (provided := match provider_data with
                   | Some (item :: items) => Some (item :: items)
                   | _ => None
                   end).
  assert (Hrec' : (match provided with
                   | Some data => Z.of_nat (length data)
                   | None => 0%Z
                   end <= records)%Z).
  { subst provided records. destruct provider_data as [[|i l]|]; simpl; lia. }
  set (pool0 := ProxyPool_init (limit * 3) (25 # 100) (5 # 100)).
  set (step1 := match provided with
                | Some data =>
                    let provider_proxies :=
                      integrate_provider_proxies int_of_str data now in
                    let '(st', refs) := alloc_all st next provider_proxies in
                    (st', (next + length provider_proxies)%nat, bulk_add pool0 refs)
                | None => (st, next, pool0)
                end).
  assert (H1 : exists st1 next1 pool1,
             step1 = (st1, next1, pool1)
             /\ (next <= next1)%nat
             /\ within_capacity (limit * 3) pool1
             /\ min_score pool1 = 25 # 100 /\ _sticky_map pool1 = ∅
             /\ (Z.of_nat (length (_proxies pool1))
                 <= match provided with
                    | Some data => Z.of_nat (length data)
                    | None => 0%Z
                    end)%Z
             /\ (forall r, In r (_proxies pool1) ->
                   (r < next1)%nat /\ brand_new now (st1 r))
             /\ (forall r, (r < next)%nat -> st1 r = st r)).
  { subst step1. destruct provided as [data|].
    - pose proof (alloc_all_refs (integrate_provider_proxies int_of_str data now)
                    st next) as Hrefs.
      pose proof (alloc_all_old (integrate_provider_proxies int_of_str data now)
                    st next) as Hold.
      pose proof (alloc_all_new (brand_new now)
                    (integrate_provider_proxies int_of_str data now) st next) as Hnew.
      pose proof (integrate_length data now) as Hlen.
      cbv zeta.
      destruct (alloc_all st next (integrate_provider_proxies int_of_str data now))
        as [st1 refs]. simpl in *.
      eexists _, _, _. split; [reflexivity|]. split; [lia|].
      split; [apply bulk_add_capacity; split; simpl; [reflexivity | lia]|].
      rewrite bulk_add_firstn. simpl.
      split; [reflexivity|]. split; [reflexivity|].
      assert (Hsub : forall r, In r (firstn (Z.to_nat (limit * 3 - 0)) refs) ->
                       In r refs).
      { intros r Hr.
        rewrite <- (firstn_skipn (Z.to_nat (limit * 3 - 0)) refs).
        apply in_or_app. by left. }
      split.
      + pose proof (firstn_le_length (Z.to_nat (limit * 3 - 0)) refs).
        rewrite length_firstn. rewrite Hrefs, length_seq. lia.
      + split; [|exact Hold].
        intros r Hr. apply Hsub in Hr. split.
        * rewrite Hrefs in Hr. apply in_seq in Hr. lia.
        * apply Hnew; [apply integrate_brand_new | exact Hr].
    - eexists _, _, _. split; [reflexivity|]. split; [lia|].
      split; [split; simpl; [reflexivity | lia]|].
      simpl. split; [reflexivity|]. split; [reflexivity|]. split; [lia|].
      split; [intros r []|auto]. }
  destruct H1 as (st1 & next1 & pool1 & E1 & Hn1 & Hcap1 & Hms1 & Hst1 & Hlen1
                  & Hnew1 & Hold1).
  (* the discovery step *)
  set (remaining := pymax_int 0 (limit - match provided with
                                         | Some data => Z.of_nat (length data)
                                         | None => 0%Z
                                         end)).
  assert (Hg : g = let '(st, next, pool) := step1 in
                   if (0 <? remaining)%Z && available
                   then
                     let public_proxies :=
                       discover_public_proxies available remaining wanted broker now in
                     let '(st', refs) := alloc_all st next public_proxies in
                     (st', bulk_add pool refs)
                   else (st, pool)) by reflexivity.
  rewrite E1 in Hg.
  assert (Hrem : (remaining = Z.max 0 (limit - match provided with
                                               | Some data => Z.of_nat (length data)
                                               | None => 0%Z
                                               end))%Z).
  { subst remaining. unfold pymax_int.
    set (x := (limit - _)%Z). destruct (Z.ltb_spec 0 x); lia. }
  assert (Hfinal :
    max_size (snd g) = (limit * 3)%Z
    /\ min_score (snd g) = 25 # 100
    /\ _sticky_map (snd g) = ∅
    /\ (Z.of_nat (length (_proxies (snd g))) <= limit * 3)%Z
    /\ (Z.of_nat (length (_proxies (snd g))) <= Z.max limit records)%Z
    /\ (forall r, In r (_proxies (snd g)) -> brand_new now (fst g r))
    /\ (forall r, (r < next)%nat -> fst g r = st r)).
  { destruct ((0 <? remaining)%Z && available) eqn:Hgo.
    - destruct (discover_public_proxies_facts available remaining wanted broker now)
        as (Hdl & Hdf & _).
      set (pub := discover_public_proxies available remaining wanted broker now) in *.
      pose proof (alloc_all_refs pub st1 next1) as Hrefs.
      pose proof (alloc_all_old pub st1 next1) as Hold.
      pose proof (alloc_all_new (discovered wanted now) pub st1 next1 ) as Hnew.
      cbv zeta in Hg.
      destruct (alloc_all st1 next1 pub) as [st2 refs]. simpl in *.
      rewrite Hg. simpl.
      pose proof (bulk_add_capacity (limit * 3) refs pool1 Hcap1) as [Hm2 Hl2].
      rewrite bulk_add_firstn in *. simpl in *.
      split; [exact Hm2|]. split; [exact Hms1|]. split; [exact Hst1|].
      split; [exact Hl2|].
      set (k := Z.to_nat (max_size pool1 - Z.of_nat (length (_proxies pool1)))) in *.
      assert (Hsub : forall r, In r (firstn k refs) -> In r refs).
      { intros r Hr. rewrite <- (firstn_skipn k refs). apply in_or_app. by left. }
      split.
      + rewrite length_app, length_firstn, Hrefs, length_seq. lia.
      + split.
        * intros r Hr. apply in_app_or in Hr as [Hr|Hr].
          -- destruct (Hnew1 r Hr) as [Hlt Hbn]. by rewrite Hold.
          -- apply Hsub in Hr. by apply (Hnew r Hdf) in Hr as [Hbn _].
        * intros r Hr. rewrite Hold by lia. by apply Hold1.
    - rewrite Hg. simpl. destruct Hcap1 as [Hm Hl].
      split; [exact Hm|]. split; [exact Hms1|]. split; [exact Hst1|].
      split; [exact Hl|]. split; [lia|].
      split; [intros r Hr; by apply Hnew1 | exact Hold1]. }
  destruct Hfinal as (F1 & F2 & F3 & F4 & F5 & F6 & F7).
  repeat (split; [assumption|]).
  intros now' domain sticky Hnow Hne.
  assert (Hin : exists r, In r (_proxies (snd g))).
  { destruct (_proxies (snd g)) as [|r l]; [done|]. exists r. by left. }
  destruct Hin as [r Hin].
  destruct (brand_new_usable (snd g) now now' (fst g r) (F6 r Hin) Hnow) as [Hk Ha].
  by apply (get_next_some (fst g) (snd g) domain sticky now' r).
Qed.

End EntryPointFacts.

Lemma generate_proxies_on_demand_spec_witness :
  max_size (snd (generate_proxies_on_demand (fun _ => None) false None 5
                   (Some [record_us; record_no_port; record_uk])
                   BrokerRaised 0 fresh_store 0%nat))
  = (5 * 3)%Z.
Proof.
  apply (generate_proxies_on_demand_spec (fun _ => None) false None 5
           (Some [record_us; record_no_port; record_uk])
           BrokerRaised 0 fresh_store 0%nat).
  lia.
Defined.

(** ** The example client *)

(** A response that [request] returns is the one the network gave to one of
    the attempts, through the proxy that attempt used. *)
Lemma request_once_from_network (s : state) (domain : string) (env : attempt_env)
    (r : Response) (proxy : option ref) (s1 : state) :
  _request_once s domain env = ((Some r, proxy), s1) ->
  exists p, proxy = Some p /\ net env p = Responded r.
Proof.
  intros E. pose proof (request_once_cases s domain env) as H. simpl in H.
  destruct (fst (get_next _ _ _ _ _)) as [p|].
  - destruct H as (resp & ok & soft & msgs & E' & _ & Hr & _).
    rewrite E in E'. injection E' as <- -> _.
    exists p. split; [reflexivity|]. by destruct (Hr r eq_refl).
  - rewrite H in E. discriminate.
Qed.

Lemma request_loop_from_network (domain : string) (envs : Z -> attempt_env) (n : nat) :
  forall (a : Z) (s s' : state) (r : Response),
    request_loop n a s domain envs = (Some r, s') ->
    exists attempt p,
      (a <= attempt < a + Z.of_nat n)%Z
      /\ net (envs attempt) p = Responded r.
Proof.
  induction n as [|n IH]; intros a s s' r; [discriminate|].
  cbn [request_loop].
  destruct (_request_once s domain (envs a)) as [[resp proxy] s1] eqn:E1.
  destruct resp as [r1|].
  - intros [= -> _].
    destruct (request_once_from_network s domain (envs a) r proxy s1 E1)
      as (p & _ & Hnet).
    exists a, p. split; [lia | exact Hnet].
  - intros E. apply IH in E as (attempt & p & Hk & Hnet).
    exists attempt, p. split; [lia | exact Hnet].
Qed.

Section FetchFacts.

Variable int_of_str : string -> option Z.

(** X29: a document that [fetch_legal_document_with_proxy] returns is the body
    of a response that the network gave to one of its five attempts, through
    some proxy, and that response has status 200 and does not look blocked: no
    redirect, no other 2xx response and no block page is ever passed on as a
    document. *)
Theorem fetch_returns_clean_document (available : bool) (broker : broker_outcome)
    (now : Q) (st : store) (next : ref) (domain : string)
    (envs : Z -> attempt_env) (document : string) :
  fetch_legal_document_with_proxy int_of_str available broker now st next
    domain envs = Some document ->
  exists (attempt : Z) (p : ref) (response : Response),
    (1 <= attempt <= 5)%Z
    /\ net (envs attempt) p = Responded response
    /\ text response = document
    /\ status_code response = 200%Z
    /\ _looks_blocked response = false.
Proof.
  unfold fetch_legal_document_with_proxy, get_stealth_session.
  destruct (generate_proxies_on_demand int_of_str available (Some "US"%string) 10
              None broker now st next) as [st' pool].
  unfold StealthSession_init.
  set (s := mkState st' _ []).
  unfold request.
  destruct (request_loop_result domain envs (Z.to_nat (max_retries (sess s))) 1 s)
    as (resp & s1 & msgs & Eloop & _ & Hres).
  rewrite Eloop. simpl. destruct resp as [r|]; [|discriminate].
  destruct (response_ok r && (status_code r =? 200)%Z) eqn:E; [|discriminate].
  intros [= <-]. apply andb_true_iff in E as [_ E]. apply Z.eqb_eq in E.
  apply request_loop_from_network in Eloop as (attempt & p & Hk & Hnet).
  exists attempt, p, r. split; [simpl in Hk; lia|]. split; [exact Hnet|].
  split; [reflexivity|]. split; [exact E|].
  destruct Hres as [[[_ Hb]|H3] _]; [exact Hb | lia].
Qed.

(** X30: without the discovery library, or when running it raises,
    [fetch_legal_document_with_proxy] has no proxy to use (its provider list
    is empty) and returns no document, whatever the network would answer. *)
Theorem fetch_without_discovery (available : bool) (broker : broker_outcome)
    (now : Q) (st : store) (next : ref) (domain : string)
    (envs : Z -> attempt_env) :
  available = false \/ broker = BrokerRaised ->
  fetch_legal_document_with_proxy int_of_str available broker now st next
    domain envs = None.
Proof.
  intros H. unfold fetch_legal_document_with_proxy, get_stealth_session.
  assert (Hg : generate_proxies_on_demand int_of_str available (Some "US"%string) 10
                 None broker now st next
               = (st, ProxyPool_init (10 * 3) (25 # 100) (5 # 100))).
  { unfold generate_proxies_on_demand. simpl.
    destruct available; simpl; [|reflexivity].
    destruct H as [H| ->]; [discriminate|]. reflexivity. }
  rewrite Hg. unfold StealthSession_init.
  set (s := mkState st _ []).
  unfold request.
  destruct (request_loop_empty_pool domain envs (Z.to_nat (max_retries (sess s))) 1 s
              eq_refl eq_refl) as (s' & -> & _).
  reflexivity.
Qed.

End FetchFacts.

Lemma fetch_returns_clean_document_witness :
  exists (attempt : Z) (p : ref) (response : Response),
    (1 <= attempt <= 5)%Z
    /\ net (answering attempt) p = Responded response
    /\ text response = "<html>annual report</html>"%string
    /\ status_code response = 200%Z
    /\ _looks_blocked response = false.
Proof.
  apply (fetch_returns_clean_document (fun _ => None) true
           (BrokerFound [Some (mkBroker "10.1.1.1" 3128 (Some "US"%string))])
           0 fresh_store 0%nat "www.sec.gov" answering).
  vm_compute. reflexivity.
Defined.

Lemma fetch_without_discovery_witness :
  fetch_legal_document_with_proxy (fun _ => None) false
    (BrokerFound [Some (mkBroker "10.1.1.1" 3128 (Some "US"%string))])
    0 fresh_store 0%nat "www.sec.gov" answering = None.
Proof.
  apply (fetch_without_discovery (fun _ => None) false
           (BrokerFound [Some (mkBroker "10.1.1.1" 3128 (Some "US"%string))])
           0 fresh_store 0%nat "www.sec.gov" answering).
  left. reflexivity.
Defined.

